(** * dog: Gateway / Shard bookkeeping, embedded from src/gateway.ts and src/shard.ts

    The two classes are embedded as state-passing functions over records that
    hold their private fields.  JavaScript [Map] and [Set] keep insertion
    order, and [Gateway.#sort] depends on it, so both are association lists
    with the update discipline of the JavaScript containers.  Live counts are
    integers ([Z]); the capacity limit is a [number], which need not be one.
    Calls to other actors and to sockets are recorded, in order, in a trace
    carried by the state; whether such a call completes or fails is decided
    outside the shard, and so is a parameter. *)

From Stdlib Require Import ZArith QArith List String Ascii Bool Lia Sorted.
Import ListNotations.

Local Open Scope string_scope.
Local Open Scope list_scope.
Local Open Scope Z_scope.

Set Default Proof Using "Type".

(** * The embedding *)

(** ** JavaScript values shared by both classes *)

(** [x || y] on possibly-undefined strings: the empty string is falsy. *)
Definition truthy (s : string) : bool := negb (s =? "")%string.

Definition js_or (a b : option string) : option string :=
  match a with
  | Some x => if truthy x then Some x else b
  | None => b
  end.

(** [x || d] where [d] is a string literal. *)
Definition or_default (a : option string) (d : string) : string :=
  match a with
  | Some x => if truthy x then x else d
  | None => d
  end.

Record Error := mkError { message : string; stack : option string }.

(** [new Error(msg)]; the engine's stack text starts with the message line,
    the frames that follow it are left out. *)
Definition new_Error (msg : string) : Error :=
  {| message := msg; stack := Some ("Error: " ++ msg)%string |}.

(** What application code can throw: any value at all.  The classes read at
    most the [stack] of a value they catch; on [undefined] and [null] that
    read throws in turn, on any other value it yields the property, which
    may be missing. *)
Inductive Thrown :=
| Nullish
| Raised (e : Error).

(** The [TypeError] of the engine for reading property [prop] of
    [undefined] or [null]. *)
Definition nullish_read (prop : string) : Error :=
  {| message := ("Cannot read properties of undefined (reading '" ++ prop ++ "')")%string;
     stack := Some ("TypeError: Cannot read properties of undefined (reading '"
                    ++ prop ++ "')")%string |}.

(** Completion of a call: a value, or something thrown. *)
Inductive result (E A : Type) : Type :=
| Ok (a : A)
| Throw (e : E).
Arguments Ok {E A} a.
Arguments Throw {E A} e.

(** A [number] as the limit can be: every finite double is a rational, and
    there are the two infinities and NaN. *)
Inductive number :=
| Finite (q : Q)
| PlusInfinity
| MinusInfinity
| NaN.

(** The number with an integer value. *)
Definition whole (n : Z) : number := Finite (inject_Z n).

(** [count < x] for an integer [count]; false when [x] is NaN. *)
Definition below (count : Z) (x : number) : bool :=
  match x with
  | Finite q => negb (Qle_bool q (inject_Z count))
  | PlusInfinity => true
  | MinusInfinity => false
  | NaN => false
  end.

(** [x >= count] for an integer [count]; false when [x] is NaN. *)
Definition fits (x : number) (count : Z) : bool :=
  match x with
  | Finite q => Qle_bool (inject_Z count) q
  | PlusInfinity => true
  | MinusInfinity => false
  | NaN => false
  end.

Definition SocketId := nat.
Definition ReqID := string.
Definition ShardID := string.

(** A [Request] as the two classes read it: method, path of the URL, the
    three handshake headers, the routing headers named by the constants of
    [internal/headers], and the body text. *)
Record Request := mkRequest {
  method : string;
  pathname : string;
  hdr_upgrade : option string;
  hdr_ws_key : option string;
  hdr_ws_version : option string;
  hdr_gatewayid : option string;
  hdr_clientid : option string;
  hdr_shardid : option string;
  hdr_neighborid : option string;
  hdr_targetid : option string;
  hdr_isempty : option string;
  body : string
}.

Record Response := mkResponse {
  status : Z;
  payload : option string;
  webSocket : option SocketId
}.

(** [new Response] and [new Response(text)]. *)
Definition response_empty : Response :=
  {| status := 200; payload := None; webSocket := None |}.
Definition response_text (s : string) : Response :=
  {| status := 200; payload := Some s; webSocket := None |}.

(** Modelled from the spec: [utils.abort] of [internal/utils], which is not
    among the sources.  It builds the client-visible error response: the given
    status code and, when present, the diagnostic text. *)
Definition abort (code : Z) (msg : option string) : Response :=
  {| status := code; payload := msg; webSocket := None |}.

(** The identifiers [utils.validate] hands back. *)
Record Ids := mkIds {
  rid : ReqID;
  sid : ShardID;
  gid : string;
  tid : option string
}.

(** The reserved paths of [internal/routes]. *)
Record Routes := mkRoutes {
  CLOSE : string;
  NEIGHBOR : string;
  BROADCAST : string;
  WHISPER : string
}.

(** ** JavaScript [Map] with string keys, in insertion order *)
Module JSMap.
Section Defs.
Context {V : Type}.

Definition t := list (string * V).

Fixpoint get (m : t) (k : string) : option V :=
  match m with
  | [] => None
  | (k', v) :: rest => if (k' =? k)%string then Some v else get rest k
  end.

(** [m.set(k, v)]: an existing key keeps its place, a new one goes last. *)
Fixpoint set (m : t) (k : string) (v : V) : t :=
  match m with
  | [] => [(k, v)]
  | (k', v') :: rest =>
      if (k' =? k)%string then (k', v) :: rest else (k', v') :: set rest k v
  end.

Definition delete (m : t) (k : string) : t :=
  filter (fun p => negb (fst p =? k)%string) m.

Definition keys (m : t) : list string := map fst m.

(** What every [Map] satisfies: one entry per key. *)
Definition wf (m : t) : Prop := NoDup (keys m).

End Defs.
Arguments t : clear implicits.
End JSMap.

(** ** JavaScript [Set] of strings, in insertion order *)
Module JSSet.
Definition t := list string.

Definition has (s : t) (x : string) : bool := List.existsb (String.eqb x) s.

(** [s.add(x)] appends [x] unless it is already a member. *)
Definition add (s : t) (x : string) : t := if has s x then s else s ++ [x].

End JSSet.


(** ** The Gateway (src/gateway.ts) *)
Module Gateway.

Definition LiveCount := Z.
Definition BucketTuple := (ShardID * LiveCount)%type.

(** [#introduce(stranger, target)]: the control call sent to [target]. *)
Inductive Call :=
| Introduce (stranger target : ShardID).

(** The private fields; [calls] records the introductions issued so far. *)
Record State := mkState {
  mapping : JSMap.t ShardID;
  kids : JSMap.t LiveCount;
  sorted : list ShardID;
  current : option ShardID;
  calls : list Call
}.

(** The constructor's state. *)
Definition init : State :=
  {| mapping := []; kids := []; sorted := []; current := None; calls := [] |}.

(** How [fetch] ends: with a response of its own, with the request handed
    to [utils.load(this.#child, sid).fetch], whose response is the shard's,
    or with the error [Headers.set] threw. *)
Inductive Outcome :=
| Replied (r : Response)
| Forwarded (target : ShardID) (req : Request)
| Threw (e : Error).

(** Which branch of [fetch] chose the shard. *)
Inductive Path := FastPath | SortedPath | FreshPath.

(** [tuples.sort((a, b) => a[1] - b[1])]: ascending by count and stable, so
    ties stay in the order of the [Map]. *)
Fixpoint insert_tuple (t : BucketTuple) (l : list BucketTuple) : list BucketTuple :=
  match l with
  | [] => [t]
  | h :: rest => if snd t <=? snd h then t :: l else h :: insert_tuple t rest
  end.

Definition sort_tuples (l : list BucketTuple) : list BucketTuple :=
  fold_right insert_tuple [] l.

(** The order the comparator [(a, b) => a[1] - b[1]] sorts by. *)
Definition by_count (a b : BucketTuple) : Prop := snd a <= snd b.

(** The tuples with a given count. *)
Definition with_count (c : LiveCount) (l : list BucketTuple) : list BucketTuple :=
  filter (fun t => snd t =? c) l.

Section Params.
Variable uid : string.
(** The abstract [limit: number] of the class. *)
Variable limit : number.
(** The application's [identify]. *)
Variable identify : Request -> ReqID.
(** [utils.validate(req, expected?)] of [internal/utils]. *)
Variable validate : Request -> option string -> result Error Ids.
Variable ROUTES : Routes.
(** What the platform's [Headers.set] does with a value the application
    supplied: it stores a normalised value, or throws a [TypeError].  The
    gateway's own id and the shard ids are ids the platform generated, and
    are stored as they are. *)
Variable header_value : string -> result Error string.

(** The loop of [#sort]: the first tuple under the limit is the bucket,
    every tuple under the limit contributes its shard id. *)
Fixpoint scan (tuples : list BucketTuple) (bucket : option BucketTuple)
    (ids : list ShardID) : option BucketTuple * list ShardID :=
  match tuples with
  | [] => (bucket, ids)
  | t :: rest =>
      if below (snd t) limit
      then scan rest (match bucket with None => Some t | Some _ => bucket end)
                (ids ++ [fst t])
      else scan rest bucket ids
  end.

Definition sort (g : State) : option BucketTuple * State :=
  let tuples := kids g in
  let tuples := if (1 <? List.length tuples)%nat then sort_tuples tuples else tuples in
  let '(bucket, ids) := scan tuples None [] in
  (bucket,
   {| mapping := mapping g; kids := kids g; sorted := ids;
      current := current g; calls := calls g |}).

(** The test [#sort] applies to a tuple, and the array it scans; the lemmas
    about [sort] are stated with them. *)
Definition under (t : BucketTuple) : bool := below (snd t) limit.

Definition sorted_tuples (g : State) : list BucketTuple :=
  if (1 <? List.length (kids g))%nat then sort_tuples (kids g) else kids g.

Definition is_empty_flag (req : Request) : bool :=
  match hdr_isempty req with
  | Some v => (v =? "1")%string
  | None => false
  end.

Definition close (req : Request) (g : State) : result Error Response * State :=
  match validate req None with
  | Throw e => (Throw e, g)
  | Ok ids =>
      if negb (gid ids =? uid)%string
      then (Throw (new_Error "Mismatch: Gateway ID"), g)
      else
        match JSMap.get (kids g) (sid ids) with
        | None => (Throw (new_Error "Unknown: Shard ID"), g)
        | Some alive =>
            let alive := Z.max 0 (alive - 1) in
            let g1 :=
              {| mapping :=
                   if is_empty_flag req
                   then JSMap.delete (mapping g) (rid ids)
                   else mapping g;
                 kids := JSMap.set (kids g) (sid ids) alive;
                 sorted := sorted g; current := current g; calls := calls g |} in
            let '(bucket, g2) := sort g1 in
            (Ok (response_text "OK"),
             {| mapping := mapping g2; kids := kids g2; sorted := sorted g2;
                current := option_map fst bucket; calls := calls g2 |})
        end
  end.

(** [#welcome(nid)], up to its first suspension: the table updates and the
    two introductions per previously known shard, all issued at once. *)
Definition welcome (nid : ShardID) (g : State) : State :=
  let items := JSMap.keys (kids g) in
  {| mapping := mapping g;
     kids := JSMap.set (kids g) nid 1;
     sorted := nid :: sorted g;
     current := current g;
     calls := calls g
              ++ flat_map (fun sid => [Introduce nid sid; Introduce sid nid]) items |}.

(** The [else] branch of [fetch]: re-sort if shards are listed and take the
    most available one, otherwise create a shard.  [fresh] is the id that
    [clusterize(request, this.#child).toString()] yields when it is asked. *)
Definition assign_slow (fresh : ShardID) (g : State)
  : Path * ShardID * LiveCount * State :=
  let '(bucket, g1) :=
    if (0 <? List.length (sorted g))%nat then sort g else (None, g) in
  match bucket with
  | Some (s, c) => (SortedPath, s, c + 1, g1)
  | None => (FreshPath, fresh, 1, welcome fresh g1)
  end.

(** The choice of shard in [fetch]. *)
Definition assign (rid : ReqID) (fresh : ShardID) (g : State)
  : Path * ShardID * LiveCount * State :=
  let sid := js_or (JSMap.get (mapping g) rid)
               (js_or (current g) (hd_error (sorted g))) in
  let alive := match sid with
               | Some s => JSMap.get (kids g) s
               | None => None
               end in
  match sid, alive with
  | Some s, Some a =>
      if fits limit (a + 1) then (FastPath, s, a + 1, g) else assign_slow fresh g
  | _, _ => assign_slow fresh g
  end.

(** The request [fetch] hands on: the incoming one with the three routing
    headers set. *)
Definition tagged (req : Request) (client : string) (sid : ShardID) : Request :=
  {| method := method req; pathname := pathname req;
     hdr_upgrade := hdr_upgrade req; hdr_ws_key := hdr_ws_key req;
     hdr_ws_version := hdr_ws_version req;
     hdr_gatewayid := Some uid; hdr_clientid := Some client;
     hdr_shardid := Some sid;
     hdr_neighborid := hdr_neighborid req; hdr_targetid := hdr_targetid req;
     hdr_isempty := hdr_isempty req; body := body req |}.

(** [fetch] off the CLOSE path.  The tables are written before the headers
    are set, so they are written also when [Headers.set] throws on the
    client id. *)
Definition route (req : Request) (fresh : ShardID) (g : State) : Outcome * State :=
  let rid := identify req in
  let '(_, sid, alive, g1) := assign rid fresh g in
  (match header_value rid with
   | Ok client => Forwarded sid (tagged req client sid)
   | Throw e => Threw e
   end,
   {| mapping := JSMap.set (mapping g1) rid sid;
      kids := JSMap.set (kids g1) sid alive;
      sorted := sorted g1;
      current := if below alive limit then Some sid else None;
      calls := calls g1 |}).

Definition fetch (req : Request) (fresh : ShardID) (g : State) : Outcome * State :=
  if (pathname req =? CLOSE ROUTES)%string
  then
    match close req g with
    | (Ok r, g') => (Replied r, g')
    | (Throw err, g') => (Replied (abort 400 (Some (message err))), g')
    end
  else route req fresh g.

(** A run of Route calls, each with the id a fresh shard would get. *)
Definition run_routes (rs : list (Request * ShardID)) (g : State) : State :=
  fold_left (fun g r => snd (route (fst r) (snd r) g)) rs g.

(** States the gateway can be in: the constructor's, then any [fetch]. *)
Inductive reachable : State -> Prop :=
| reach_init : reachable init
| reach_fetch g req fresh : reachable g -> reachable (snd (fetch req fresh g)).

End Params.

(** What the tables satisfy between operations when the limit is the
    integer [L] and positive: one entry per shard, no count above the limit,
    every listed shard tracked. *)
Definition tables_ok (L : Z) (g : State) : Prop :=
  JSMap.wf (kids g) /\
  (forall k c, JSMap.get (kids g) k = Some c -> c <= L) /\
  (forall x, In x (sorted g) -> exists c, JSMap.get (kids g) x = Some c).

End Gateway.

(** ** The Shard (src/shard.ts) *)
Module Shard.

(** [DOG.Message]: a string, or an object, which is given here by the text
    [JSON.stringify] produces for it. *)
Inductive Message :=
| Text (s : string)
| Object (json : string).

(** [typeof msg === 'object' ? JSON.stringify(msg) : msg] *)
Definition stringify (msg : Message) : string :=
  match msg with
  | Text s => s
  | Object json => json
  end.

(** [DOG.State], the value type of [Pool]. *)
Record PoolState := mkPoolState { gateway : string; socket : SocketId }.

(** The [DOG.Socket] that [connect] builds.  Its methods are closures over
    [rid], [gid] and the server end of the pair, so these three determine it. *)
Record Socket := mkSocket {
  sock_uid : ReqID;
  sock_gid : string;
  sock_server : SocketId
}.

Inductive HookName := OnOpen | OnMessage | OnClose | OnError.

(** [evt.type] of the events the [closer] listens to. *)
Inductive EventType := EvClose | EvError.

(** What a shard does to the outside, appended to the trace when the call is
    made, whether or not the call then completes. *)
Inductive Effect :=
| Accepted (server : SocketId)                  (* server.accept() *)
| Sent (server : SocketId) (data : string)      (* server.send(data) *)
| Closed (server : SocketId)                    (* server.close() *)
| Entered (h : HookName) (s : Socket)           (* the application's hook is called *)
| BodyRead (req : Request)                      (* request.text() *)
| ToGateway (gid : string) (req : Request)      (* this.#parent.get(gid).fetch(...) *)
| ToShard (target : ShardID) (req : Request).   (* this.#self.get(sid).fetch(...) *)

(** The private fields, the sockets [connect] has attached its listeners to,
    the next unused socket id, and the trace. *)
Record State := mkState {
  pool : JSMap.t PoolState;
  neighbors : JSSet.t;
  sockets : list Socket;
  next_socket : SocketId;
  trace : list Effect
}.

Definition init : State :=
  {| pool := []; neighbors := []; sockets := []; next_socket := 0%nat; trace := [] |}.

(** *** Application code

    A hook receives a socket and can only call its methods.  It sees how
    each call completed (a method may throw, a returned promise may reject)
    and goes on from there as it likes, until it returns or throws. *)
Inductive SockCall :=
| CallSend (s : Socket) (data : string)
| CallClose (s : Socket)
| CallBroadcast (s : Socket) (msg : Message) (self : bool)
| CallWhisper (s : Socket) (target : ReqID) (msg : Message)
| CallEmit (s : Socket) (msg : Message) (self : bool).

Inductive Script :=
| Done
| Fail (v : Thrown)
| Call (c : SockCall) (k : result Thrown unit -> Script).

(** [receive] can also call [this.connect] and look at how it completed. *)
Inductive Handler :=
| Return (r : Response)
| Raise (v : Thrown)
| Connect (req : Request) (k : result Thrown Response -> Handler)
| Do (c : SockCall) (k : result Thrown unit -> Handler).

(** [return this.connect(req)] *)
Definition return_connect (req : Request) : Handler :=
  Connect req (fun r => match r with Ok res => Return res | Throw v => Raise v end).

(** The abstract and optional methods of the class. *)
Record App := mkApp {
  receive : Request -> Handler;
  onopen : option (Socket -> Script);
  onmessage : option (Socket -> string -> Script);
  onclose : option (Socket -> Script);
  onerror : option (Socket -> Script)
}.

(** *** Computations on the shard's state that may throw *)
Definition M (A : Type) : Type := State -> result Thrown A * State.

Definition ret {A} (a : A) : M A := fun st => (Ok a, st).

Definition throw {A} (v : Thrown) : M A := fun st => (Throw v, st).

Definition bind {A B} (m : M A) (f : A -> M B) : M B :=
  fun st =>
    match m st with
    | (Ok a, st') => f a st'
    | (Throw v, st') => (Throw v, st')
    end.

Notation "x <- m ;; k" := (bind m (fun x => k))
  (at level 61, m at next level, right associativity).
Notation "m ;; k" := (bind m (fun _ => k))
  (at level 61, right associativity).

(** [try { m } catch (err) { h err }] *)
Definition try_catch {A} (m : M A) (h : Thrown -> M A) : M A :=
  fun st =>
    match m st with
    | (Ok a, st') => (Ok a, st')
    | (Throw v, st') => h v st'
    end.

(** [try { m } finally { f }]: [f] runs however [m] completes, and the
    completion of [m] stands unless [f] throws. *)
Definition try_finally {A} (m : M A) (f : M unit) : M A :=
  fun st =>
    let '(r, st') := m st in
    match f st' with
    | (Ok _, st'') => (r, st'')
    | (Throw v, st'') => (Throw v, st'')
    end.

(** [(err as Error).stack] on a caught value. *)
Definition stack_of (v : Thrown) : M (option string) :=
  match v with
  | Nullish => throw (Raised (nullish_read "stack"))
  | Raised err => ret (stack err)
  end.

(** Appending to the trace. *)
Definition record (es : list Effect) (st : State) : State :=
  {| pool := pool st; neighbors := neighbors st; sockets := sockets st;
     next_socket := next_socket st; trace := trace st ++ es |}.

(** The calls whose completion is up to the other side: a socket that may be
    gone, a body that may not arrive, an actor that may not answer.
    Accepting the server end of a pair just created, and entering a hook,
    are not. *)
Definition can_fail (e : Effect) : bool :=
  match e with
  | Sent _ _ | Closed _ | BodyRead _ | ToGateway _ _ | ToShard _ _ => true
  | Accepted _ | Entered _ _ => false
  end.

(** The requests sent to a gateway so far: the decrement notifications. *)
Definition notices (st : State) : list Request :=
  flat_map (fun e => match e with ToGateway _ req => [req] | _ => [] end) (trace st).

(** An effect other than a call to the gateway. *)
Definition quiet (e : Effect) : Prop :=
  match e with
  | ToGateway _ _ => False
  | _ => True
  end.

(** A computation that touches no table: all it does is append effects
    other than gateway calls to the trace. *)
Definition appends {A} (m : M A) : Prop :=
  forall st, exists es, snd (m st) = record es st /\ Forall quiet es.

(** A computation that leaves the neighbour set as it is. *)
Definition keeps_neighbors {A} (m : M A) : Prop :=
  forall st, neighbors (snd (m st)) = neighbors st.

(** A computation that throws nothing but error objects. *)
Definition raises_errors {A} (m : M A) : Prop :=
  forall st v st', m st = (Throw v, st') -> exists err, v = Raised err.

Fixpoint for_each {A} (l : list A) (f : A -> M unit) : M unit :=
  match l with
  | [] => ret tt
  | x :: rest => f x ;; for_each rest f
  end.

(** *** The handshake checks of [connect] *)

(** White space for [String.prototype.trim], among the characters a header
    value can hold (code points below 256). *)
Definition is_space (c : ascii) : bool :=
  let n := N_of_ascii c in
  ((9 <=? n) && (n <=? 13) || (n =? 32) || (n =? 160))%N.

Fixpoint trim_start (l : list ascii) : list ascii :=
  match l with
  | c :: rest => if is_space c then trim_start rest else l
  | [] => []
  end.

Definition trim (s : string) : string :=
  string_of_list_ascii
    (rev (trim_start (rev (trim_start (list_ascii_of_string s))))).

(** The class [[+/0-9A-Za-z]]. *)
Definition is_key_char (c : ascii) : bool :=
  let n := N_of_ascii c in
  ((n =? 43) || (n =? 47)
   || (48 <=? n) && (n <=? 57)
   || (65 <=? n) && (n <=? 90)
   || (97 <=? n) && (n <=? 122))%N.

(** [/^[+/0-9A-Za-z]{22}==$/.test(value)] *)
Definition key_ok (value : string) : bool :=
  let l := list_ascii_of_string value in
  (List.length l =? 24)%nat
  && forallb is_key_char (firstn 22 l)
  && (string_of_list_ascii (skipn 22 l) =? "==")%string.

(** [header !== 'literal'] *)
Definition differs (header : option string) (literal : string) : bool :=
  match header with
  | Some v => negb (v =? literal)%string
  | None => true
  end.

(** The [Dispatch] interface. *)
Record Dispatch := mkDispatch {
  d_gateway : string;
  d_sender : string;
  d_target : option string;
  d_route : string;
  d_body : string
}.

(** The pool entries [#emit] sends to, in the order of the pool: all of
    them, the sender's left out unless [self] is set. *)
Definition audience (sender : ReqID) (self : bool) (st : State)
  : list (ReqID * PoolState) :=
  filter (fun entry => self || negb (fst entry =? sender)%string) (pool st).

(** The sends [#emit] makes when none of them throws. *)
Definition sends (sender : ReqID) (text : string) (self : bool) (st : State)
  : list Effect :=
  map (fun entry => Sent (socket (snd entry)) text) (audience sender self st).

(** The [DOG.Socket] that [connect] builds for the identifiers [ids]: the
    pair takes the next two socket ids, the server end is the second. *)
Definition new_socket (ids : Ids) (st : State) : Socket :=
  {| sock_uid := rid ids; sock_gid := gid ids; sock_server := S (next_socket st) |}.

(** The state once [connect] has accepted socket [s], attached its listeners
    and the effects [es] of [onopen] are recorded. *)
Definition attached (s : Socket) (es : list Effect) (st : State) : State :=
  {| pool := pool st; neighbors := neighbors st;
     sockets := sockets st ++ [s];
     next_socket := S (S (next_socket st));
     trace := trace st ++ Accepted (sock_server s) :: es |}.

(** The state once the pool entry for socket [s] is set. *)
Definition registered (s : Socket) (st : State) : State :=
  {| pool := JSMap.set (pool st) (sock_uid s)
               {| gateway := sock_gid s; socket := sock_server s |};
     neighbors := neighbors st; sockets := sockets st;
     next_socket := next_socket st; trace := trace st |}.

Section Params.
Variable uid : string.
(** [utils.validate(req, expected?)] of [internal/utils]. *)
Variable validate : Request -> option string -> result Error Ids.
Variable ROUTES : Routes.
Variable app : App.
(** How the outside answers calls that can fail and were made together,
    given all that was done before them: [None] when each of them
    completes, otherwise the error the shard gets to see, thrown by a send or
    a close or carried by the rejection of a fetch or a body read. *)
Variable settle : list Effect -> list Effect -> option Error.
(** What the platform's [Headers] does with a value the application
    supplied: it stores a normalised value, or throws a [TypeError].
    Values read from the headers of a request, and ids the platform
    generated, are stored as they are. *)
Variable header_value : string -> result Error string.

(** How [calls], made together after [done], complete. *)
Definition settled (done calls : list Effect) : result Thrown unit :=
  match (if existsb can_fail calls then settle done calls else None) with
  | Some err => Throw (Raised err)
  | None => Ok tt
  end.

(** One call to the outside: it is recorded, and completes as [settle]
    says. *)
Definition effect (e : Effect) : M unit :=
  fun st => (settled (trace st) [e], record [e] st).

(** [await Promise.all(calls)] over fetches that were all started: each
    call is made, and the whole rejects if one of them does. *)
Definition all_settled (calls : list Effect) : M unit :=
  fun st => (settled (trace st) calls, record calls st).

(** [await request.text()] *)
Definition text (req : Request) : M string :=
  effect (BodyRead req) ;; ret (body req).

(** [#emit(sender, msg, self)] *)
Definition emit (sender : ReqID) (msg : Message) (self : bool) : M unit :=
  fun st =>
    let msg := stringify msg in
    for_each (pool st)
      (fun entry =>
         if self || negb (fst entry =? sender)%string
         then effect (Sent (socket (snd entry)) msg)
         else ret tt)
      st.

(** The headers of [commons] in [#dispatch]: the target id is among them
    only if it is truthy, and it is the one value in them that the
    application supplied. *)
Definition relay_target (params : Dispatch) : result Error (option string) :=
  match js_or (d_target params) None with
  | Some t =>
      match header_value t with
      | Ok v => Ok (Some v)
      | Throw e => Throw e
      end
  | None => Ok None
  end.

(** The request [#dispatch] sends to the neighbour [sid], [target] being
    the target id header it carries. *)
Definition relay_request (params : Dispatch) (target : option string)
    (sid : ShardID) : Request :=
  {| method := "POST"; pathname := d_route params;
     hdr_upgrade := None; hdr_ws_key := None; hdr_ws_version := None;
     hdr_gatewayid := Some (d_gateway params);
     hdr_clientid := Some (d_sender params);
     hdr_shardid := Some sid;
     hdr_neighborid := Some uid;
     hdr_targetid := target;
     hdr_isempty := None;
     body := d_body params |}.

(** [#dispatch(params)].  [new Headers(commons)] runs in the callback of
    [list.map], so when it throws it does so for the first neighbour and no
    call has been made. *)
Definition dispatch (params : Dispatch) : M unit :=
  fun st =>
    let list := neighbors st in
    if (List.length list <? 1)%nat then (Ok tt, st)
    else
      match relay_target params with
      | Throw e => (Throw (Raised e), st)
      | Ok target =>
          all_settled
            (map (fun sid => ToShard sid (relay_request params target sid)) list) st
      end.

(** [#broadcast(gateway, sender, msg, self)] *)
Definition broadcast (gateway : string) (sender : ReqID) (msg : Message)
    (self : bool) : M unit :=
  let body := stringify msg in
  emit sender (Text body) self ;;
  dispatch {| d_gateway := gateway; d_sender := sender; d_target := None;
              d_route := BROADCAST ROUTES; d_body := body |}.

(** [#whisper(gateway, sender, target, msg)] *)
Definition whisper (gateway : string) (sender target : ReqID) (msg : Message)
    : M unit :=
  if (sender =? target)%string then ret tt
  else
    let body := stringify msg in
    fun st =>
      match JSMap.get (pool st) target with
      | Some state => effect (Sent (socket state) body) st
      | None =>
          dispatch {| d_gateway := gateway; d_sender := sender;
                      d_target := Some target;
                      d_route := WHISPER ROUTES; d_body := body |} st
      end.

(** The request [#decrement] sends to the gateway. *)
Definition close_request (rid : ReqID) (gid : string) : Request :=
  {| method := "GET"; pathname := CLOSE ROUTES;
     hdr_upgrade := None; hdr_ws_key := None; hdr_ws_version := None;
     hdr_gatewayid := Some gid; hdr_clientid := Some rid;
     hdr_shardid := Some uid;
     hdr_neighborid := None; hdr_targetid := None; hdr_isempty := None;
     body := "" |}.

(** [#decrement(rid, gid)] *)
Definition decrement (rid : ReqID) (gid : string) : M unit :=
  fun st =>
    effect (ToGateway gid (close_request rid gid))
      {| pool := JSMap.delete (pool st) rid; neighbors := neighbors st;
         sockets := sockets st; next_socket := next_socket st;
         trace := trace st |}.

(** A method of a [DOG.Socket], called by application code. *)
Definition sock_call (c : SockCall) : M unit :=
  match c with
  | CallSend s data => effect (Sent (sock_server s) data)
  | CallClose s => effect (Closed (sock_server s))
  | CallBroadcast s msg self => broadcast (sock_gid s) (sock_uid s) msg self
  | CallWhisper s target msg => whisper (sock_gid s) (sock_uid s) target msg
  | CallEmit s msg self => emit (sock_uid s) msg self
  end.

Fixpoint run_script (sc : Script) : M unit :=
  match sc with
  | Done => ret tt
  | Fail v => throw v
  | Call c k => fun st => let '(r, st') := sock_call c st in run_script (k r) st'
  end.

(** Calling one of the application's hooks on a socket. *)
Definition hook (h : HookName) (s : Socket) (sc : Script) : M unit :=
  effect (Entered h s) ;; run_script sc.

(** The [closer] listener that [connect] attaches for both the [close] and
    the [error] event of the server socket. *)
Definition closer (s : Socket) (evt : EventType) : M unit :=
  try_finally
    (match evt, onerror app with
     | EvError, Some h => hook OnError s (h s)
     | _, _ =>
         match onclose app with
         | Some h => hook OnClose s (h s)
         | None => ret tt
         end
     end)
    (decrement (sock_uid s) (sock_gid s) ;;
     effect (Closed (sock_server s))).

(** [connect(req)] *)
Definition connect (req : Request) : M Response :=
  if negb (method req =? "GET")%string then ret (abort 405 None)
  else if differs (hdr_upgrade req) "websocket" then ret (abort 426 None)
  else if negb (key_ok (trim (or_default (hdr_ws_key req) ""))) then ret (abort 400 None)
  else if differs (hdr_ws_version req) "13" then ret (abort 400 None)
  else
    match validate req (Some uid) with
    | Throw err => ret (abort 400 (Some (message err)))
    | Ok ids =>
        fun st =>
          let client := next_socket st in
          let server := S client in
          let s := {| sock_uid := rid ids; sock_gid := gid ids;
                      sock_server := server |} in
          (effect (Accepted server) ;;
           match onopen app with
           | Some h => hook OnOpen s (h s)
           | None => ret tt
           end ;;
           fun st' =>
             (Ok {| status := 101; payload := None; webSocket := Some client |},
              {| pool := JSMap.set (pool st') (rid ids)
                           {| gateway := gid ids; socket := server |};
                 neighbors := neighbors st'; sockets := sockets st';
                 next_socket := next_socket st'; trace := trace st' |}))
            {| pool := pool st; neighbors := neighbors st;
               sockets := sockets st ++ [s];
               next_socket := S server; trace := trace st |}
    end.

(** Running the application's [receive]. *)
Fixpoint run_handler (h : Handler) : M Response :=
  match h with
  | Return r => ret r
  | Raise v => throw v
  | Connect req k => fun st => let '(r, st') := connect req st in run_handler (k r) st'
  | Do c k => fun st => let '(r, st') := sock_call c st in run_handler (k r) st'
  end.

(** Whether the path is one of the reserved ones [fetch] answers itself. *)
Definition is_control (req : Request) : bool :=
  (pathname req =? NEIGHBOR ROUTES)%string
  || (pathname req =? BROADCAST ROUTES)%string
  || (pathname req =? WHISPER ROUTES)%string.

(** The [catch] of the two relay branches of [fetch]. *)
Definition relay_failed (fallback : string) (v : Thrown) : M Response :=
  msg <- stack_of v ;;
  ret (abort 400 (Some (or_default msg fallback))).

(** The last statement of [fetch]:
    [try { return res = await this.receive(request) }
     catch (err) { ...; return res = utils.abort(400, ...) }
     finally { if (res!.status !== 101) await this.#decrement(rid, gid) }].
    [r] is how [receive] completed.  If the [catch] throws, [res] is still
    unassigned when the [finally] reads its status, and that read throws. *)
Definition answer (ids : Ids) (r : result Thrown Response) : M Response :=
  fun st =>
    let '(caught, st1) :=
      match r with
      | Ok res => (Ok res, st)
      | Throw v =>
          (stack <- stack_of v ;;
           ret (abort 400 (Some (or_default stack "Error in `receive` method")))) st
      end in
    match caught with
    | Ok res =>
        if negb (status res =? 101)
        then (decrement (rid ids) (gid ids) ;; ret res) st1
        else (Ok res, st1)
    | Throw _ => (Throw (Raised (nullish_read "status")), st1)
    end.

(** [fetch(input, init)] *)
Definition fetch (req : Request) : M Response :=
  match validate req (Some uid) with
  | Throw err => ret (abort 400 (Some (message err)))
  | Ok ids =>
      if (pathname req =? NEIGHBOR ROUTES)%string then
        fun st =>
          (Ok response_empty,
           {| pool := pool st; neighbors := JSSet.add (neighbors st) (rid ids);
              sockets := sockets st; next_socket := next_socket st;
              trace := trace st |})
      else if (pathname req =? BROADCAST ROUTES)%string then
        try_catch
          (data <- text req ;;
           emit (rid ids) (Text data) false ;;
           ret response_empty)
          (relay_failed "Error parsing broadcast message")
      else if (pathname req =? WHISPER ROUTES)%string then
        try_catch
          (match js_or (tid ids) None with
           | None => throw (Raised (new_Error "Missing: Target ID"))
           | Some t =>
               fun st =>
                 match JSMap.get (pool st) t with
                 | Some state => (data <- text req ;;
                                  effect (Sent (socket state) data) ;;
                                  ret response_empty) st
                 | None => (Ok response_empty, st)
                 end
           end)
          (relay_failed "Error parsing whisper message")
      else
        fun st =>
          let '(r, st') := run_handler (receive app req) st in
          answer ids r st'
  end.

(** *** Listener dispatch: events the runtime delivers to a server socket *)
Definition listener (server : SocketId) (st : State) : option Socket :=
  find (fun s => (sock_server s =? server)%nat) (sockets st).

Definition on_event (server : SocketId) (evt : EventType) : M unit :=
  fun st =>
    match listener server st with
    | Some s => closer s evt st
    | None => (Ok tt, st)
    end.

(** The [message] listener is attached only when [onmessage] is defined; it
    calls the hook and neither awaits nor guards it. *)
Definition on_message (server : SocketId) (data : string) : M unit :=
  fun st =>
    match onmessage app, listener server st with
    | Some h, Some s => hook OnMessage s (h s data) st
    | _, _ => (Ok tt, st)
    end.

(** Everything that can enter a shard. *)
Inductive Op :=
| OpFetch (req : Request)
| OpEvent (server : SocketId) (evt : EventType)
| OpMessage (server : SocketId) (data : string).

Definition step (op : Op) (st : State) : State :=
  match op with
  | OpFetch req => snd (fetch req st)
  | OpEvent server evt => snd (on_event server evt st)
  | OpMessage server data => snd (on_message server data st)
  end.

Definition run (ops : list Op) (st : State) : State :=
  fold_left (fun st op => step op st) ops st.



(** A request that is the close notice of this shard for some client. *)
Definition is_close_notice (req : Request) : Prop :=
  exists rid gid, req = close_request rid gid.

(** The state once the decrement for client [rid] of gateway [gid] has run:
    the pool entry is gone and the call to the gateway is on the trace. *)
Definition decremented (rid : ReqID) (gid : string) (st : State) : State :=
  {| pool := JSMap.delete (pool st) rid; neighbors := neighbors st;
     sockets := sockets st; next_socket := next_socket st;
     trace := trace st ++ [ToGateway gid (close_request rid gid)] |}.

End Params.
End Shard.

(** ** Concrete parameters for the examples *)
Module Sample.

(** Modelled from the spec: [utils.validate] of [internal/utils], which is not
    among the sources.  The routing identifiers must be present, and when the
    caller names itself the request must be addressed to it.  The client id
    falls back to the neighbour id, which is how an introduction names its
    sender ([Gateway.#introduce] sets no client id, and [Shard.fetch] notes
    that [rid] is then the neighbour id). *)
Definition validate (req : Request) (expected : option string) : result Error Ids :=
  match hdr_shardid req with
  | None => Throw (new_Error "Missing: Shard ID")
  | Some sid =>
      if match expected with
         | Some e => truthy e && negb (sid =? e)%string
         | None => false
         end
      then Throw (new_Error "Mismatch: Shard ID")
      else
        match hdr_gatewayid req with
        | None => Throw (new_Error "Missing: Gateway ID")
        | Some gid =>
            match js_or (hdr_clientid req) (hdr_neighborid req) with
            | None => Throw (new_Error "Missing: Request ID")
            | Some rid =>
                Ok {| rid := rid; sid := sid; gid := gid; tid := hdr_targetid req |}
            end
        end
  end.

(** Sample values for the constants of [internal/routes], pairwise distinct. *)
Definition ROUTES : Routes :=
  {| CLOSE := "/~/close"; NEIGHBOR := "/~/neighbor";
     BROADCAST := "/~/broadcast"; WHISPER := "/~/whisper" |}.

(** HTTP whitespace: tab, line feed, carriage return, space. *)
Definition is_http_space (c : ascii) : bool :=
  let n := N_of_ascii c in
  ((n =? 9) || (n =? 10) || (n =? 13) || (n =? 32))%N.

Fixpoint strip_start (l : list ascii) : list ascii :=
  match l with
  | c :: rest => if is_http_space c then strip_start rest else l
  | [] => []
  end.

(** NUL, line feed and carriage return, which no header value may hold. *)
Definition is_forbidden (c : ascii) : bool :=
  let n := N_of_ascii c in
  ((n =? 0) || (n =? 10) || (n =? 13))%N.

(** [Headers.set] as the Fetch standard describes it, on values whose code
    points are below 256: HTTP whitespace is stripped from both ends, and
    what is left is stored unless a forbidden character is in it. *)
Definition header_value (v : string) : result Error string :=
  let l := rev (strip_start (rev (strip_start (list_ascii_of_string v)))) in
  if existsb is_forbidden l
  then Throw {| message := "Invalid header value";
                stack := Some "TypeError: Invalid header value" |}
  else Ok (string_of_list_ascii l).

(** The limit of scenario A, and a limit that is no integer. *)
Definition two : number := whole 2.

(** An outside where every call completes. *)
Definition reliable (done calls : list Shard.Effect) : option Error := None.


(** An outside where every socket has gone away. *)
Definition sockets_gone (done calls : list Shard.Effect) : option Error :=
  if existsb (fun e => match e with Shard.Sent _ _ => true | _ => false end) calls
  then Some (new_Error "WebSocket is closed.")
  else None.

(** An [identify] that reads the client id from a header the client sent. *)
Definition identify (req : Request) : ReqID := or_default (hdr_clientid req) "anonymous".

(** A client request for [path] from client [c]. *)
Definition client_request (c path : string) : Request :=
  {| method := "GET"; pathname := path;
     hdr_upgrade := None; hdr_ws_key := None; hdr_ws_version := None;
     hdr_gatewayid := None; hdr_clientid := Some c; hdr_shardid := None;
     hdr_neighborid := None; hdr_targetid := None; hdr_isempty := None;
     body := "" |}.

(** A close notice from shard [s] to gateway [g] for client [c]. *)
Definition close_notice (g s c : string) (isempty : option string) : Request :=
  {| method := "GET"; pathname := CLOSE ROUTES;
     hdr_upgrade := None; hdr_ws_key := None; hdr_ws_version := None;
     hdr_gatewayid := Some g; hdr_clientid := Some c; hdr_shardid := Some s;
     hdr_neighborid := None; hdr_targetid := None; hdr_isempty := isempty;
     body := "" |}.

(** Scenario A of the spec, limit 2: clients a, b, c route in turn.  The
    second component of each pair is the id a new shard would get. *)
Definition two_clients : list (Request * ShardID) :=
  [(client_request "a" "/", "S1"); (client_request "b" "/", "S2")].

Definition three_clients : list (Request * ShardID) :=
  two_clients ++ [(client_request "c" "/", "S2")].

Definition after_two : Gateway.State :=
  Gateway.run_routes "G" two identify header_value two_clients Gateway.init.

Definition after_three : Gateway.State :=
  Gateway.run_routes "G" two identify header_value three_clients Gateway.init.


(** A well-formed upgrade request of client [c], as the gateway "G" forwards
    it to shard "S1" (the key is the sample nonce of RFC 6455). *)
Definition upgrade_request (c : string) : Request :=
  {| method := "GET"; pathname := "/ws";
     hdr_upgrade := Some "websocket";
     hdr_ws_key := Some "dGhlIHNhbXBsZSBub25jZQ==";
     hdr_ws_version := Some "13";
     hdr_gatewayid := Some "G"; hdr_clientid := Some c; hdr_shardid := Some "S1";
     hdr_neighborid := None; hdr_targetid := None; hdr_isempty := None;
     body := "" |}.


(** The introduction of neighbour [n] that [Gateway.#introduce] sends to "S1". *)
Definition introduction (n : string) : Request :=
  {| method := "GET"; pathname := NEIGHBOR ROUTES;
     hdr_upgrade := None; hdr_ws_key := None; hdr_ws_version := None;
     hdr_gatewayid := Some "G"; hdr_clientid := None; hdr_shardid := Some "S1";
     hdr_neighborid := Some n; hdr_targetid := None; hdr_isempty := None;
     body := "" |}.

(** An application that upgrades on "/ws", greets otherwise, and has no hooks. *)
Definition app : Shard.App :=
  {| Shard.receive := fun req =>
       if (pathname req =? "/ws")%string
       then Shard.return_connect req
       else Shard.Return (response_text "hello");
     Shard.onopen := None; Shard.onmessage := None;
     Shard.onclose := None; Shard.onerror := None |}.

(** A hook body that throws at once. *)
Definition failing : Shard.Script := Shard.Fail (Raised (new_Error "boom")).

Definition app_onmessage_throws : Shard.App :=
  {| Shard.receive := Shard.receive app;
     Shard.onopen := None; Shard.onmessage := Some (fun _ _ => failing);
     Shard.onclose := None; Shard.onerror := None |}.




(** Shard "S1" after client a has upgraded, under application [a]. *)
Definition connected (a : Shard.App) : Shard.State :=
  snd (Shard.fetch "S1" validate ROUTES a reliable header_value
         (upgrade_request "a") Shard.init).

(** Shard "S1" after client a has upgraded and shard "S2" was introduced. *)
Definition introduced : Shard.State :=
  snd (Shard.fetch "S1" validate ROUTES app reliable header_value
         (introduction "S2") (connected app)).

(** One connection, then an error event and a close event on its socket. *)
Definition error_then_close : list Shard.Op :=
  [Shard.OpFetch (upgrade_request "a");
   Shard.OpEvent 1%nat Shard.EvError;
   Shard.OpEvent 1%nat Shard.EvClose].

(** An upgrade attempt of client a with the given method, handshake headers
    and addressee. *)
Definition handshake (m : string) (up key ver : option string) (shard : string)
  : Request :=
  {| method := m; pathname := "/ws";
     hdr_upgrade := up; hdr_ws_key := key; hdr_ws_version := ver;
     hdr_gatewayid := Some "G"; hdr_clientid := Some "a"; hdr_shardid := Some shard;
     hdr_neighborid := None; hdr_targetid := None; hdr_isempty := None;
     body := "" |}.

Definition nonce : option string := Some "dGhlIHNhbXBsZSBub25jZQ==".

(** The broadcast of client b on shard "S2", as [#dispatch] relays it to "S1". *)
Definition relayed_broadcast : Request :=
  {| method := "POST"; pathname := BROADCAST ROUTES;
     hdr_upgrade := None; hdr_ws_key := None; hdr_ws_version := None;
     hdr_gatewayid := Some "G"; hdr_clientid := Some "b"; hdr_shardid := Some "S1";
     hdr_neighborid := Some "S2"; hdr_targetid := None; hdr_isempty := None;
     body := "hi" |}.


(** The gateway after client a alone has routed. *)
Definition after_one : Gateway.State :=
  Gateway.run_routes "G" two identify header_value
    [(client_request "a" "/", "S1")] Gateway.init.

(** The whisper of client b on shard "S2" to client a, as [#dispatch] relays
    it to "S1". *)
Definition relayed_whisper : Request :=
  {| method := "POST"; pathname := WHISPER ROUTES;
     hdr_upgrade := None; hdr_ws_key := None; hdr_ws_version := None;
     hdr_gatewayid := Some "G"; hdr_clientid := Some "b"; hdr_shardid := Some "S1";
     hdr_neighborid := Some "S2"; hdr_targetid := Some "a"; hdr_isempty := None;
     body := "psst" |}.

(** Shard "S2" knowing "S1" as its neighbour, with no connection of its own. *)
Definition peer_state : Shard.State :=
  {| Shard.pool := []; Shard.neighbors := ["S1"]; Shard.sockets := [];
     Shard.next_socket := 0%nat; Shard.trace := [] |}.


(** The socket of client a on shard "S1". *)
Definition socket_a : Shard.Socket :=
  {| Shard.sock_uid := "a"; Shard.sock_gid := "G"; Shard.sock_server := 1%nat |}.

(** A target id with a line feed in it, which no header can hold. *)
Definition two_lines : string := String "x" (String (ascii_of_nat 10) "y").

End Sample.

(** * Properties *)

(** ** Facts about the [Map] and [Set] models *)
Section JSMapFacts.
Context {V : Type}.
Implicit Types (m : JSMap.t V) (k x : string) (v : V).
Import JSMap.

Lemma map_get_set_same m k v : get (set m k v) k = Some v.
Proof.
  induction m as [|[k' v'] m IH]; simpl.
  - now rewrite String.eqb_refl.
  - destruct (k' =? k)%string eqn:E; simpl; rewrite E; auto.
Qed.

Lemma map_get_set_other m k k' v : k' <> k -> get (set m k v) k' = get m k'.
Proof.
  intros Hne. induction m as [|[k0 v0] m IH]; simpl.
  - destruct (k =? k')%string eqn:E; auto.
    apply String.eqb_eq in E. congruence.
  - destruct (k0 =? k)%string eqn:E; simpl.
    + apply String.eqb_eq in E. subst k0.
      destruct (k =? k')%string eqn:E'; auto.
      apply String.eqb_eq in E'. congruence.
    + now rewrite IH.
Qed.

Lemma map_get_set m k k' v :
  get (set m k v) k' = if (k =? k')%string then Some v else get m k'.
Proof.
  destruct (k =? k')%string eqn:E.
  - apply String.eqb_eq in E. subst. apply map_get_set_same.
  - apply String.eqb_neq in E. apply map_get_set_other. congruence.
Qed.

Lemma map_keys_set_in m k v x : In x (keys (set m k v)) <-> x = k \/ In x (keys m).
Proof.
  induction m as [|[k' v'] m IH]; simpl.
  - intuition.
  - destruct (k' =? k)%string eqn:E; simpl.
    + apply String.eqb_eq in E. subst. intuition.
    + rewrite IH. intuition.
Qed.

Lemma map_wf_set m k v : wf m -> wf (set m k v).
Proof.
  unfold wf. induction m as [|[k' v'] m IH]; simpl; intros Hm.
  - constructor; [intros []|constructor].
  - inversion Hm as [|? ? Hnotin Hrest]; subst.
    destruct (k' =? k)%string eqn:E; simpl.
    + now constructor.
    + constructor; auto.
      change (~ In k' (keys (set m k v))). rewrite map_keys_set_in.
      apply String.eqb_neq in E. intuition.
Qed.

Lemma map_in_get m k v : wf m -> In (k, v) m -> get m k = Some v.
Proof.
  unfold wf. induction m as [|[k' v'] m IH]; simpl; intros Hm Hin; [easy|].
  inversion Hm as [|? ? Hnotin Hrest]; subst.
  destruct Hin as [Heq|Hin].
  - inversion Heq. subst. now rewrite String.eqb_refl.
  - destruct (k' =? k)%string eqn:E; auto.
    apply String.eqb_eq in E. subst k'.
    exfalso. apply Hnotin. change (In (fst (k, v)) (map fst m)).
    now apply in_map.
Qed.

Lemma map_get_delete_same m k : get (delete m k) k = None.
Proof.
  induction m as [|[k' v'] m IH]; simpl; auto.
  destruct (k' =? k)%string eqn:E; simpl; auto.
  now rewrite E.
Qed.

Lemma map_get_delete_other m k k' : k' <> k -> get (delete m k) k' = get m k'.
Proof.
  intros Hne. induction m as [|[k0 v0] m IH]; simpl; auto.
  destruct (k0 =? k)%string eqn:E; simpl.
  - apply String.eqb_eq in E. subst k0.
    destruct (k =? k')%string eqn:E'; auto.
    apply String.eqb_eq in E'. congruence.
  - now rewrite IH.
Qed.

End JSMapFacts.

Section JSSetFacts.
Implicit Types (s : JSSet.t) (x y : string).
Import JSSet.

Lemma set_has_in s x : has s x = true <-> In x s.
Proof.
  unfold has. rewrite List.existsb_exists. split.
  - intros [y [Hy E]]. apply String.eqb_eq in E. now subst.
  - intros H. exists x. split; auto. apply String.eqb_refl.
Qed.

Lemma set_add_present s x : In x s -> add s x = s.
Proof. intros H. unfold add. apply set_has_in in H. now rewrite H. Qed.

Lemma set_add_keeps s x y : In y s -> In y (add s x).
Proof.
  intros H. unfold add. destruct (has s x); auto.
  apply in_or_app. now left.
Qed.

End JSSetFacts.

(** ** Comparing a count with the limit *)
Section NumberFacts.

Lemma below_finite c q : below c (Finite q) = true <-> (inject_Z c < q)%Q.
Proof.
  simpl. rewrite negb_true_iff. split.
  - intros H. apply Qnot_le_lt. intros Hle.
    apply Qle_bool_iff in Hle. congruence.
  - intros H. destruct (Qle_bool q (inject_Z c)) eqn:E; [|reflexivity].
    apply Qle_bool_iff in E. exfalso. exact (Qlt_not_le _ _ H E).
Qed.

Lemma fits_finite c q : fits (Finite q) c = true <-> (inject_Z c <= q)%Q.
Proof. apply Qle_bool_iff. Qed.

Lemma below_mono c c' x : c <= c' -> below c' x = true -> below c x = true.
Proof.
  intros Hle. destruct x as [q| | |]; auto.
  rewrite !below_finite. intros H.
  apply Qle_lt_trans with (inject_Z c'); [|exact H].
  now rewrite <- Zle_Qle.
Qed.

Lemma below_fits c x : below c x = true -> fits x c = true.
Proof.
  destruct x as [q| | |]; auto.
  rewrite below_finite, fits_finite. apply Qlt_le_weak.
Qed.

Lemma fits_below c x : fits x (c + 1) = true -> below c x = true.
Proof.
  destruct x as [q| | |]; auto.
  rewrite below_finite, fits_finite. intros H.
  apply Qlt_le_trans with (inject_Z (c + 1)); [|exact H].
  rewrite <- Zlt_Qlt. lia.
Qed.

(** A count under the limit is smaller than one that is not. *)
Lemma below_least c c' x : below c x = true -> below c' x = false -> c < c'.
Proof.
  intros Hc Hc'. destruct (Z.lt_ge_cases c c') as [H|H]; [exact H|].
  rewrite (below_mono c' c x) in Hc'; [discriminate|lia|exact Hc].
Qed.

Lemma below_whole c L : below c (whole L) = (c <? L).
Proof.
  destruct (c <? L) eqn:E.
  - apply below_finite. rewrite <- Zlt_Qlt. now apply Z.ltb_lt.
  - destruct (below c (whole L)) eqn:B; [|reflexivity].
    apply below_finite in B. rewrite <- Zlt_Qlt in B.
    apply Z.ltb_lt in B. congruence.
Qed.

Lemma fits_whole c L : fits (whole L) c = (c <=? L).
Proof.
  destruct (c <=? L) eqn:E.
  - apply fits_finite. rewrite <- Zle_Qle. now apply Z.leb_le.
  - destruct (fits (whole L) c) eqn:B; [|reflexivity].
    apply fits_finite in B. rewrite <- Zle_Qle in B.
    apply Z.leb_le in B. congruence.
Qed.

End NumberFacts.

(** ** The Gateway *)
Section GatewayFacts.
Import Gateway.
Variable uid : string.
Variable limit : number.
Variable identify : Request -> ReqID.
Variable validate : Request -> option string -> result Error Ids.
Variable ROUTES : Routes.
Variable header_value : string -> result Error string.

Local Abbreviation scan := (Gateway.scan limit).
Local Abbreviation sort := (Gateway.sort limit).
Local Abbreviation close := (Gateway.close uid limit validate).
Local Abbreviation assign := (Gateway.assign limit).
Local Abbreviation route := (Gateway.route uid limit identify header_value).
Local Abbreviation fetch := (Gateway.fetch uid limit identify validate ROUTES header_value).
Local Abbreviation run_routes := (Gateway.run_routes uid limit identify header_value).
Local Abbreviation reachable :=
  (Gateway.reachable uid limit identify validate ROUTES header_value).
Local Abbreviation under := (Gateway.under limit).
Local Abbreviation sorted_tuples := Gateway.sorted_tuples.

Lemma insert_tuple_in t l x : In x (insert_tuple t l) <-> x = t \/ In x l.
Proof.
  clear. induction l as [|h l IH]; simpl.
  - intuition.
  - destruct (snd t <=? snd h); simpl; [intuition|].
    rewrite IH. intuition.
Qed.

Lemma sort_tuples_in l x : In x (sort_tuples l) <-> In x l.
Proof.
  clear. induction l as [|h l IH]; simpl; [tauto|].
  rewrite insert_tuple_in, IH. intuition.
Qed.

Lemma sorted_tuples_in g x : In x (sorted_tuples g) <-> In x (kids g).
Proof.
  clear. unfold sorted_tuples. destruct (1 <? _)%nat; [apply sort_tuples_in|tauto].
Qed.

Lemma scan_filter tuples bucket ids :
  scan tuples bucket ids =
  (match bucket with
   | Some _ => bucket
   | None => hd_error (filter under tuples)
   end,
   ids ++ map fst (filter under tuples)).
Proof.
  revert bucket ids.
  induction tuples as [|t tuples IH]; intros bucket ids; simpl.
  - rewrite app_nil_r. now destruct bucket.
  - change (under t) with (below (snd t) limit).
    destruct (below (snd t) limit); rewrite IH; simpl.
    + rewrite <- app_assoc. now destruct bucket.
    + reflexivity.
Qed.

Lemma sort_filter g :
  sort g =
  (hd_error (filter under (sorted_tuples g)),
   {| mapping := mapping g; kids := kids g;
      sorted := map fst (filter under (sorted_tuples g));
      current := current g; calls := calls g |}).
Proof.
  unfold Gateway.sort. fold (sorted_tuples g). now rewrite scan_filter.
Qed.

Lemma kept_under g s c :
  In (s, c) (filter under (sorted_tuples g)) ->
  JSMap.wf (kids g) -> JSMap.get (kids g) s = Some c /\ below c limit = true.
Proof.
  intros Hin Hwf. apply filter_In in Hin. destruct Hin as [Hin Hc].
  apply sorted_tuples_in in Hin. split.
  - now apply map_in_get.
  - exact Hc.
Qed.

(** Right after [#sort], every listed shard is tracked and under the limit. *)
Lemma sort_listed g x :
  JSMap.wf (kids g) -> In x (sorted (snd (sort g))) ->
  exists c, JSMap.get (kids g) x = Some c /\ below c limit = true.
Proof.
  intros Hwf. rewrite sort_filter. simpl. rewrite in_map_iff.
  intros [[s c] [Hs Hin]]. simpl in Hs. subst s.
  exists c. now apply kept_under.
Qed.

Lemma sort_bucket g s c :
  JSMap.wf (kids g) -> fst (sort g) = Some (s, c) ->
  JSMap.get (kids g) s = Some c /\ below c limit = true.
Proof.
  intros Hwf. rewrite sort_filter. simpl. intros Hhd.
  apply kept_under; auto.
  destruct (filter under (sorted_tuples g)) as [|t l]; simpl in Hhd; [discriminate|].
  inversion Hhd. now left.
Qed.

Lemma sort_no_bucket g : fst (sort g) = None -> sorted (snd (sort g)) = [].
Proof.
  rewrite sort_filter. simpl.
  destruct (filter under (sorted_tuples g)); simpl; [auto|discriminate].
Qed.

(** The three ways [fetch] picks a shard, and what each guarantees. *)
Lemma assign_cases rid fresh g :
  JSMap.wf (kids g) ->
  match assign rid fresh g with
  | (FastPath, s, a, g1) =>
      g1 = g /\
      exists c, JSMap.get (kids g) s = Some c /\ a = c + 1 /\ fits limit a = true
  | (SortedPath, s, a, g1) =>
      g1 = snd (sort g) /\
      exists c, JSMap.get (kids g) s = Some c /\ a = c + 1 /\ below c limit = true
  | (FreshPath, s, a, g1) =>
      s = fresh /\ a = 1 /\ kids g1 = JSMap.set (kids g) fresh 1 /\
      sorted g1 = [fresh] /\ mapping g1 = mapping g
  end.
Proof.
  clear. intros Hwf.
  assert (Hslow :
    match Gateway.assign_slow limit fresh g with
    | (FastPath, _, _, _) => False
    | (SortedPath, s, a, g1) =>
        g1 = snd (sort g) /\
        exists c, JSMap.get (kids g) s = Some c /\ a = c + 1 /\ below c limit = true
    | (FreshPath, s, a, g1) =>
        s = fresh /\ a = 1 /\ kids g1 = JSMap.set (kids g) fresh 1 /\
        sorted g1 = [fresh] /\ mapping g1 = mapping g
    end).
  { unfold Gateway.assign_slow.
    destruct (0 <? List.length (sorted g))%nat eqn:Elen.
    - destruct (sort g) as [bucket g1] eqn:Es.
      assert (Hb : fst (sort g) = bucket) by now rewrite Es.
      assert (Hg : snd (sort g) = g1) by now rewrite Es.
      destruct bucket as [[s c]|].
      + split; [auto|]. exists c.
        destruct (sort_bucket g s c Hwf Hb). auto.
      + pose proof (sort_no_bucket g Hb) as Hnil. rewrite Hg in Hnil.
        rewrite sort_filter in Hg. subst g1. simpl in *.
        rewrite Hnil. auto.
    - destruct (sorted g) eqn:Esorted; simpl in Elen; [|discriminate].
      simpl. rewrite Esorted. auto. }
  unfold Gateway.assign. cbv zeta.
  set (slow := Gateway.assign_slow limit fresh g) in *.
  destruct (js_or _ _) as [s|]; [|destruct slow as [[[[] ?] ?] ?]; tauto].
  destruct (JSMap.get (kids g) s) as [a|] eqn:Eget;
    [|destruct slow as [[[[] ?] ?] ?]; tauto].
  destruct (fits limit (a + 1)) eqn:Elim;
    [|destruct slow as [[[[] ?] ?] ?]; tauto].
  split; [reflexivity|]. exists a. repeat split; auto.
Qed.

Lemma sort_kids g : kids (snd (sort g)) = kids g.
Proof. now rewrite sort_filter. Qed.

(** One Route call changes a recorded count in one of two ways only, and it
    increments only a count that is under the limit. *)
Lemma route_count req fresh g k c' :
  JSMap.wf (kids g) ->
  JSMap.get (kids (snd (route req fresh g))) k = Some c' ->
  JSMap.get (kids g) k = Some c' \/
  (exists c, JSMap.get (kids g) k = Some c /\ c' = c + 1 /\ below c limit = true) \/
  (k = fresh /\ c' = 1).
Proof.
  intros Hwf. unfold Gateway.route.
  pose proof (assign_cases (identify req) fresh g Hwf) as Hc.
  destruct (assign (identify req) fresh g) as [[[p s] a] g1].
  simpl. rewrite map_get_set.
  destruct (s =? k)%string eqn:Esk.
  - apply String.eqb_eq in Esk. subst k. intros Heq. inversion Heq. subst c'.
    destruct p.
    + destruct Hc as [_ [c [Hget [Ha Hle]]]]. right. left.
      exists c. repeat split; auto. apply fits_below. now rewrite <- Ha.
    + destruct Hc as [_ [c [Hget [Ha Hlt]]]]. right. left. eauto.
    + destruct Hc as [Hs [Ha _]]. right. right. auto.
  - apply String.eqb_neq in Esk. intros Hget. left.
    destruct p.
    + destruct Hc as [Hg _]. now subst g1.
    + destruct Hc as [Hg _]. subst g1. now rewrite sort_kids in Hget.
    + destruct Hc as [Hs [_ [Hk _]]]. subst s. rewrite Hk in Hget.
      rewrite map_get_set_other in Hget; auto.
Qed.

Lemma route_wf req fresh g :
  JSMap.wf (kids g) -> JSMap.wf (kids (snd (route req fresh g))).
Proof.
  intros Hwf. unfold Gateway.route.
  pose proof (assign_cases (identify req) fresh g Hwf) as Hc.
  destruct (assign (identify req) fresh g) as [[[p s] a] g1].
  simpl. apply map_wf_set. destruct p.
  - destruct Hc as [Hg _]. now subst g1.
  - destruct Hc as [Hg _]. subst g1. now rewrite sort_kids.
  - destruct Hc as [_ [_ [Hk _]]]. rewrite Hk. now apply map_wf_set.
Qed.




(** *** HandleClose *)

Lemma close_rejects_gateway req ids g :
  validate req None = Ok ids -> gid ids <> uid ->
  close req g = (Throw (new_Error "Mismatch: Gateway ID"), g).
Proof.
  intros Hv Hne. unfold Gateway.close. rewrite Hv.
  apply String.eqb_neq in Hne. now rewrite Hne.
Qed.

Lemma close_rejects_shard req ids g :
  validate req None = Ok ids -> gid ids = uid ->
  JSMap.get (kids g) (sid ids) = None ->
  close req g = (Throw (new_Error "Unknown: Shard ID"), g).
Proof.
  intros Hv Heq Hget. unfold Gateway.close. rewrite Hv, Hget.
  apply String.eqb_eq in Heq. now rewrite Heq.
Qed.

(** A successful close, field by field. *)
Lemma close_ok req ids alive g :
  validate req None = Ok ids -> gid ids = uid ->
  JSMap.get (kids g) (sid ids) = Some alive ->
  exists g',
    close req g = (Ok (response_text "OK"), g') /\
    kids g' = JSMap.set (kids g) (sid ids) (Z.max 0 (alive - 1)) /\
    mapping g' = (if is_empty_flag req
                  then JSMap.delete (mapping g) (rid ids)
                  else mapping g) /\
    current g' = hd_error (sorted g') /\
    calls g' = calls g /\
    (JSMap.wf (kids g) ->
     forall x, In x (sorted g') ->
               exists c, JSMap.get (kids g') x = Some c /\ below c limit = true).
Proof.
  intros Hv Heq Hget. unfold Gateway.close. rewrite Hv, Hget.
  apply String.eqb_eq in Heq. rewrite Heq. simpl.
  match goal with |- context [sort ?g1] => set (g1' := g1) end.
  pose proof (sort_listed g1') as Hlisted.
  rewrite (sort_filter g1') in *. simpl in *.
  eexists. split; [reflexivity|]. simpl. repeat split; auto.
  - now destruct (filter under (sorted_tuples g1')) as [|[s c] l].
  - intros Hwf x Hin. apply Hlisted; auto. now apply map_wf_set.
Qed.

(** [#close] either throws and leaves the state alone, or succeeds. *)
Lemma close_cases req g :
  (exists e, close req g = (Throw e, g)) \/
  (exists ids alive,
      validate req None = Ok ids /\ gid ids = uid /\
      JSMap.get (kids g) (sid ids) = Some alive).
Proof.
  destruct (validate req None) as [ids|e] eqn:Hv.
  - destruct (String.eqb_spec (gid ids) uid) as [Heq|Hne].
    + destruct (JSMap.get (kids g) (sid ids)) as [alive|] eqn:Hget.
      * right. now exists ids, alive.
      * left. eexists. now apply (close_rejects_shard req ids).
    + left. eexists. now apply (close_rejects_gateway req ids).
  - left. exists e. unfold Gateway.close. now rewrite Hv.
Qed.

(** C3.  HandleClose throws "Mismatch: Gateway ID" when the carried gateway
    id is not the router's own, and "Unknown: Shard ID" when the shard has no
    entry in the availability index; in both cases the whole state (index,
    sticky mapping, sorted list, last-used shard) is the one it started
    from.  Otherwise it acknowledges, writes the count minus one floored at
    zero for the shard, and deletes the client's sticky mapping exactly when
    the is-empty header is "1". *)
Theorem close_checks_then_decrements req ids g :
  validate req None = Ok ids ->
  (gid ids <> uid ->
   close req g = (Throw (new_Error "Mismatch: Gateway ID"), g)) /\
  (gid ids = uid -> JSMap.get (kids g) (sid ids) = None ->
   close req g = (Throw (new_Error "Unknown: Shard ID"), g)) /\
  (gid ids = uid ->
   forall alive, JSMap.get (kids g) (sid ids) = Some alive ->
   exists g',
     close req g = (Ok (response_text "OK"), g') /\
     kids g' = JSMap.set (kids g) (sid ids) (Z.max 0 (alive - 1)) /\
     mapping g' = (if is_empty_flag req
                   then JSMap.delete (mapping g) (rid ids)
                   else mapping g)).
Proof.
  intros Hv. split; [|split].
  - intros Hne. now apply (close_rejects_gateway req ids).
  - intros Heq Hget. now apply (close_rejects_shard req ids).
  - intros Heq alive Hget.
    destruct (close_ok req ids alive g Hv Heq Hget) as [g' [Hc [Hk [Hm _]]]].
    exists g'. auto.
Qed.

(** C10.  A successful close whose is-empty header is "1" deletes the
    client's sticky mapping without looking at which shard it points to: if
    the client is mapped to [s1] and the notice comes from another tracked
    shard, the mapping is deleted all the same, and the count of [s1] is not
    touched. *)
Theorem close_forgets_client_of_other_shard req ids g s1 alive :
  validate req None = Ok ids ->
  gid ids = uid ->
  JSMap.get (mapping g) (rid ids) = Some s1 ->
  sid ids <> s1 ->
  JSMap.get (kids g) (sid ids) = Some alive ->
  hdr_isempty req = Some "1" ->
  fst (close req g) = Ok (response_text "OK") /\
  JSMap.get (mapping (snd (close req g))) (rid ids) = None /\
  JSMap.get (kids (snd (close req g))) s1 = JSMap.get (kids g) s1.
Proof.
  intros Hv Heq Hmap Hne Hget Hflag.
  destruct (close_ok req ids alive g Hv Heq Hget) as [g' [Hc [Hk [Hm _]]]].
  rewrite Hc. simpl. split; [reflexivity|].
  unfold Gateway.is_empty_flag in Hm. rewrite Hflag in Hm. simpl in Hm.
  rewrite Hm, Hk. split.
  - apply map_get_delete_same.
  - apply map_get_set_other. congruence.
Qed.

(** *** The tables between operations *)

Lemma get_set_tracked (m : JSMap.t LiveCount) k v x :
  (exists c, JSMap.get m x = Some c) -> exists c, JSMap.get (JSMap.set m k v) x = Some c.
Proof.
  intros [c Hc]. rewrite map_get_set. destruct (k =? x)%string; eauto.
Qed.

Lemma route_tables_ok L req fresh g :
  limit = whole L -> 1 <= L ->
  tables_ok L g -> tables_ok L (snd (route req fresh g)).
Proof.
  intros HL Hlim [Hwf [Hle Hin]]. split; [|split].
  - now apply route_wf.
  - intros k c' Hget. apply route_count in Hget; auto.
    destruct Hget as [Hsame|[[c [_ [Hinc Hc]]]|[_ Hone]]]; eauto; [|lia].
    rewrite HL, below_whole in Hc. apply Z.ltb_lt in Hc. lia.
  - unfold Gateway.route.
    pose proof (assign_cases (identify req) fresh g Hwf) as Hc.
    destruct (assign (identify req) fresh g) as [[[p s] a] g1].
    simpl. intros x Hx. destruct p.
    + destruct Hc as [Hg _]. subst g1. apply get_set_tracked. auto.
    + destruct Hc as [Hg _]. subst g1. apply get_set_tracked.
      rewrite sort_kids.
      destruct (sort_listed g x Hwf Hx) as [c [Hc _]]. eauto.
    + destruct Hc as [Hs [_ [_ [Hsorted _]]]]. rewrite Hsorted in Hx.
      destruct Hx as [Hx|[]]. subst x s. exists a. apply map_get_set_same.
Qed.

Lemma close_tables_ok L req g :
  1 <= L -> tables_ok L g -> tables_ok L (snd (close req g)).
Proof.
  intros Hlim Hok. destruct (close_cases req g) as [[e He]|[ids [alive [Hv [Heq Hget]]]]].
  - now rewrite He.
  - destruct Hok as [Hwf [Hle Hin]].
    destruct (close_ok req ids alive g Hv Heq Hget)
      as [g' [Hc [Hk [_ [_ [_ Hsorted]]]]]].
    rewrite Hc. simpl. split; [|split].
    + rewrite Hk. now apply map_wf_set.
    + intros k c. rewrite Hk, map_get_set.
      destruct (sid ids =? k)%string.
      * intros Heq'. inversion Heq'. apply Hle in Hget. lia.
      * apply Hle.
    + intros x Hx. destruct (Hsorted Hwf x Hx) as [c [Hc' _]]. eauto.
Qed.

Lemma fetch_tables_ok L req fresh g :
  limit = whole L -> 1 <= L ->
  tables_ok L g -> tables_ok L (snd (fetch req fresh g)).
Proof.
  intros HL Hlim Hok. unfold Gateway.fetch.
  destruct (pathname req =? CLOSE ROUTES)%string.
  - pose proof (close_tables_ok L req g Hlim Hok) as H.
    now destruct (close req g) as [[r|e] g'].
  - now apply route_tables_ok.
Qed.

Lemma reachable_tables_ok L g :
  limit = whole L -> 1 <= L -> reachable g -> tables_ok L g.
Proof.
  intros HL Hlim Hr. induction Hr as [|g req fresh Hr IH].
  - split; [constructor|]. split; [discriminate|intros x []].
  - now apply fetch_tables_ok.
Qed.

Lemma close_keeps_wf req g : JSMap.wf (kids g) -> JSMap.wf (kids (snd (close req g))).
Proof.
  intros Hwf.
  destruct (close_cases req g) as [[e He]|[ids [alive [Hv [Heq Hget]]]]].
  - now rewrite He.
  - destruct (close_ok req ids alive g Hv Heq Hget) as [g' [Hc [Hk _]]].
    rewrite Hc. simpl. rewrite Hk. now apply map_wf_set.
Qed.

Lemma fetch_keeps_wf req fresh g :
  JSMap.wf (kids g) -> JSMap.wf (kids (snd (fetch req fresh g))).
Proof.
  intros Hwf. unfold Gateway.fetch.
  destruct (pathname req =? CLOSE ROUTES)%string.
  - pose proof (close_keeps_wf req g Hwf) as H.
    now destruct (close req g) as [[r|e] g'].
  - now apply route_wf.
Qed.

Lemma reachable_wf g : reachable g -> JSMap.wf (kids g).
Proof.
  induction 1 as [|g req fresh Hr IH]; [constructor|].
  now apply fetch_keeps_wf.
Qed.

(** C5, as the code has it.  With a limit that is an integer [L] of at
    least 1, between operations every shard in the sorted list is tracked
    with a count that is at most [L]: a shard exactly at the limit may stay
    listed until the next re-sort.  Right after the re-sort of a successful
    close every listed shard is strictly under the limit, whatever number
    the limit is. *)
Theorem sorted_within_limit :
  (forall L, limit = whole L -> 1 <= L ->
     forall g, reachable g ->
     forall x, In x (sorted g) ->
               exists c, JSMap.get (kids g) x = Some c /\ c <= L) /\
  (forall g req r g', reachable g -> close req g = (Ok r, g') ->
     forall x, In x (sorted g') ->
               exists c, JSMap.get (kids g') x = Some c /\ below c limit = true).
Proof.
  split.
  - intros L HL Hlim g Hr x Hx.
    destruct (reachable_tables_ok L g HL Hlim Hr) as [_ [Hle Hin]].
    destruct (Hin x Hx) as [c Hc]. exists c. split; eauto.
  - intros g req r g' Hr Hclose x Hx.
    pose proof (reachable_wf g Hr) as Hwf.
    destruct (close_cases req g) as [[e He]|[ids [alive [Hv [Heq Hget]]]]].
    + rewrite He in Hclose. discriminate.
    + destruct (close_ok req ids alive g Hv Heq Hget)
        as [g'' [Hc [_ [_ [_ [_ Hsorted]]]]]].
      rewrite Hc in Hclose. inversion Hclose. subst g''.
      now apply Hsorted.
Qed.

End GatewayFacts.

(** *** The Gateway on scenario A (limit 2) *)

Lemma after_two_reachable :
  Gateway.reachable "G" Sample.two Sample.identify Sample.validate Sample.ROUTES
    Sample.header_value Sample.after_two.
Proof.
  change Sample.after_two with
    (snd (Gateway.fetch "G" Sample.two Sample.identify Sample.validate Sample.ROUTES
            Sample.header_value (Sample.client_request "b" "/") "S2"
            (snd (Gateway.fetch "G" Sample.two Sample.identify Sample.validate
                    Sample.ROUTES Sample.header_value
                    (Sample.client_request "a" "/") "S1" Gateway.init)))).
  do 2 apply Gateway.reach_fetch. apply Gateway.reach_init.
Defined.



(** A notice for another gateway, one for an unknown shard, and one that
    decrements S2 and forgets client c. *)
Lemma close_checks_then_decrements_witness :
  Gateway.close "G" Sample.two Sample.validate
    (Sample.close_notice "H" "S2" "c" (Some "1")) Sample.after_three
  = (Throw (new_Error "Mismatch: Gateway ID"), Sample.after_three) /\
  Gateway.close "G" Sample.two Sample.validate
    (Sample.close_notice "G" "S7" "c" (Some "1")) Sample.after_three
  = (Throw (new_Error "Unknown: Shard ID"), Sample.after_three) /\
  exists g',
    Gateway.close "G" Sample.two Sample.validate
      (Sample.close_notice "G" "S2" "c" (Some "1")) Sample.after_three
    = (Ok (response_text "OK"), g') /\
    Gateway.kids g' = [("S1", 2); ("S2", 0)] /\
    Gateway.mapping g' = [("a", "S1"); ("b", "S1")].
Proof.
  split; [|split].
  - refine (proj1 (close_checks_then_decrements "G" Sample.two Sample.validate
                     (Sample.close_notice "H" "S2" "c" (Some "1"))
                     (mkIds "c" "S2" "H" None) Sample.after_three eq_refl) _).
    discriminate.
  - exact (proj1 (proj2 (close_checks_then_decrements "G" Sample.two Sample.validate
                     (Sample.close_notice "G" "S7" "c" (Some "1"))
                     (mkIds "c" "S7" "G" None) Sample.after_three eq_refl))
                 eq_refl eq_refl).
  - exact (proj2 (proj2 (close_checks_then_decrements "G" Sample.two Sample.validate
                     (Sample.close_notice "G" "S2" "c" (Some "1"))
                     (mkIds "c" "S2" "G" None) Sample.after_three eq_refl))
                 eq_refl 1 eq_refl).
Defined.

(** Client a is mapped to S1; a notice from S2 with the flag removes it. *)
Lemma close_forgets_client_of_other_shard_witness :
  JSMap.get (Gateway.mapping Sample.after_three) "a" = Some "S1" /\
  JSMap.get (Gateway.kids Sample.after_three) "S2" = Some 1 /\
  fst (Gateway.close "G" Sample.two Sample.validate
         (Sample.close_notice "G" "S2" "a" (Some "1")) Sample.after_three)
  = Ok (response_text "OK") /\
  JSMap.get
    (Gateway.mapping
       (snd (Gateway.close "G" Sample.two Sample.validate
               (Sample.close_notice "G" "S2" "a" (Some "1")) Sample.after_three)))
    "a" = None /\
  JSMap.get
    (Gateway.kids
       (snd (Gateway.close "G" Sample.two Sample.validate
               (Sample.close_notice "G" "S2" "a" (Some "1")) Sample.after_three)))
    "S1" = JSMap.get (Gateway.kids Sample.after_three) "S1".
Proof.
  split; [reflexivity|]. split; [reflexivity|].
  refine (close_forgets_client_of_other_shard "G" Sample.two Sample.validate
            (Sample.close_notice "G" "S2" "a" (Some "1"))
            (mkIds "a" "S2" "G" None) Sample.after_three "S1" 1
            eq_refl eq_refl eq_refl _ eq_refl eq_refl).
  discriminate.
Defined.

(** C5 as stated fails: after clients a and b the gateway is between
    operations, S1 is listed, and its count equals the limit 2. *)
Lemma sorted_lists_full_shard :
  Gateway.reachable "G" Sample.two Sample.identify Sample.validate Sample.ROUTES
    Sample.header_value Sample.after_two /\
  In "S1" (Gateway.sorted Sample.after_two) /\
  JSMap.get (Gateway.kids Sample.after_two) "S1" = Some 2 /\
  below 2 Sample.two = false.
Proof.
  split; [exact after_two_reachable|].
  split; [now left|]. split; reflexivity.
Qed.

Lemma sorted_within_limit_witness :
  Sample.two = whole 2 /\ 1 <= 2 /\
  (exists c, JSMap.get (Gateway.kids Sample.after_two) "S1" = Some c /\ c <= 2) /\
  (exists c,
      JSMap.get
        (Gateway.kids
           (snd (Gateway.close "G" Sample.two Sample.validate
                   (Sample.close_notice "G" "S1" "b" None) Sample.after_two)))
        "S1" = Some c /\ below c Sample.two = true).
Proof.
  assert (Hlim : 1 <= 2) by lia.
  split; [reflexivity|]. split; [exact Hlim|]. split.
  - exact (proj1 (sorted_within_limit "G" Sample.two Sample.identify Sample.validate
                    Sample.ROUTES Sample.header_value)
                 2 eq_refl Hlim
                 Sample.after_two after_two_reachable "S1" (or_introl eq_refl)).
  - exact (proj2 (sorted_within_limit "G" Sample.two Sample.identify Sample.validate
                    Sample.ROUTES Sample.header_value)
                 Sample.after_two (Sample.close_notice "G" "S1" "b" None)
                 (response_text "OK") _ after_two_reachable eq_refl
                 "S1" (or_introl eq_refl)).
Defined.

(** ** The Shard *)
Section ShardFacts.
Import Shard.
Variable uid : string.
Variable validate : Request -> option string -> result Error Ids.
Variable ROUTES : Routes.
Variable app : App.
Variable settle : list Effect -> list Effect -> option Error.
Variable header_value : string -> result Error string.

Local Abbreviation settled := (Shard.settled settle).
Local Abbreviation effect := (Shard.effect settle).
Local Abbreviation all_settled := (Shard.all_settled settle).
Local Abbreviation text := (Shard.text settle).
Local Abbreviation emit := (Shard.emit settle).
Local Abbreviation relay_target := (Shard.relay_target header_value).
Local Abbreviation relay_request := (Shard.relay_request uid).
Local Abbreviation dispatch := (Shard.dispatch uid settle header_value).
Local Abbreviation broadcast := (Shard.broadcast uid ROUTES settle header_value).
Local Abbreviation whisper := (Shard.whisper uid ROUTES settle header_value).
Local Abbreviation close_request := (Shard.close_request uid ROUTES).
Local Abbreviation decrement := (Shard.decrement uid ROUTES settle).
Local Abbreviation decremented := (Shard.decremented uid ROUTES).
Local Abbreviation sock_call := (Shard.sock_call uid ROUTES settle header_value).
Local Abbreviation run_script := (Shard.run_script uid ROUTES settle header_value).
Local Abbreviation hook := (Shard.hook uid ROUTES settle header_value).
Local Abbreviation closer := (Shard.closer uid ROUTES app settle header_value).
Local Abbreviation connect :=
  (Shard.connect uid validate ROUTES app settle header_value).
Local Abbreviation run_handler :=
  (Shard.run_handler uid validate ROUTES app settle header_value).
Local Abbreviation answer := (Shard.answer uid ROUTES settle).
Local Abbreviation fetch := (Shard.fetch uid validate ROUTES app settle header_value).
Local Abbreviation on_event := (Shard.on_event uid ROUTES app settle header_value).
Local Abbreviation on_message := (Shard.on_message uid ROUTES app settle header_value).
Local Abbreviation step := (Shard.step uid validate ROUTES app settle header_value).
Local Abbreviation run := (Shard.run uid validate ROUTES app settle header_value).

(** *** The trace *)

Lemma record_nil st : record [] st = st.
Proof. destruct st. unfold record. simpl. now rewrite app_nil_r. Qed.

Lemma record_app es1 es2 st : record es2 (record es1 st) = record (es1 ++ es2) st.
Proof. unfold record. simpl. now rewrite app_assoc. Qed.

Lemma notices_record es st : Forall quiet es -> notices (record es st) = notices st.
Proof.
  intros Hq. unfold notices, record. simpl. rewrite flat_map_app.
  induction Hq as [|e es He _ IH]; simpl.
  - now rewrite app_nil_r.
  - destruct e; simpl in *; auto. contradiction.
Qed.

Lemma notices_gateway gid req st :
  notices (record [ToGateway gid req] st) = notices st ++ [req].
Proof. unfold notices, record. simpl. now rewrite flat_map_app. Qed.

(** *** How calls complete *)

(** Whatever a call to the outside throws is an error object. *)
Lemma settled_raises done calls v :
  settled done calls = Throw v -> exists err, v = Raised err.
Proof.
  unfold Shard.settled.
  destruct (if existsb can_fail calls then settle done calls else None) as [err|];
    intros H; inversion H. now exists err.
Qed.

Lemma settled_cases done calls :
  settled done calls = Ok tt \/ exists err, settled done calls = Throw (Raised err).
Proof.
  unfold Shard.settled.
  destruct (if existsb can_fail calls then settle done calls else None) as [err|];
    [right; now exists err|now left].
Qed.

(** Accepting a socket and entering a hook always complete. *)
Lemma settled_sure done e : can_fail e = false -> settled done [e] = Ok tt.
Proof. intros H. unfold Shard.settled. simpl. now rewrite H. Qed.

(** *** Computations that only append to the trace *)

Lemma appends_ret {A} (a : A) : appends (ret a).
Proof. intros st. exists []. simpl. now rewrite record_nil. Qed.

Lemma appends_throw {A} v : appends (@throw A v).
Proof. intros st. exists []. simpl. now rewrite record_nil. Qed.

Lemma appends_effect e : quiet e -> appends (effect e).
Proof. intros Hq st. exists [e]. simpl. auto. Qed.

Lemma appends_all_settled calls : Forall quiet calls -> appends (all_settled calls).
Proof. intros Hq st. now exists calls. Qed.

Lemma appends_bind {A B} (m : M A) (f : A -> M B) :
  appends m -> (forall a, appends (f a)) -> appends (bind m f).
Proof.
  intros Hm Hf st. unfold bind. destruct (Hm st) as [es1 [H1 Hq1]].
  destruct (m st) as [[a|e] st1]; simpl in H1; subst st1.
  - destruct (Hf a (record es1 st)) as [es2 [H2 Hq2]].
    exists (es1 ++ es2). rewrite H2, record_app. split; auto.
    now apply Forall_app.
  - now exists es1.
Qed.

Lemma appends_try_catch {A} (m : M A) (h : Thrown -> M A) :
  appends m -> (forall v, appends (h v)) -> appends (try_catch m h).
Proof.
  intros Hm Hh st. unfold try_catch. destruct (Hm st) as [es1 [H1 Hq1]].
  destruct (m st) as [[a|e] st1]; simpl in H1; subst st1.
  - now exists es1.
  - destruct (Hh e (record es1 st)) as [es2 [H2 Hq2]].
    exists (es1 ++ es2). rewrite H2, record_app. split; auto.
    now apply Forall_app.
Qed.

Lemma appends_for_each {A} (l : list A) (f : A -> M unit) :
  (forall x, appends (f x)) -> appends (for_each l f).
Proof.
  intros Hf. induction l as [|x l IH]; simpl.
  - apply appends_ret.
  - apply appends_bind; auto.
Qed.

Lemma appends_text req : appends (text req).
Proof.
  unfold Shard.text. apply appends_bind.
  - now apply appends_effect.
  - intros _. apply appends_ret.
Qed.

Lemma appends_emit sender msg self : appends (emit sender msg self).
Proof.
  intros st. unfold Shard.emit. apply appends_for_each.
  intros entry. destruct (self || _).
  - now apply appends_effect.
  - apply appends_ret.
Qed.

Lemma relays_quiet (f : ShardID -> Request) l :
  Forall quiet (map (fun sid => ToShard sid (f sid)) l).
Proof. induction l; simpl; constructor; auto. exact I. Qed.

Lemma appends_dispatch params : appends (dispatch params).
Proof.
  intros st. unfold Shard.dispatch. destruct (_ <? 1)%nat.
  - exists []. simpl. now rewrite record_nil.
  - destruct (relay_target params) as [target|e].
    + apply appends_all_settled, relays_quiet.
    + exists []. simpl. now rewrite record_nil.
Qed.

Lemma appends_broadcast gateway sender msg self :
  appends (broadcast gateway sender msg self).
Proof.
  unfold Shard.broadcast. apply appends_bind.
  - apply appends_emit.
  - intros _. apply appends_dispatch.
Qed.

Lemma appends_whisper gateway sender target msg :
  appends (whisper gateway sender target msg).
Proof.
  unfold Shard.whisper. destruct (sender =? target)%string.
  - apply appends_ret.
  - intros st. destruct (JSMap.get (pool st) target).
    + now apply appends_effect.
    + apply appends_dispatch.
Qed.

Lemma appends_sock_call c : appends (sock_call c).
Proof.
  destruct c; simpl.
  - now apply appends_effect.
  - now apply appends_effect.
  - apply appends_broadcast.
  - apply appends_whisper.
  - apply appends_emit.
Qed.

Lemma appends_run_script sc : appends (run_script sc).
Proof.
  induction sc as [|v|c k IH]; simpl.
  - apply appends_ret.
  - apply appends_throw.
  - intros st. destruct (appends_sock_call c st) as [es1 [H1 Hq1]].
    destruct (sock_call c st) as [r st1]. simpl in H1. subst st1.
    destruct (IH r (record es1 st)) as [es2 [H2 Hq2]].
    exists (es1 ++ es2). rewrite H2, record_app. split; auto.
    now apply Forall_app.
Qed.

Lemma appends_hook h s sc : appends (hook h s sc).
Proof.
  unfold Shard.hook. apply appends_bind.
  - now apply appends_effect.
  - intros _. apply appends_run_script.
Qed.

(** *** [#dispatch] and [#whisper] *)

Lemma dispatch_alone params st : neighbors st = [] -> dispatch params st = (Ok tt, st).
Proof. intros Hn. unfold Shard.dispatch. now rewrite Hn. Qed.

Lemma neighbors_some st : neighbors st <> [] -> (List.length (neighbors st) <? 1)%nat = false.
Proof. destruct (neighbors st); [congruence|reflexivity]. Qed.

Lemma dispatch_refused params e st :
  neighbors st <> [] -> relay_target params = Throw e ->
  dispatch params st = (Throw (Raised e), st).
Proof.
  intros Hn Ht. unfold Shard.dispatch. now rewrite (neighbors_some st Hn), Ht.
Qed.

Lemma dispatch_relays params target st :
  neighbors st <> [] -> relay_target params = Ok target ->
  dispatch params st =
  (settled (trace st)
     (map (fun sid => ToShard sid (relay_request params target sid)) (neighbors st)),
   record (map (fun sid => ToShard sid (relay_request params target sid)) (neighbors st))
     st).
Proof.
  intros Hn Ht. unfold Shard.dispatch. now rewrite (neighbors_some st Hn), Ht.
Qed.

Lemma settled_sent done server data :
  settled done [Sent server data]
  = match settle done [Sent server data] with
    | Some failure => Throw (Raised failure)
    | None => Ok tt
    end.
Proof. reflexivity. Qed.

Lemma settled_relays done (f : ShardID -> Request) l :
  l <> [] ->
  settled done (map (fun sid => ToShard sid (f sid)) l)
  = match settle done (map (fun sid => ToShard sid (f sid)) l) with
    | Some failure => Throw (Raised failure)
    | None => Ok tt
    end.
Proof. destruct l; [congruence|reflexivity]. Qed.

(** A whisper to a target that is not in the pool, with neighbours, once
    the target id is stored as [carried]. *)
Lemma whisper_relays gateway sender target msg carried st :
  sender <> target -> JSMap.get (pool st) target = None -> neighbors st <> [] ->
  relay_target {| d_gateway := gateway; d_sender := sender;
                  d_target := Some target; d_route := WHISPER ROUTES;
                  d_body := stringify msg |} = Ok carried ->
  whisper gateway sender target msg st =
  (settled (trace st)
     (map (fun sid =>
             ToShard sid
               (relay_request {| d_gateway := gateway; d_sender := sender;
                                 d_target := Some target; d_route := WHISPER ROUTES;
                                 d_body := stringify msg |} carried sid))
          (neighbors st)),
   record
     (map (fun sid =>
             ToShard sid
               (relay_request {| d_gateway := gateway; d_sender := sender;
                                 d_target := Some target; d_route := WHISPER ROUTES;
                                 d_body := stringify msg |} carried sid))
          (neighbors st))
     st).
Proof.
  intros Hne Hget Hn Ht. unfold Shard.whisper.
  apply String.eqb_neq in Hne. rewrite Hne, Hget.
  now apply dispatch_relays.
Qed.

(** C6, as the code has it.  [#whisper] does nothing when sender and target
    are the same id.  Otherwise, if the target has an entry in the pool, the
    text is sent to that entry's socket, nothing is relayed, and the whisper
    completes as that send does.  If it has none and the neighbour set is
    empty, nothing happens at all.  If it has none and there are neighbours,
    the target id is first made a header: when the platform refuses the
    value, [#whisper] throws that error and no call is made; otherwise one
    POST on the WHISPER route goes to every member of the neighbour set, in
    order, carrying the shard's own id as neighbour id, the gateway id, the
    sender as client id, the target id as the platform stores it, the
    neighbour's id as shard id and the message text as body, and the whisper
    completes as these calls together do.  An empty target id is relayed
    without a target header. *)
Theorem whisper_delivery gateway sender target msg st :
  (sender = target -> whisper gateway sender target msg st = (Ok tt, st)) /\
  (sender <> target ->
   forall state, JSMap.get (pool st) target = Some state ->
   whisper gateway sender target msg st =
   (match settle (trace st) [Sent (socket state) (stringify msg)] with
    | Some failure => Throw (Raised failure)
    | None => Ok tt
    end,
    record [Sent (socket state) (stringify msg)] st)) /\
  (sender <> target -> JSMap.get (pool st) target = None -> neighbors st = [] ->
   whisper gateway sender target msg st = (Ok tt, st)) /\
  (sender <> target -> JSMap.get (pool st) target = None -> neighbors st <> [] ->
   (forall e, truthy target = true -> header_value target = Throw e ->
      whisper gateway sender target msg st = (Throw (Raised e), st)) /\
   (forall carried,
      (exists v, truthy target = true /\ header_value target = Ok v /\
                 carried = Some v) \/
      (truthy target = false /\ carried = None) ->
      whisper gateway sender target msg st =
      (match settle (trace st)
               (map (fun sid =>
                       ToShard sid
                         {| method := "POST"; pathname := WHISPER ROUTES;
                            hdr_upgrade := None; hdr_ws_key := None;
                            hdr_ws_version := None;
                            hdr_gatewayid := Some gateway;
                            hdr_clientid := Some sender;
                            hdr_shardid := Some sid; hdr_neighborid := Some uid;
                            hdr_targetid := carried; hdr_isempty := None;
                            body := stringify msg |})
                    (neighbors st)) with
       | Some failure => Throw (Raised failure)
       | None => Ok tt
       end,
       record
         (map (fun sid =>
                 ToShard sid
                   {| method := "POST"; pathname := WHISPER ROUTES;
                      hdr_upgrade := None; hdr_ws_key := None;
                      hdr_ws_version := None;
                      hdr_gatewayid := Some gateway; hdr_clientid := Some sender;
                      hdr_shardid := Some sid; hdr_neighborid := Some uid;
                      hdr_targetid := carried; hdr_isempty := None;
                      body := stringify msg |})
              (neighbors st))
         st))).
Proof.
  unfold Shard.whisper. split; [|split; [|split]].
  - intros Heq. apply String.eqb_eq in Heq. now rewrite Heq.
  - intros Hne state Hget. apply String.eqb_neq in Hne. now rewrite Hne, Hget.
  - intros Hne Hget Hnil. apply String.eqb_neq in Hne. rewrite Hne, Hget.
    now apply dispatch_alone.
  - intros Hne Hget Hn. apply String.eqb_neq in Hne. rewrite Hne, Hget. split.
    + intros e Ht He. apply dispatch_refused; [exact Hn|].
      unfold Shard.relay_target. simpl. now rewrite Ht, He.
    + intros carried Hc.
      match goal with
      | |- dispatch ?p st = _ => rewrite (dispatch_relays p carried st Hn)
      end.
      * now rewrite settled_relays by exact Hn.
      * unfold Shard.relay_target. simpl.
        destruct Hc as [[v [Ht [Hv ->]]]|[Ht ->]]; rewrite Ht;
          [now rewrite Hv|reflexivity].
Qed.

(** *** The neighbour set *)

Lemma appends_keeps {A} (m : M A) : appends m -> keeps_neighbors m.
Proof. intros Hm st. destruct (Hm st) as [es [H _]]. now rewrite H. Qed.

Lemma keeps_bind {A B} (m : M A) (f : A -> M B) :
  keeps_neighbors m -> (forall a, keeps_neighbors (f a)) -> keeps_neighbors (bind m f).
Proof.
  intros Hm Hf st. unfold bind. specialize (Hm st).
  destruct (m st) as [[a|e] st1]; simpl in Hm; [|exact Hm].
  now rewrite Hf.
Qed.

Lemma keeps_try_finally {A} (m : M A) (f : M unit) :
  keeps_neighbors m -> keeps_neighbors f -> keeps_neighbors (try_finally m f).
Proof.
  intros Hm Hf st. unfold try_finally. specialize (Hm st).
  destruct (m st) as [r st1]. simpl in Hm. specialize (Hf st1).
  destruct (f st1) as [[[]|e] st2]; simpl in *; congruence.
Qed.

Lemma keeps_decrement rid gid : keeps_neighbors (decrement rid gid).
Proof. intros st. reflexivity. Qed.

Lemma keeps_closer s evt : keeps_neighbors (closer s evt).
Proof.
  unfold Shard.closer. apply keeps_try_finally.
  - destruct evt, (onerror app), (onclose app);
      try (apply appends_keeps, appends_hook); apply appends_keeps, appends_ret.
  - apply keeps_bind; [apply keeps_decrement|].
    intros _. now apply appends_keeps, appends_effect.
Qed.

Lemma keeps_connect req : keeps_neighbors (connect req).
Proof.
  intros st. unfold Shard.connect.
  destruct (negb _); [reflexivity|].
  destruct (differs _ _); [reflexivity|].
  destruct (negb _); [reflexivity|].
  destruct (differs _ _); [reflexivity|].
  destruct (validate req (Some uid)) as [ids|err]; [|reflexivity].
  match goal with
  | |- neighbors (snd (?m ?st0)) = _ =>
      assert (K : keeps_neighbors m); [|now rewrite K]
  end.
  apply keeps_bind; [now apply appends_keeps, appends_effect|].
  intros _. apply keeps_bind.
  - destruct (onopen app).
    + apply appends_keeps, appends_hook.
    + apply appends_keeps, appends_ret.
  - intros _ st'. reflexivity.
Qed.

Lemma keeps_run_handler h : keeps_neighbors (run_handler h).
Proof.
  induction h as [r|e|req k IH|c k IH]; simpl.
  - apply appends_keeps, appends_ret.
  - apply appends_keeps, appends_throw.
  - intros st. pose proof (keeps_connect req st) as Hc.
    destruct (connect req st) as [r st']. simpl in Hc.
    now rewrite IH.
  - intros st. pose proof (appends_keeps _ (appends_sock_call c) st) as Hc.
    destruct (sock_call c st) as [r st']. simpl in Hc.
    now rewrite IH.
Qed.

Lemma keeps_on_event server evt : keeps_neighbors (on_event server evt).
Proof.
  intros st. unfold Shard.on_event.
  destruct (listener server st); [apply keeps_closer|reflexivity].
Qed.

Lemma keeps_on_message server data : keeps_neighbors (on_message server data).
Proof.
  intros st. unfold Shard.on_message.
  destruct (onmessage app); [|reflexivity].
  destruct (listener server st); [|reflexivity].
  apply appends_keeps, appends_hook.
Qed.

(** *** The branches of [fetch] *)

Lemma appends_stack_of v : appends (stack_of v).
Proof. destruct v; [apply appends_throw|apply appends_ret]. Qed.

Lemma appends_relay_failed fallback v : appends (relay_failed fallback v).
Proof.
  unfold relay_failed. apply appends_bind; [apply appends_stack_of|].
  intros msg. apply appends_ret.
Qed.

(** The BROADCAST branch. *)
Lemma appends_relayed_broadcast req ids :
  appends
    (try_catch
       (data <- text req ;; emit (rid ids) (Text data) false ;; ret response_empty)
       (relay_failed "Error parsing broadcast message")).
Proof.
  apply appends_try_catch; [|apply appends_relay_failed].
  apply appends_bind; [apply appends_text|]. intros data.
  apply appends_bind; [apply appends_emit|]. intros _. apply appends_ret.
Qed.

(** The WHISPER branch. *)
Lemma appends_relayed_whisper req ids :
  appends
    (try_catch
       (match js_or (tid ids) None with
        | None => throw (Raised (new_Error "Missing: Target ID"))
        | Some t =>
            fun st =>
              match JSMap.get (pool st) t with
              | Some state => (data <- text req ;;
                               effect (Sent (socket state) data) ;;
                               ret response_empty) st
              | None => (Ok response_empty, st)
              end
        end)
       (relay_failed "Error parsing whisper message")).
Proof.
  apply appends_try_catch; [|apply appends_relay_failed].
  destruct (js_or (tid ids) None) as [t|]; [|apply appends_throw].
  intros st0. destruct (JSMap.get (pool st0) t).
  - apply appends_bind; [apply appends_text|]. intros data.
    apply appends_bind; [now apply appends_effect|intros _; apply appends_ret].
  - exists []. simpl. now rewrite record_nil.
Qed.

(** The [finally] of [fetch], case by case. *)
Lemma decrement_effect rid gid st :
  decrement rid gid st =
  (settled (trace st) [ToGateway gid (close_request rid gid)],
   decremented rid gid st).
Proof. reflexivity. Qed.

Lemma answer_upgrade ids res st :
  status res = 101 -> answer ids (Ok res) st = (Ok res, st).
Proof. intros Hs. unfold Shard.answer. now rewrite Hs. Qed.

Lemma answer_decrements ids res st :
  status res <> 101 ->
  answer ids (Ok res) st =
  (match settled (trace st) [ToGateway (gid ids) (close_request (rid ids) (gid ids))] with
   | Ok _ => Ok res
   | Throw v => Throw v
   end,
   decremented (rid ids) (gid ids) st).
Proof.
  intros Hs. apply Z.eqb_neq in Hs. unfold Shard.answer. rewrite Hs. simpl.
  unfold bind. rewrite decrement_effect.
  now destruct (settled _ _) as [[]|v].
Qed.

Lemma answer_raised ids err st :
  answer ids (Throw (Raised err)) st =
  (match settled (trace st) [ToGateway (gid ids) (close_request (rid ids) (gid ids))] with
   | Ok _ => Ok (abort 400 (Some (or_default (stack err) "Error in `receive` method")))
   | Throw v => Throw v
   end,
   decremented (rid ids) (gid ids) st).
Proof.
  unfold Shard.answer. simpl. unfold bind. rewrite decrement_effect.
  now destruct (settled _ _) as [[]|v].
Qed.

Lemma answer_nullish ids st :
  answer ids (Throw Nullish) st = (Throw (Raised (nullish_read "status")), st).
Proof. reflexivity. Qed.

Lemma keeps_answer ids r : keeps_neighbors (answer ids r).
Proof.
  intros st. destruct r as [res|[|err]].
  - destruct (Z.eq_dec (status res) 101) as [Hs|Hs].
    + now rewrite answer_upgrade.
    + now rewrite answer_decrements.
  - now rewrite answer_nullish.
  - now rewrite answer_raised.
Qed.

(** [fetch] changes the neighbour set only on the NEIGHBOR route, by [add]. *)
Lemma fetch_neighbors req st :
  neighbors (snd (fetch req st)) = neighbors st \/
  exists ids,
    validate req (Some uid) = Ok ids /\ pathname req = NEIGHBOR ROUTES /\
    neighbors (snd (fetch req st)) = JSSet.add (neighbors st) (rid ids).
Proof.
  unfold Shard.fetch.
  destruct (validate req (Some uid)) as [ids|err]; [|now left].
  destruct (String.eqb_spec (pathname req) (NEIGHBOR ROUTES)) as [Hn|_].
  { right. exists ids. auto. }
  left.
  destruct (pathname req =? BROADCAST ROUTES)%string.
  { apply appends_keeps, appends_relayed_broadcast. }
  destruct (pathname req =? WHISPER ROUTES)%string.
  { apply appends_keeps, appends_relayed_whisper. }
  pose proof (keeps_run_handler (receive app req) st) as Hr.
  destruct (run_handler (receive app req) st) as [r st'].
  simpl in Hr. now rewrite keeps_answer.
Qed.

Lemma step_neighbors op st n :
  In n (neighbors st) -> In n (neighbors (step op st)).
Proof.
  intros Hin. destruct op as [req|server evt|server data]; simpl.
  - destruct (fetch_neighbors req st) as [H|[ids [_ [_ H]]]]; rewrite H; auto.
    now apply set_add_keeps.
  - now rewrite keeps_on_event.
  - now rewrite keeps_on_message.
Qed.

(** C7.  An introduction of a neighbour that is already a member leaves the
    set, and so its size, as it was; and whatever enters the shard (requests,
    socket events, socket messages, with any application code), a member of
    the neighbour set stays a member. *)
Theorem neighbors_only_grow :
  (forall req ids st,
      validate req (Some uid) = Ok ids ->
      pathname req = NEIGHBOR ROUTES ->
      In (rid ids) (neighbors st) ->
      neighbors (snd (fetch req st)) = neighbors st) /\
  (forall ops st n, In n (neighbors st) -> In n (neighbors (run ops st))).
Proof.
  split.
  - intros req ids st Hv Hp Hin. unfold Shard.fetch. rewrite Hv.
    apply String.eqb_eq in Hp. rewrite Hp. simpl.
    now apply set_add_present.
  - intros ops. induction ops as [|op ops IH]; intros st n Hin; simpl; auto.
    apply IH. now apply step_neighbors.
Qed.

(** *** Tables and notices under trace-appending computations *)

Lemma appends_pool {A} (m : M A) st : appends m -> pool (snd (m st)) = pool st.
Proof. intros Hm. destruct (Hm st) as [es [H _]]. now rewrite H. Qed.

Lemma appends_notices {A} (m : M A) st :
  appends m -> notices (snd (m st)) = notices st.
Proof.
  intros Hm. destruct (Hm st) as [es [H Hq]]. rewrite H.
  now apply notices_record.
Qed.

Lemma decremented_notices rid gid st :
  notices (decremented rid gid st) = notices st ++ [close_request rid gid].
Proof. unfold notices. simpl. now rewrite flat_map_app. Qed.

(** *** [connect] *)

Lemma differs_true h lit : h <> Some lit -> differs h lit = true.
Proof.
  intros Hne. destruct h as [v|]; simpl; auto.
  destruct (String.eqb_spec v lit); auto. congruence.
Qed.

Lemma differs_false lit : differs (Some lit) lit = false.
Proof. simpl. now rewrite String.eqb_refl. Qed.

(** Past the checks: [connect] accepts the socket, calls [onopen] if there
    is one, and registers the socket if the hook returned. *)
Lemma connect_accepts req ids st :
  method req = "GET"%string -> hdr_upgrade req = Some "websocket"%string ->
  key_ok (trim (or_default (hdr_ws_key req) "")) = true ->
  hdr_ws_version req = Some "13"%string ->
  validate req (Some uid) = Ok ids ->
  connect req st =
  (let s := new_socket ids st in
   let '(r, st1) :=
     match onopen app with
     | Some h => hook OnOpen s (h s) (attached s [] st)
     | None => (Ok tt, attached s [] st)
     end in
   match r with
   | Ok _ => (Ok {| status := 101; payload := None;
                    webSocket := Some (next_socket st) |},
              registered s st1)
   | Throw v => (Throw v, st1)
   end).
Proof.
  intros Hm Hu Hk Hver Hval.
  unfold Shard.connect. rewrite Hm, Hu, Hk, Hver, Hval. simpl.
  fold (new_socket ids st).
  unfold bind at 1. unfold Shard.effect at 1.
  rewrite settled_sure by reflexivity.
  change (record [Accepted (S (next_socket st))]
            {| pool := pool st; neighbors := neighbors st;
               sockets := sockets st ++ [new_socket ids st];
               next_socket := S (S (next_socket st)); trace := trace st |})
    with (attached (new_socket ids st) [] st).
  unfold bind. destruct (onopen app) as [h|].
  - now destruct (hook _ _ _ _) as [[[]|v] st1].
  - reflexivity.
Qed.

(** C9.  [connect] answers the first failed handshake check with its status
    code (405 for the method, 426 for the upgrade header, 400 for the key and
    for the version) and a failed validation of the routing identifiers with
    400 and the error's message; in each case the state it returns is the
    state it was given: same pool, no socket created, nothing added to the
    trace, so no hook was entered.  More generally any response of [connect]
    other than the 101 upgrade comes with an unchanged state. *)
Theorem connect_rejects_untouched req st :
  (method req <> "GET"%string -> connect req st = (Ok (abort 405 None), st)) /\
  (method req = "GET"%string -> hdr_upgrade req <> Some "websocket"%string ->
   connect req st = (Ok (abort 426 None), st)) /\
  (method req = "GET"%string -> hdr_upgrade req = Some "websocket"%string ->
   key_ok (trim (or_default (hdr_ws_key req) "")) = false ->
   connect req st = (Ok (abort 400 None), st)) /\
  (method req = "GET"%string -> hdr_upgrade req = Some "websocket"%string ->
   key_ok (trim (or_default (hdr_ws_key req) "")) = true ->
   hdr_ws_version req <> Some "13"%string ->
   connect req st = (Ok (abort 400 None), st)) /\
  (method req = "GET"%string -> hdr_upgrade req = Some "websocket"%string ->
   key_ok (trim (or_default (hdr_ws_key req) "")) = true ->
   hdr_ws_version req = Some "13"%string ->
   forall err, validate req (Some uid) = Throw err ->
   connect req st = (Ok (abort 400 (Some (message err))), st)) /\
  (forall res st', connect req st = (Ok res, st') -> status res <> 101 -> st' = st).
Proof.
  unfold Shard.connect. repeat split.
  - intros Hm. apply String.eqb_neq in Hm. now rewrite Hm.
  - intros Hm Hu. rewrite Hm. simpl. now rewrite (differs_true _ _ Hu).
  - intros Hm Hu Hk. now rewrite Hm, Hu, Hk.
  - intros Hm Hu Hk Hv. rewrite Hm, Hu, Hk. simpl.
    now rewrite (differs_true _ _ Hv).
  - intros Hm Hu Hk Hv err He. now rewrite Hm, Hu, Hk, Hv, He.
  - intros res st'.
    destruct (negb (method req =? "GET")%string);
      [intros H; now inversion H|].
    destruct (differs (hdr_upgrade req) "websocket");
      [intros H; now inversion H|].
    destruct (negb (key_ok _)); [intros H; now inversion H|].
    destruct (differs (hdr_ws_version req) "13");
      [intros H; now inversion H|].
    destruct (validate req (Some uid)) as [ids|err];
      [|intros H; now inversion H].
    unfold bind at 1. unfold Shard.effect at 1.
    rewrite settled_sure by reflexivity. unfold bind.
    destruct (onopen app) as [h|].
    + match goal with
      | |- context [hook ?hn ?s ?sc ?st0] =>
          destruct (hook hn s sc st0) as [[[]|e] st1]
      end; intros H; inversion H; subst res.
      simpl. intros Hs. now contradiction Hs.
    + unfold ret. intros H. inversion H. subst res.
      simpl. intros Hs. now contradiction Hs.
Qed.


(** *** [fetch] *)

Lemma is_control_false req :
  is_control ROUTES req = false ->
  (pathname req =? NEIGHBOR ROUTES)%string = false /\
  (pathname req =? BROADCAST ROUTES)%string = false /\
  (pathname req =? WHISPER ROUTES)%string = false.
Proof.
  clear. unfold is_control. intros H.
  apply orb_false_elim in H. destruct H as [H Hw].
  apply orb_false_elim in H. tauto.
Qed.

(** Off the reserved paths [fetch] runs [receive] and then the [catch] and
    [finally] around it. *)
Lemma fetch_delegates req ids st :
  validate req (Some uid) = Ok ids -> is_control ROUTES req = false ->
  fetch req st =
  (let '(r, st') := run_handler (receive app req) st in answer ids r st').
Proof.
  intros Hv Hc. apply is_control_false in Hc. destruct Hc as [Hn [Hb Hw]].
  unfold Shard.fetch. now rewrite Hv, Hn, Hb, Hw.
Qed.

(** What the relay branches throw. *)
Lemma raises_ret {A} (a : A) : raises_errors (ret a).
Proof. intros st v st' H. discriminate. Qed.

Lemma raises_throw {A} err : raises_errors (@throw A (Raised err)).
Proof. intros st v st' H. inversion H. now exists err. Qed.

Lemma raises_effect e : raises_errors (effect e).
Proof.
  intros st v st' H. unfold Shard.effect in H. inversion H.
  eapply settled_raises. eassumption.
Qed.

Lemma raises_bind {A B} (m : M A) (f : A -> M B) :
  raises_errors m -> (forall a, raises_errors (f a)) -> raises_errors (bind m f).
Proof.
  intros Hm Hf st v st'. unfold bind. destruct (m st) as [[a|v0] st0] eqn:E.
  - apply Hf.
  - intros H. inversion H. subst. eapply Hm. exact E.
Qed.

Lemma raises_for_each {A} (l : list A) (f : A -> M unit) :
  (forall x, raises_errors (f x)) -> raises_errors (for_each l f).
Proof.
  intros Hf. induction l as [|x l IH]; simpl.
  - apply raises_ret.
  - apply raises_bind; auto.
Qed.

Lemma raises_emit sender msg self : raises_errors (emit sender msg self).
Proof.
  intros st. unfold Shard.emit. apply raises_for_each. intros entry.
  destruct (self || _); [apply raises_effect|apply raises_ret].
Qed.

Lemma raises_text req : raises_errors (text req).
Proof.
  unfold Shard.text. apply raises_bind; [apply raises_effect|].
  intros _. apply raises_ret.
Qed.

Lemma bind_ok {A B} (m : M A) (f : A -> M B) st b st' :
  bind m f st = (Ok b, st') -> exists a st1, m st = (Ok a, st1) /\ f a st1 = (Ok b, st').
Proof.
  unfold bind. destruct (m st) as [[a|v] st1]; [eauto|discriminate].
Qed.

(** What a relay branch throws is caught and answered 400. *)
Lemma relay_answers (m : M Response) fallback st :
  (forall res st', m st = (Ok res, st') -> res = response_empty) ->
  raises_errors m ->
  exists res,
    fst (try_catch m (relay_failed fallback) st) = Ok res /\ status res <> 101.
Proof.
  intros Hok Hthrow. unfold try_catch. destruct (m st) as [[res|v] st'] eqn:E.
  - exists res. rewrite (Hok res st' eq_refl). simpl. split; [auto|discriminate].
  - destruct (Hthrow st v st' E) as [err ->].
    eexists. simpl. split; [reflexivity|]. simpl. discriminate.
Qed.

(** On a reserved path [fetch] answers without touching pool or gateway. *)
Lemma fetch_control req ids st :
  validate req (Some uid) = Ok ids -> is_control ROUTES req = true ->
  (exists res, fst (fetch req st) = Ok res /\ status res <> 101) /\
  pool (snd (fetch req st)) = pool st /\
  notices (snd (fetch req st)) = notices st.
Proof.
  intros Hv Hc. unfold Shard.fetch. rewrite Hv.
  destruct (pathname req =? NEIGHBOR ROUTES)%string eqn:Hn.
  { simpl. split; [|auto]. exists response_empty. split; [auto|discriminate]. }
  destruct (pathname req =? BROADCAST ROUTES)%string eqn:Hb.
  { split; [|split].
    - apply relay_answers.
      + intros res st' H.
        apply bind_ok in H. destruct H as [data [st1 [_ H]]].
        apply bind_ok in H. destruct H as [[] [st2 [_ H]]].
        now inversion H.
      + apply raises_bind; [apply raises_text|]. intros data.
        apply raises_bind; [apply raises_emit|]. intros _. apply raises_ret.
    - apply appends_pool, appends_relayed_broadcast.
    - apply appends_notices, appends_relayed_broadcast. }
  destruct (pathname req =? WHISPER ROUTES)%string eqn:Hw.
  { split; [|split].
    - apply relay_answers.
      + intros res st'.
        destruct (js_or (tid ids) None) as [t|]; [|discriminate].
        destruct (JSMap.get (pool st) t); [|intros H; now inversion H].
        intros H.
        apply bind_ok in H. destruct H as [data [st1 [_ H]]].
        apply bind_ok in H. destruct H as [[] [st2 [_ H]]].
        now inversion H.
      + destruct (js_or (tid ids) None) as [t|]; [|apply raises_throw].
        intros st0 v st'. destruct (JSMap.get (pool st0) t); [|discriminate].
        apply raises_bind; [apply raises_text|]. intros data.
        apply raises_bind; [apply raises_effect|]. intros _. apply raises_ret.
    - apply appends_pool, appends_relayed_whisper.
    - apply appends_notices, appends_relayed_whisper. }
  unfold is_control in Hc. rewrite Hn, Hb, Hw in Hc. discriminate.
Qed.

(** A call that can fail completes as [settle] says. *)
Lemma settled_call done e :
  can_fail e = true ->
  settled done [e] = match settle done [e] with
                     | Some err => Throw (Raised err)
                     | None => Ok tt
                     end.
Proof. intros H. unfold Shard.settled. simpl. now rewrite H. Qed.



(** *** The close and error listener *)

(** The [finally] of the closer: the decrement, and [server.close()] if the
    call to the gateway completed. *)
Lemma closer_finally s st :
  (decrement (sock_uid s) (sock_gid s) ;; effect (Closed (sock_server s))) st
  = match settled (trace st)
            [ToGateway (sock_gid s) (close_request (sock_uid s) (sock_gid s))] with
    | Ok _ =>
        (settled (trace (decremented (sock_uid s) (sock_gid s) st))
           [Closed (sock_server s)],
         record [Closed (sock_server s)] (decremented (sock_uid s) (sock_gid s) st))
    | Throw v => (Throw v, decremented (sock_uid s) (sock_gid s) st)
    end.
Proof.
  unfold bind. rewrite decrement_effect.
  now destruct (settled _ _) as [[]|v].
Qed.

Lemma closer_effect s evt st :
  notices (snd (closer s evt st)) = notices st ++ [close_request (sock_uid s) (sock_gid s)] /\
  pool (snd (closer s evt st)) = JSMap.delete (pool st) (sock_uid s).
Proof.
  unfold Shard.closer, try_finally.
  match goal with
  | |- context [let '(r, st') := ?m0 st in _] => set (m := m0)
  end.
  assert (Ha : appends m).
  { subst m. destruct evt, (onerror app), (onclose app);
      try apply appends_hook; apply appends_ret. }
  pose proof (appends_pool m st Ha) as Hp.
  pose proof (appends_notices m st Ha) as Hn.
  destruct (m st) as [r st1]. simpl in Hp, Hn.
  rewrite closer_finally.
  destruct (settled (trace st1) _) as [[]|v].
  - destruct (settled _ [Closed (sock_server s)]) as [[]|v]; simpl;
      (split; [|now rewrite Hp]);
      (rewrite notices_record by (constructor; [exact I|constructor]));
      now rewrite decremented_notices, Hn.
  - simpl. split; [|now rewrite Hp]. now rewrite decremented_notices, Hn.
Qed.


End ShardFacts.

(** *** The Shard on a sample run: shard "S1", client a connected *)

Lemma whisper_delivery_witness :
  Shard.whisper "S1" Sample.ROUTES Sample.reliable Sample.header_value
    "G" "a" "a" (Shard.Text "psst") Sample.introduced
  = (Ok tt, Sample.introduced) /\
  Shard.whisper "S1" Sample.ROUTES Sample.reliable Sample.header_value
    "G" "b" "a" (Shard.Text "psst") Sample.introduced
  = (Ok tt, Shard.record [Shard.Sent 1%nat "psst"] Sample.introduced) /\
  Shard.whisper "S1" Sample.ROUTES Sample.reliable Sample.header_value
    "G" "b" "z" (Shard.Text "psst") (Sample.connected Sample.app)
  = (Ok tt, Sample.connected Sample.app) /\
  Shard.whisper "S1" Sample.ROUTES Sample.reliable Sample.header_value
    "G" "b" " z" (Shard.Text "psst") Sample.introduced
  = (Ok tt,
     Shard.record
       [Shard.ToShard "S2"
          {| method := "POST"; pathname := "/~/whisper";
             hdr_upgrade := None; hdr_ws_key := None; hdr_ws_version := None;
             hdr_gatewayid := Some "G"; hdr_clientid := Some "b";
             hdr_shardid := Some "S2"; hdr_neighborid := Some "S1";
             hdr_targetid := Some "z"; hdr_isempty := None;
             body := "psst" |}]
       Sample.introduced).
Proof.
  assert (Hba : "b"%string <> "a"%string) by discriminate.
  assert (Hbz : "b"%string <> "z"%string) by discriminate.
  assert (Hbz' : "b"%string <> " z"%string) by discriminate.
  assert (Hsome : Shard.neighbors Sample.introduced <> []) by discriminate.
  split; [|split; [|split]].
  - exact (proj1 (whisper_delivery "S1" Sample.ROUTES Sample.reliable
                    Sample.header_value "G" "a" "a"
                    (Shard.Text "psst") Sample.introduced) eq_refl).
  - exact (proj1 (proj2 (whisper_delivery "S1" Sample.ROUTES Sample.reliable
                    Sample.header_value "G" "b" "a"
                    (Shard.Text "psst") Sample.introduced))
                 Hba _ eq_refl).
  - exact (proj1 (proj2 (proj2 (whisper_delivery "S1" Sample.ROUTES Sample.reliable
                    Sample.header_value "G" "b" "z"
                    (Shard.Text "psst") (Sample.connected Sample.app))))
                 Hbz eq_refl eq_refl).
  - refine (proj2 (proj2 (proj2 (proj2 (whisper_delivery "S1" Sample.ROUTES
                    Sample.reliable Sample.header_value "G" "b" " z"
                    (Shard.Text "psst") Sample.introduced)))
                  Hbz' eq_refl Hsome)
                 (Some "z"%string) _).
    left. exists "z"%string. repeat split.
Defined.

(** C6 as stated fails for a target id that no header can hold.  Client b
    whispers to a client that is not on this shard, the shard has the
    neighbour "S2", and the target id has a line feed in it: [#whisper]
    throws the platform's [TypeError] and nothing is sent to "S2". *)
Lemma whisper_unstorable_target_not_relayed :
  JSMap.get (Shard.pool Sample.introduced) Sample.two_lines = None /\
  Shard.neighbors Sample.introduced = ["S2"%string] /\
  Shard.whisper "S1" Sample.ROUTES Sample.reliable Sample.header_value
    "G" "b" Sample.two_lines (Shard.Text "psst") Sample.introduced
  = (Throw (Raised {| message := "Invalid header value";
                      stack := Some "TypeError: Invalid header value"%string |}),
     Sample.introduced) /\
  Shard.trace Sample.introduced = [Shard.Accepted 1%nat].
Proof. repeat split. Qed.

Lemma neighbors_only_grow_witness :
  In "S2"%string (Shard.neighbors Sample.introduced) /\
  Shard.neighbors
    (snd (Shard.fetch "S1" Sample.validate Sample.ROUTES Sample.app Sample.reliable
            Sample.header_value (Sample.introduction "S2") Sample.introduced))
  = Shard.neighbors Sample.introduced /\
  In "S2"%string
    (Shard.neighbors
       (Shard.run "S1" Sample.validate Sample.ROUTES Sample.app Sample.reliable
          Sample.header_value Sample.error_then_close Sample.introduced)).
Proof.
  assert (Hin : In "S2"%string (Shard.neighbors Sample.introduced))
    by (left; reflexivity).
  split; [exact Hin|]. split.
  - exact (proj1 (neighbors_only_grow "S1" Sample.validate Sample.ROUTES Sample.app
                    Sample.reliable Sample.header_value)
                 (Sample.introduction "S2") (mkIds "S2" "S1" "G" None)
                 Sample.introduced eq_refl eq_refl Hin).
  - exact (proj2 (neighbors_only_grow "S1" Sample.validate Sample.ROUTES Sample.app
                    Sample.reliable Sample.header_value)
                 Sample.error_then_close Sample.introduced "S2"%string Hin).
Defined.

(** A POST, a missing upgrade header, a short key, version 8, and a request
    addressed to another shard: each is refused and nothing changes. *)
Lemma connect_rejects_untouched_witness :
  Shard.connect "S1" Sample.validate Sample.ROUTES Sample.app Sample.reliable
    Sample.header_value
    (Sample.handshake "POST" (Some "websocket") Sample.nonce (Some "13") "S1")
    (Sample.connected Sample.app)
  = (Ok (abort 405 None), Sample.connected Sample.app) /\
  Shard.connect "S1" Sample.validate Sample.ROUTES Sample.app Sample.reliable
    Sample.header_value
    (Sample.handshake "GET" None Sample.nonce (Some "13") "S1")
    (Sample.connected Sample.app)
  = (Ok (abort 426 None), Sample.connected Sample.app) /\
  Shard.connect "S1" Sample.validate Sample.ROUTES Sample.app Sample.reliable
    Sample.header_value
    (Sample.handshake "GET" (Some "websocket") (Some "c2hvcnQ=") (Some "13") "S1")
    (Sample.connected Sample.app)
  = (Ok (abort 400 None), Sample.connected Sample.app) /\
  Shard.connect "S1" Sample.validate Sample.ROUTES Sample.app Sample.reliable
    Sample.header_value
    (Sample.handshake "GET" (Some "websocket") Sample.nonce (Some "8") "S1")
    (Sample.connected Sample.app)
  = (Ok (abort 400 None), Sample.connected Sample.app) /\
  Shard.connect "S1" Sample.validate Sample.ROUTES Sample.app Sample.reliable
    Sample.header_value
    (Sample.handshake "GET" (Some "websocket") Sample.nonce (Some "13") "S9")
    (Sample.connected Sample.app)
  = (Ok (abort 400 (Some "Mismatch: Shard ID"%string)), Sample.connected Sample.app).
Proof.
  split; [|split; [|split; [|split]]].
  - refine (proj1 (connect_rejects_untouched "S1" Sample.validate Sample.ROUTES
                     Sample.app Sample.reliable Sample.header_value
                     (Sample.handshake "POST" (Some "websocket") Sample.nonce
                        (Some "13") "S1")
                     (Sample.connected Sample.app)) _).
    discriminate.
  - refine (proj1 (proj2 (connect_rejects_untouched "S1" Sample.validate
                     Sample.ROUTES Sample.app Sample.reliable Sample.header_value
                     (Sample.handshake "GET" None Sample.nonce (Some "13") "S1")
                     (Sample.connected Sample.app))) eq_refl _).
    discriminate.
  - exact (proj1 (proj2 (proj2 (connect_rejects_untouched "S1" Sample.validate
                     Sample.ROUTES Sample.app Sample.reliable Sample.header_value
                     (Sample.handshake "GET" (Some "websocket") (Some "c2hvcnQ=")
                        (Some "13") "S1")
                     (Sample.connected Sample.app)))) eq_refl eq_refl eq_refl).
  - refine (proj1 (proj2 (proj2 (proj2 (connect_rejects_untouched "S1"
                     Sample.validate Sample.ROUTES Sample.app Sample.reliable
                     Sample.header_value
                     (Sample.handshake "GET" (Some "websocket") Sample.nonce
                        (Some "8") "S1")
                     (Sample.connected Sample.app)))))
                  eq_refl eq_refl eq_refl _).
    discriminate.
  - exact (proj1 (proj2 (proj2 (proj2 (proj2 (connect_rejects_untouched "S1"
                     Sample.validate Sample.ROUTES Sample.app Sample.reliable
                     Sample.header_value
                     (Sample.handshake "GET" (Some "websocket") Sample.nonce
                        (Some "13") "S9")
                     (Sample.connected Sample.app))))))
                 eq_refl eq_refl eq_refl eq_refl
                 (new_Error "Mismatch: Shard ID") eq_refl).
Defined.







(** * Further properties of the code *)

(** ** More facts about the [Map] model *)
Section JSMapMore.
Context {V : Type}.
Implicit Types (m : JSMap.t V) (k x : string) (v : V).
Import JSMap.

Lemma map_get_in m k v : get m k = Some v -> In (k, v) m.
Proof.
  induction m as [|[k' v'] m IH]; simpl; [discriminate|].
  destruct (String.eqb_spec k' k) as [->|_]; intros H.
  - inversion H. now left.
  - right. auto.
Qed.

Lemma map_get_tracked m k : In k (keys m) <-> exists v, get m k = Some v.
Proof.
  induction m as [|[k' v'] m IH]; simpl.
  - split; [intros []|intros [v H]; discriminate].
  - destruct (String.eqb_spec k' k) as [->|Hne].
    + split; eauto.
    + rewrite IH. intuition.
Qed.

End JSMapMore.

(** ** The Gateway: sorting and selection *)
Section GatewaySelection.
Import Gateway.
Variable uid : string.
Variable limit : number.
Variable identify : Request -> ReqID.
Variable validate : Request -> option string -> result Error Ids.
Variable ROUTES : Routes.
Variable header_value : string -> result Error string.

Local Abbreviation sort := (Gateway.sort limit).
Local Abbreviation close := (Gateway.close uid limit validate).
Local Abbreviation assign := (Gateway.assign limit).
Local Abbreviation assign_slow := (Gateway.assign_slow limit).
Local Abbreviation tagged := (Gateway.tagged uid).
Local Abbreviation route := (Gateway.route uid limit identify header_value).
Local Abbreviation fetch := (Gateway.fetch uid limit identify validate ROUTES header_value).
Local Abbreviation reachable :=
  (Gateway.reachable uid limit identify validate ROUTES header_value).
Local Abbreviation under := (Gateway.under limit).
Local Abbreviation kept g := (filter (Gateway.under limit) (Gateway.sorted_tuples g)).

Lemma insert_tuple_ascending t l :
  StronglySorted by_count l -> StronglySorted by_count (insert_tuple t l).
Proof.
  induction l as [|h l IH]; simpl; intros Hs.
  - constructor; constructor.
  - inversion Hs as [|? ? Hl Hh]; subst.
    destruct (snd t <=? snd h) eqn:E.
    + apply Z.leb_le in E. constructor; auto.
      constructor; [exact E|].
      rewrite Forall_forall in *. intros x Hx. specialize (Hh x Hx).
      unfold by_count in *. lia.
    + apply Z.leb_gt in E. constructor; auto.
      rewrite Forall_forall in *. intros x Hx.
      apply insert_tuple_in in Hx. destruct Hx as [->|Hx]; auto.
      unfold by_count. lia.
Qed.

Lemma sort_tuples_ascending l : StronglySorted by_count (sort_tuples l).
Proof.
  induction l as [|h l IH]; simpl; [constructor|].
  now apply insert_tuple_ascending.
Qed.

Lemma sorted_tuples_ascending g : StronglySorted by_count (sorted_tuples g).
Proof.
  unfold sorted_tuples. destruct (kids g) as [|a [|b l]]; simpl.
  - constructor.
  - constructor; constructor.
  - apply (sort_tuples_ascending (a :: b :: l)).
Qed.

Lemma filter_ascending (f : BucketTuple -> bool) l :
  StronglySorted by_count l -> StronglySorted by_count (filter f l).
Proof.
  induction 1 as [|h l Hl IH Hh]; simpl; [constructor|].
  destruct (f h); auto. constructor; auto.
  rewrite Forall_forall in *. intros x Hx. apply filter_In in Hx. now apply Hh.
Qed.

Lemma insert_tuple_with_count t l c :
  with_count c (insert_tuple t l)
  = if snd t =? c then t :: with_count c l else with_count c l.
Proof.
  unfold with_count. induction l as [|h l IH]; simpl; [reflexivity|].
  destruct (snd t <=? snd h) eqn:E; simpl; [reflexivity|].
  apply Z.leb_gt in E. rewrite IH.
  destruct (snd t =? c) eqn:Et; [|reflexivity].
  apply Z.eqb_eq in Et. destruct (_ =? c) eqn:Eh; [|reflexivity].
  apply Z.eqb_eq in Eh. unfold LiveCount in *. lia.
Qed.

Lemma sort_tuples_with_count l c : with_count c (sort_tuples l) = with_count c l.
Proof.
  induction l as [|h l IH]; simpl; [reflexivity|].
  rewrite insert_tuple_with_count, IH. unfold with_count. simpl.
  now destruct (_ =? c).
Qed.

Lemma sorted_tuples_with_count g c :
  with_count c (sorted_tuples g) = with_count c (kids g).
Proof.
  unfold sorted_tuples. destruct (1 <? _)%nat; [|reflexivity].
  apply sort_tuples_with_count.
Qed.

Lemma filter_swap {A} (p q : A -> bool) l :
  filter p (filter q l) = filter q (filter p l).
Proof.
  induction l as [|x l IH]; simpl; [reflexivity|].
  destruct (p x) eqn:Ep, (q x) eqn:Eq; simpl; rewrite ?Ep, ?Eq, IH; reflexivity.
Qed.

Lemma kept_in g t :
  In t (kept g) <-> In t (kids g) /\ below (snd t) limit = true.
Proof.
  rewrite filter_In, sorted_tuples_in. unfold Gateway.under. reflexivity.
Qed.

(** The head of the kept tuples has the least count of all tracked shards. *)
Lemma kept_head_least g s c :
  hd_error (kept g) = Some (s, c) ->
  below c limit = true /\ In (s, c) (kids g) /\
  forall k c', In (k, c') (kids g) -> c <= c'.
Proof.
  intros Hhd.
  assert (Hin : In (s, c) (kept g)).
  { destruct (kept g); simpl in Hhd; [discriminate|]. inversion Hhd. now left. }
  apply kept_in in Hin. destruct Hin as [Hin Hlt]. simpl in Hlt.
  split; [exact Hlt|]. split; [exact Hin|].
  intros k c' Hk. destruct (below c' limit) eqn:Hu.
  - assert (Hk' : In (k, c') (kept g)) by (apply kept_in; auto).
    pose proof (filter_ascending under _ (sorted_tuples_ascending g)) as Hs.
    destruct (kept g) as [|h l]; simpl in Hhd; [discriminate|].
    inversion Hhd. subst h. inversion Hs as [|? ? _ Hall]; subst.
    destruct Hk' as [Heq|Hk'].
    + inversion Heq. lia.
    + rewrite Forall_forall in Hall. apply (Hall _ Hk').
  - pose proof (below_least c c' limit Hlt Hu). lia.
Qed.

(** X1.  What [#sort] computes: the kept tuples are exactly the entries of
    the table whose count is under the limit, in ascending order of count,
    entries of equal count in the order of the table; the list saved is their
    shard ids, the bucket returned is the first of them, and the table is not
    changed. *)
Theorem sort_ascending_stable g :
  exists tuples,
    fst (sort g) = hd_error tuples /\
    sorted (snd (sort g)) = map fst tuples /\
    kids (snd (sort g)) = kids g /\
    (forall t, In t tuples <-> In t (kids g) /\ below (snd t) limit = true) /\
    StronglySorted by_count tuples /\
    (forall c, with_count c tuples = with_count c (filter under (kids g))).
Proof.
  exists (kept g). rewrite sort_filter. simpl.
  split; [reflexivity|]. split; [reflexivity|]. split; [reflexivity|].
  split; [apply kept_in|]. split.
  - apply filter_ascending, sorted_tuples_ascending.
  - intros c. unfold with_count. rewrite filter_swap.
    fold (with_count c (sorted_tuples g)).
    rewrite sorted_tuples_with_count. unfold with_count. apply filter_swap.
Qed.

(** *** The paths of [fetch], field by field *)

Lemma kept_nil g :
  kept g = [] <-> forall k c, In (k, c) (kids g) -> below c limit = false.
Proof.
  split.
  - intros Hnil k c Hin. destruct (below c limit) eqn:Hu; [|reflexivity].
    assert (H : In (k, c) (kept g)) by (apply kept_in; auto).
    rewrite Hnil in H. destruct H.
  - intros Hfull. destruct (kept g) as [|[k c] l] eqn:E; [reflexivity|].
    assert (H : In (k, c) (kept g)) by (rewrite E; now left).
    apply kept_in in H. destruct H as [Hin Hlt]. simpl in Hlt.
    specialize (Hfull k c Hin). congruence.
Qed.

Lemma assign_slow_frame fresh g :
  match assign_slow fresh g with
  | (FastPath, _, _, _) => False
  | (SortedPath, s, a, g1) =>
      mapping g1 = mapping g /\ current g1 = current g /\
      kids g1 = kids g /\ calls g1 = calls g /\
      sorted g1 = map fst (kept g) /\ hd_error (kept g) = Some (s, a - 1)
  | (FreshPath, s, a, g1) =>
      mapping g1 = mapping g /\ current g1 = current g /\
      s = fresh /\ a = 1 /\
      kids g1 = JSMap.set (kids g) fresh 1 /\ sorted g1 = [fresh] /\
      calls g1 = calls g
                 ++ flat_map (fun sid => [Introduce fresh sid; Introduce sid fresh])
                      (JSMap.keys (kids g)) /\
      (sorted g = [] \/ kept g = [])
  end.
Proof.
  unfold Gateway.assign_slow.
  destruct (0 <? List.length (sorted g))%nat eqn:Elen.
  - rewrite sort_filter. destruct (kept g) as [|[s c] l] eqn:Ek; simpl.
    + repeat split; auto.
    + repeat split; auto. f_equal. f_equal. lia.
  - destruct (sorted g) eqn:Es; simpl in Elen; [|discriminate].
    simpl. rewrite Es. repeat split; auto.
Qed.

(** The candidate [fetch] tries first. *)
Lemma assign_fast_or_slow rid fresh g :
  (exists s c,
      js_or (JSMap.get (mapping g) rid) (js_or (current g) (hd_error (sorted g)))
      = Some s /\
      JSMap.get (kids g) s = Some c /\ fits limit (c + 1) = true /\
      assign rid fresh g = (FastPath, s, c + 1, g)) \/
  (assign rid fresh g = assign_slow fresh g /\
   forall s c,
     js_or (JSMap.get (mapping g) rid) (js_or (current g) (hd_error (sorted g)))
     = Some s ->
     JSMap.get (kids g) s = Some c -> fits limit (c + 1) = false).
Proof.
  unfold Gateway.assign.
  destruct (js_or _ _) as [s|]; [|right; split; [reflexivity|discriminate]].
  destruct (JSMap.get (kids g) s) as [c|] eqn:Eget.
  - destruct (fits limit (c + 1)) eqn:Elim.
    + left. exists s, c. auto.
    + right. split; [reflexivity|]. intros s' c' Hs Hc.
      inversion Hs. subst s'. rewrite Eget in Hc. inversion Hc. now subst c'.
  - right. split; [reflexivity|]. intros s' c' Hs Hc.
    inversion Hs. subst s'. congruence.
Qed.

Lemma assign_frame rid fresh g :
  match assign rid fresh g with
  | (FastPath, s, a, g1) =>
      g1 = g /\
      exists c, JSMap.get (kids g) s = Some c /\ a = c + 1 /\ fits limit a = true
  | (SortedPath, s, a, g1) =>
      mapping g1 = mapping g /\ current g1 = current g /\
      kids g1 = kids g /\ calls g1 = calls g /\
      sorted g1 = map fst (kept g) /\ hd_error (kept g) = Some (s, a - 1)
  | (FreshPath, s, a, g1) =>
      mapping g1 = mapping g /\ current g1 = current g /\
      s = fresh /\ a = 1 /\
      kids g1 = JSMap.set (kids g) fresh 1 /\ sorted g1 = [fresh] /\
      calls g1 = calls g
                 ++ flat_map (fun sid => [Introduce fresh sid; Introduce sid fresh])
                      (JSMap.keys (kids g)) /\
      (sorted g = [] \/ kept g = [])
  end.
Proof.
  clear. destruct (assign_fast_or_slow rid fresh g) as [[s [c [_ [Hget [Hle Heq]]]]]|[Heq _]];
    rewrite Heq.
  - split; [reflexivity|]. exists c. auto.
  - pose proof (assign_slow_frame fresh g) as H.
    destruct (assign_slow fresh g) as [[[[] s] a] g1]; tauto.
Qed.

(** *** What holds of every state the gateway reaches *)

(** A successful close in terms of the kept tuples of the new table. *)
Lemma close_success req r g g' :
  close req g = (Ok r, g') ->
  r = response_text "OK" /\
  sorted g' = map fst (kept g') /\
  current g' = option_map fst (hd_error (kept g')) /\
  calls g' = calls g /\
  exists ids alive,
    validate req None = Ok ids /\ gid ids = uid /\
    JSMap.get (kids g) (sid ids) = Some alive /\
    kids g' = JSMap.set (kids g) (sid ids) (Z.max 0 (alive - 1)) /\
    mapping g' = (if is_empty_flag req
                  then JSMap.delete (mapping g) (rid ids)
                  else mapping g).
Proof.
  unfold Gateway.close.
  destruct (validate req None) as [ids|e] eqn:Hv; [|discriminate].
  destruct (negb (gid ids =? uid)%string) eqn:Hg; [discriminate|].
  destruct (JSMap.get (kids g) (sid ids)) as [alive|] eqn:Hget; [|discriminate].
  rewrite sort_filter. simpl. intros H. inversion H. subst r g'. simpl.
  repeat split; auto.
  exists ids, alive. repeat split; auto.
  apply negb_false_iff in Hg. now apply String.eqb_eq.
Qed.

Lemma close_failure req e g g' : close req g = (Throw e, g') -> g' = g.
Proof.
  intros H.
  destruct (close_cases uid limit validate req g)
    as [[e' He]|[ids [alive [Hv [Heq Hget]]]]].
  - rewrite He in H. now inversion H.
  - destruct (close_ok uid limit validate req ids alive g Hv Heq Hget)
      as [g'' [Hc _]].
    rewrite Hc in H. discriminate.
Qed.

(** No recorded count is negative, and an empty sorted list means that no
    tracked shard is under the limit. *)
Lemma reachable_counts g :
  reachable g ->
  (forall k c, JSMap.get (kids g) k = Some c -> 0 <= c) /\
  (sorted g = [] ->
   forall k c, JSMap.get (kids g) k = Some c -> below c limit = false).
Proof.
  induction 1 as [|g req fresh Hr [IHn IHf]]; [split; [|intros _]; discriminate|].
  pose proof (reachable_wf uid limit identify validate ROUTES header_value g Hr)
    as Hwf.
  unfold Gateway.fetch. destruct (pathname req =? CLOSE ROUTES)%string.
  - destruct (close req g) as [[r|e] g'] eqn:Hc; simpl.
    + destruct (close_success req r g g' Hc)
        as [_ [Hs [_ [_ [ids [alive [_ [_ [Hget [Hk _]]]]]]]]]].
      split.
      * intros k c. rewrite Hk, map_get_set.
        destruct (sid ids =? k)%string; [|apply IHn].
        intros H. inversion H. lia.
      * intros Hnil k c Hkc. rewrite Hnil in Hs.
        symmetry in Hs. apply map_eq_nil in Hs.
        apply (proj1 (kept_nil g') Hs k c). now apply map_get_in.
    + apply close_failure in Hc. subst g'. auto.
  - unfold Gateway.route.
    pose proof (assign_frame (identify req) fresh g) as Hf.
    destruct (assign (identify req) fresh g) as [[[p s] a] g1]. simpl.
    destruct p.
    + destruct Hf as [Hg [c [Hget [Ha Hle]]]]. subst g1. split.
      * intros k c'. rewrite map_get_set.
        destruct (s =? k)%string; [|apply IHn].
        intros H. inversion H. specialize (IHn s c Hget). lia.
      * intros Hnil. specialize (IHf Hnil s c Hget).
        rewrite Ha in Hle. apply fits_below in Hle. congruence.
    + destruct Hf as [_ [_ [Hk [_ [Hs Hhd]]]]]. split.
      * intros k c'. rewrite Hk, map_get_set.
        destruct (s =? k)%string; [|apply IHn].
        intros H. inversion H.
        destruct (kept_head_least g s (a - 1) Hhd) as [_ [Hin _]].
        apply (map_in_get _ _ _ Hwf) in Hin. specialize (IHn s _ Hin). lia.
      * rewrite Hs. destruct (kept g); [discriminate|]. discriminate.
    + destruct Hf as [_ [_ [Hs [Ha [Hk [Hsorted _]]]]]]. split.
      * intros k c'. rewrite map_get_set.
        destruct (s =? k)%string; [intros H; inversion H; lia|].
        rewrite Hk, map_get_set.
        destruct (fresh =? k)%string; [intros H; inversion H; lia|apply IHn].
      * rewrite Hsorted. discriminate.
Qed.

(** *** Selection *)

Lemma sorted_path_least_loaded_aux g s a :
  JSMap.wf (kids g) ->
  hd_error (kept g) = Some (s, a - 1) ->
  exists c,
    JSMap.get (kids g) s = Some c /\ a = c + 1 /\ below c limit = true /\
    forall k c', JSMap.get (kids g) k = Some c' -> c <= c'.
Proof.
  intros Hwf Hhd.
  destruct (kept_head_least g s (a - 1) Hhd) as [Hlt [Hin Hmin]].
  exists (a - 1). split; [now apply map_in_get|]. split; [lia|]. split; [exact Hlt|].
  intros k c' Hk. apply (Hmin k). now apply map_get_in.
Qed.

(** X2.  When [fetch] takes the shard from [#sort], that shard has the least
    recorded count of all tracked shards, and its count is under the limit. *)
Theorem sorted_path_least_loaded rid fresh g s a g1 :
  JSMap.wf (kids g) ->
  assign rid fresh g = (SortedPath, s, a, g1) ->
  exists c,
    JSMap.get (kids g) s = Some c /\ a = c + 1 /\ below c limit = true /\
    forall k c', JSMap.get (kids g) k = Some c' -> c <= c'.
Proof.
  intros Hwf Ha. pose proof (assign_frame rid fresh g) as Hf. rewrite Ha in Hf.
  destruct Hf as [_ [_ [_ [_ [_ Hhd]]]]].
  now apply sorted_path_least_loaded_aux.
Qed.

(** X3.  A reachable gateway creates a shard exactly when no tracked shard is
    under the limit. *)
Theorem creates_shard_iff_all_full rid fresh g :
  reachable g ->
  (fst (fst (fst (assign rid fresh g))) = FreshPath <->
   forall k c, JSMap.get (kids g) k = Some c -> below c limit = false).
Proof.
  intros Hr.
  pose proof (reachable_wf uid limit identify validate ROUTES header_value g Hr)
    as Hwf.
  destruct (reachable_counts g Hr) as [_ Hempty].
  pose proof (assign_frame rid fresh g) as Hf. split.
  - destruct (assign rid fresh g) as [[[p s] a] g1]. simpl. intros Hp. subst p.
    destruct Hf as [_ [_ [_ [_ [_ [_ [_ [Hnil|Hnil]]]]]]]]; [now apply Hempty|].
    intros k c Hk. apply (proj1 (kept_nil g) Hnil k). now apply map_get_in.
  - intros Hfull.
    assert (Hnil : kept g = []).
    { apply kept_nil. intros k c Hin. apply (Hfull k). now apply map_in_get. }
    destruct (assign rid fresh g) as [[[p s] a] g1]. simpl. destruct p; auto.
    + destruct Hf as [_ [c [Hget [Ha Hle]]]]. specialize (Hfull s c Hget).
      rewrite Ha in Hle. apply fits_below in Hle. congruence.
    + destruct Hf as [_ [_ [_ [_ [_ Hhd]]]]]. rewrite Hnil in Hhd. discriminate.
Qed.

(** X4.  No recorded count of a reachable gateway is negative. *)
Theorem counts_never_negative g k c :
  reachable g -> JSMap.get (kids g) k = Some c -> 0 <= c.
Proof. intros Hr. apply (proj1 (reachable_counts g Hr)). Qed.

(** *** What one Route records *)

Lemma route_unfold req fresh g :
  route req fresh g =
  (let '(_, s, a, g1) := assign (identify req) fresh g in
   (match header_value (identify req) with
    | Ok client => Forwarded s (tagged req client s)
    | Throw e => Threw e
    end,
    {| mapping := JSMap.set (mapping g1) (identify req) s;
       kids := JSMap.set (kids g1) s a;
       sorted := sorted g1;
       current := if below a limit then Some s else None;
       calls := calls g1 |})).
Proof. reflexivity. Qed.


(** X6.  Sticky routing.  A client mapped to a shard whose count plus one
    fits the limit is assigned to that shard again and the count goes up by
    one; nothing else in the tables changes.  If the mapped shard is full the
    client is assigned to the created shard or to a tracked shard under the
    limit that no tracked shard undercuts.  The request is handed to the
    assigned shard, unless the platform refuses the client id as a header
    value and [fetch] throws. *)
Theorem sticky_route req fresh g s c :
  JSMap.wf (kids g) ->
  JSMap.get (mapping g) (identify req) = Some s -> truthy s = true ->
  JSMap.get (kids g) s = Some c ->
  (fits limit (c + 1) = true ->
   exists out,
     route req fresh g =
     (out,
      {| mapping := JSMap.set (mapping g) (identify req) s;
         kids := JSMap.set (kids g) s (c + 1);
         sorted := sorted g;
         current := if below (c + 1) limit then Some s else None;
         calls := calls g |}) /\
     match header_value (identify req) with
     | Ok client => exists req', out = Forwarded s req'
     | Throw e => out = Threw e
     end) /\
  (fits limit (c + 1) = false ->
   exists s' out g',
     route req fresh g = (out, g') /\
     match header_value (identify req) with
     | Ok client => exists req', out = Forwarded s' req'
     | Throw e => out = Threw e
     end /\
     JSMap.get (mapping g') (identify req) = Some s' /\
     ((s' = fresh /\ JSMap.get (kids g') s' = Some 1) \/
      (exists c', JSMap.get (kids g) s' = Some c' /\ below c' limit = true /\
                  JSMap.get (kids g') s' = Some (c' + 1) /\
                  forall k c'', JSMap.get (kids g) k = Some c'' -> c' <= c''))).
Proof.
  intros Hwf Hmap Ht Hget.
  assert (Hcand :
    js_or (JSMap.get (mapping g) (identify req))
      (js_or (current g) (hd_error (sorted g))) = Some s).
  { rewrite Hmap. simpl. now rewrite Ht. }
  assert (Hout : forall s0,
    match header_value (identify req) with
    | Ok client =>
        exists req',
          match header_value (identify req) with
          | Ok client0 => Forwarded s0 (tagged req client0 s0)
          | Throw e => Threw e
          end = Forwarded s0 req'
    | Throw e =>
        match header_value (identify req) with
        | Ok client0 => Forwarded s0 (tagged req client0 s0)
        | Throw e0 => Threw e0
        end = Threw e
    end).
  { intros s0. destruct (header_value (identify req)); eauto. }
  split.
  - intros Hle. rewrite route_unfold.
    destruct (assign_fast_or_slow (identify req) fresh g)
      as [[s0 [c0 [Hs0 [Hc0 [_ Heq]]]]]|[_ Hfull]].
    + rewrite Hcand in Hs0. inversion Hs0. subst s0.
      rewrite Hget in Hc0. inversion Hc0. subst c0.
      rewrite Heq. eexists. split; [reflexivity|apply Hout].
    + specialize (Hfull s c Hcand Hget). congruence.
  - intros Hfull. rewrite route_unfold.
    destruct (assign_fast_or_slow (identify req) fresh g)
      as [[s0 [c0 [Hs0 [Hc0 [Hle _]]]]]|[Heq _]].
    + rewrite Hcand in Hs0. inversion Hs0. subst s0.
      rewrite Hget in Hc0. inversion Hc0. subst c0. congruence.
    + pose proof (assign_frame (identify req) fresh g) as Hf.
      destruct (assign (identify req) fresh g) as [[[p s'] a] g1] eqn:Ea.
      eexists s', _, _. split; [reflexivity|]. split; [apply Hout|].
      simpl. split; [apply map_get_set_same|]. destruct p.
      * pose proof (assign_slow_frame fresh g) as Hs.
        rewrite <- Heq in Hs. destruct Hs.
      * right. destruct Hf as [_ [_ [_ [_ [_ Hhd]]]]].
        destruct (sorted_path_least_loaded_aux g s' a Hwf Hhd)
          as [c' [H1 [H2 [H3 H4]]]].
        subst a. exists c'.
        split; [exact H1|]. split; [exact H3|].
        split; [apply map_get_set_same|exact H4].
      * left. destruct Hf as [_ [_ [Hs [Ha _]]]]. subst s' a.
        split; [reflexivity|apply map_get_set_same].
Qed.

(** *** What the tables keep *)

Lemma map_keys_set_present (m : JSMap.t LiveCount) k v v0 :
  JSMap.get m k = Some v0 -> JSMap.keys (JSMap.set m k v) = JSMap.keys m.
Proof.
  induction m as [|[k' v'] m IH]; simpl; [discriminate|].
  destruct (k' =? k)%string; simpl; [reflexivity|].
  intros H. now rewrite IH.
Qed.

Lemma route_keeps_tracked req fresh g k :
  In k (JSMap.keys (kids g)) -> In k (JSMap.keys (kids (snd (route req fresh g)))).
Proof.
  intros Hk. rewrite route_unfold.
  pose proof (assign_frame (identify req) fresh g) as Hf.
  destruct (assign (identify req) fresh g) as [[[p s] a] g1]. simpl.
  apply map_keys_set_in. right. destruct p.
  - destruct Hf as [Hg _]. now subst g1.
  - destruct Hf as [_ [_ [Hkids _]]]. now rewrite Hkids.
  - destruct Hf as [_ [_ [_ [_ [Hkids _]]]]]. rewrite Hkids.
    apply map_keys_set_in. now right.
Qed.

Lemma close_keeps_tracked req g :
  JSMap.keys (kids (snd (close req g))) = JSMap.keys (kids g) /\
  calls (snd (close req g)) = calls g.
Proof.
  destruct (close req g) as [[r|e] g'] eqn:Hc; simpl.
  - destruct (close_success req r g g' Hc)
      as [_ [_ [_ [Hcalls [ids [alive [_ [_ [Hget [Hk _]]]]]]]]]].
    split; [|exact Hcalls]. rewrite Hk. now apply (map_keys_set_present _ _ _ alive).
  - apply close_failure in Hc. now subst g'.
Qed.

Lemma fetch_keeps_tracked req fresh g k :
  In k (JSMap.keys (kids g)) -> In k (JSMap.keys (kids (snd (fetch req fresh g)))).
Proof.
  intros Hk. unfold Gateway.fetch.
  destruct (pathname req =? CLOSE ROUTES)%string.
  - destruct (close_keeps_tracked req g) as [Hkeys _].
    destruct (close req g) as [[r|e] g']; simpl in *; now rewrite Hkeys.
  - now apply route_keeps_tracked.
Qed.

Lemma introductions_mirrored nid items a b :
  In (Introduce a b)
     (flat_map (fun sid => [Introduce nid sid; Introduce sid nid]) items) ->
  In (Introduce b a)
     (flat_map (fun sid => [Introduce nid sid; Introduce sid nid]) items) /\
  ((a = nid /\ In b items) \/ (b = nid /\ In a items)).
Proof.
  rewrite !in_flat_map. intros [x [Hx [H|[H|[]]]]]; inversion H; subst.
  - split; [eexists; split; [eassumption|simpl; auto]|auto].
  - split; [eexists; split; [eassumption|simpl; auto]|auto].
Qed.

(** The calls one Route adds. *)
Lemma route_calls req fresh g :
  (fst (fst (fst (assign (identify req) fresh g))) = FreshPath ->
   calls (snd (route req fresh g))
   = calls g
     ++ flat_map (fun sid => [Introduce fresh sid; Introduce sid fresh])
          (JSMap.keys (kids g))) /\
  (fst (fst (fst (assign (identify req) fresh g))) <> FreshPath ->
   calls (snd (route req fresh g)) = calls g).
Proof.
  clear. rewrite route_unfold.
  pose proof (assign_frame (identify req) fresh g) as Hf.
  destruct (assign (identify req) fresh g) as [[[p s] a] g1]. simpl.
  destruct p; (split; [intros Hp; try discriminate|intros Hp; try congruence]).
  - destruct Hf as [Hg _]. now subst g1.
  - tauto.
  - tauto.
Qed.

(** X7.  Introductions come in pairs between tracked shards: whenever the
    gateway has introduced a to b it has introduced b to a, and both are
    tracked.  A Route that creates a shard introduces it to every shard
    tracked before, in both directions; a Route that creates none issues no
    introduction. *)
Theorem introductions_paired g :
  reachable g ->
  (forall a b,
      In (Introduce a b) (calls g) ->
      In (Introduce b a) (calls g) /\
      In a (JSMap.keys (kids g)) /\ In b (JSMap.keys (kids g))) /\
  (forall req fresh,
      (fst (fst (fst (assign (identify req) fresh g))) = FreshPath ->
       forall m, In m (JSMap.keys (kids g)) ->
                 In (Introduce fresh m) (calls (snd (route req fresh g))) /\
                 In (Introduce m fresh) (calls (snd (route req fresh g)))) /\
      (fst (fst (fst (assign (identify req) fresh g))) <> FreshPath ->
       calls (snd (route req fresh g)) = calls g)).
Proof.
  intros Hr. split.
  - induction Hr as [|g req fresh Hr IH]; [intros a b []|].
    intros a b. unfold Gateway.fetch.
    destruct (pathname req =? CLOSE ROUTES)%string eqn:Hp.
    + destruct (close_keeps_tracked req g) as [Hkeys Hcalls].
      destruct (close req g) as [[r|e] g']; simpl in *;
        rewrite Hkeys, Hcalls; apply IH.
    + pose proof (route_calls req fresh g) as [Hfresh Hother].
      pose proof (assign_frame (identify req) fresh g) as Hf.
      destruct (fst (fst (fst (assign (identify req) fresh g)))) eqn:Epath.
      * rewrite Hother by discriminate. intros Hin.
        destruct (IH a b Hin) as [H1 [H2 H3]].
        split; [exact H1|]. split; now apply route_keeps_tracked.
      * rewrite Hother by discriminate. intros Hin.
        destruct (IH a b Hin) as [H1 [H2 H3]].
        split; [exact H1|]. split; now apply route_keeps_tracked.
      * rewrite (Hfresh eq_refl). rewrite !in_app_iff. intros [Hin|Hin].
        { destruct (IH a b Hin) as [H1 [H2 H3]].
          split; [now left|]. split; now apply route_keeps_tracked. }
        destruct (introductions_mirrored _ _ _ _ Hin) as [Hm Hwho].
        split; [now right|].
        assert (Hnew : In fresh (JSMap.keys (kids (snd (route req fresh g))))).
        { rewrite route_unfold.
          destruct (assign (identify req) fresh g) as [[[p s] a0] g1].
          simpl in *. subst p. destruct Hf as [_ [_ [Hs _]]]. subst s.
          apply map_keys_set_in. now left. }
        destruct Hwho as [[-> Hb]|[-> Ha]]; split; auto;
          now apply route_keeps_tracked.
  - intros req fresh. pose proof (route_calls req fresh g) as [Hfresh Hother].
    split; [|exact Hother].
    intros Hp m Hm. rewrite (Hfresh Hp). split; apply in_or_app; right;
      apply in_flat_map; exists m; simpl; auto.
Qed.

(** X8.  The gateway never forgets a shard, and it forgets a client's sticky
    mapping only on a validated CLOSE request for that client whose is-empty
    header is "1": after any other [fetch] a mapped client is still mapped. *)
Theorem tables_only_grow req fresh g :
  (forall k, In k (JSMap.keys (kids g)) ->
             In k (JSMap.keys (kids (snd (fetch req fresh g))))) /\
  (forall r s,
      JSMap.get (mapping g) r = Some s ->
      (exists s', JSMap.get (mapping (snd (fetch req fresh g))) r = Some s') \/
      (pathname req = CLOSE ROUTES /\ is_empty_flag req = true /\
       exists ids, validate req None = Ok ids /\ rid ids = r)).
Proof.
  split; [intros k; apply fetch_keeps_tracked|].
  intros r s Hmap. unfold Gateway.fetch.
  destruct (String.eqb_spec (pathname req) (CLOSE ROUTES)) as [Hp|_].
  - destruct (close req g) as [[res|e] g'] eqn:Hc; simpl.
    + destruct (close_success req res g g' Hc)
        as [_ [_ [_ [_ [ids [alive [Hv [_ [_ [_ Hm]]]]]]]]]].
      rewrite Hm. destruct (is_empty_flag req) eqn:Hflag; [|left; eauto].
      destruct (String.eqb_spec r (rid ids)) as [Heq|Hne].
      * right. split; [exact Hp|]. split; [reflexivity|]. exists ids. auto.
      * left. exists s. now rewrite map_get_delete_other.
    + apply close_failure in Hc. subst g'. left. eauto.
  - left. rewrite route_unfold.
    pose proof (assign_frame (identify req) fresh g) as Hf.
    destruct (assign (identify req) fresh g) as [[[p s0] a] g1]. simpl.
    assert (Hm1 : mapping g1 = mapping g).
    { destruct p; [destruct Hf as [Hg _]; now subst g1|tauto|tauto]. }
    rewrite Hm1, map_get_set. destruct (identify req =? r)%string; eauto.
Qed.

(** X9.  After a successful close the last-used shard is the head of the
    new sorted list: a tracked shard under the limit that no tracked shard
    undercuts, or nothing when every tracked shard is at the limit or over. *)
Theorem close_points_to_least_loaded req r g g' :
  JSMap.wf (kids g) ->
  close req g = (Ok r, g') ->
  current g' = hd_error (sorted g') /\
  match current g' with
  | Some s =>
      exists c, JSMap.get (kids g') s = Some c /\ below c limit = true /\
                forall k c', JSMap.get (kids g') k = Some c' -> c <= c'
  | None => forall k c, JSMap.get (kids g') k = Some c -> below c limit = false
  end.
Proof.
  intros Hwf Hc.
  assert (Hwf' : JSMap.wf (kids g')).
  { pose proof (close_keeps_wf uid limit validate req g Hwf) as H.
    now rewrite Hc in H. }
  destruct (close_success req r g g' Hc) as [_ [Hs [Hcur _]]].
  rewrite Hcur, Hs.
  destruct (kept g') as [|[s c] l] eqn:Ek; simpl.
  - split; [reflexivity|]. intros k c Hk.
    apply (proj1 (kept_nil g') Ek k). now apply map_get_in.
  - split; [reflexivity|].
    assert (Hhd : hd_error (kept g') = Some (s, c)) by now rewrite Ek.
    destruct (kept_head_least g' s c Hhd) as [Hlt [Hin Hmin]].
    exists c. split; [now apply map_in_get|]. split; [exact Hlt|].
    intros k c' Hk. apply (Hmin k). now apply map_get_in.
Qed.

(** X10.  A request on the CLOSE path is answered by the gateway itself:
    with "OK", or with 400 and the error's message, in which case the state is
    untouched.  Either way it tracks the same shards in the same order and
    issues no introduction. *)
Theorem fetch_close_replies req fresh g :
  pathname req = CLOSE ROUTES ->
  (fst (fetch req fresh g) = Replied (response_text "OK") \/
   exists e, fetch req fresh g = (Replied (abort 400 (Some (message e))), g)) /\
  JSMap.keys (kids (snd (fetch req fresh g))) = JSMap.keys (kids g) /\
  calls (snd (fetch req fresh g)) = calls g.
Proof.
  intros Hp. unfold Gateway.fetch. apply String.eqb_eq in Hp. rewrite Hp.
  destruct (close_keeps_tracked req g) as [Hkeys Hcalls].
  destruct (close req g) as [[r|e] g'] eqn:Hc; simpl in *.
  - destruct (close_success req r g g' Hc) as [Hr _]. subst r. auto.
  - apply close_failure in Hc. subst g'. split; [|auto]. right. now exists e.
Qed.

(** *** A Route and the close that answers it *)

(** X18.  Route and close undo each other on the count.  If a reachable
    gateway forwards a request to a shard and then handles a close notice
    from that shard, the shard's count is what it was before the Route, or 0
    if the Route created the shard; every other count is untouched. *)
Theorem route_then_close_restores req fresh creq ids g :
  reachable g ->
  validate creq None = Ok ids -> gid ids = uid ->
  forall s req' g1,
    route req fresh g = (Forwarded s req', g1) -> sid ids = s ->
    exists g2,
      close creq g1 = (Ok (response_text "OK"), g2) /\
      ((exists c, JSMap.get (kids g) s = Some c /\ JSMap.get (kids g2) s = Some c) \/
       (s = fresh /\ JSMap.get (kids g2) s = Some 0)) /\
      forall k, k <> s -> JSMap.get (kids g2) k = JSMap.get (kids g) k.
Proof.
  intros Hr Hv Hgid s req' g1 Hroute Hsid.
  pose proof (reachable_wf uid limit identify validate ROUTES header_value g Hr)
    as Hwf.
  destruct (reachable_counts g Hr) as [Hnn _].
  rewrite route_unfold in Hroute.
  pose proof (assign_frame (identify req) fresh g) as Hf.
  destruct (assign (identify req) fresh g) as [[[p s0] a] g0].
  destruct (header_value (identify req)) as [client|e]; [|discriminate].
  inversion Hroute. subst s0. clear Hroute.
  set (g1' := {| mapping := JSMap.set (mapping g0) (identify req) s;
                 kids := JSMap.set (kids g0) s a; sorted := sorted g0;
                 current := if below a limit then Some s else None;
                 calls := calls g0 |}) in *.
  assert (Hget1 : JSMap.get (kids g1') (sid ids) = Some a).
  { rewrite Hsid. apply map_get_set_same. }
  destruct (close_ok uid limit validate creq ids a g1' Hv Hgid Hget1)
    as [g2 [Hc [Hk _]]].
  exists g2. subst g1. split; [exact Hc|].
  rewrite Hk, Hsid. simpl.
  assert (Hother : forall (m : JSMap.t LiveCount) k,
            k <> s ->
            JSMap.get (JSMap.set (JSMap.set m s a) s (Z.max 0 (a - 1))) k
            = JSMap.get m k).
  { intros m k Hne. now rewrite !map_get_set_other by exact Hne. }
  destruct p.
  - destruct Hf as [Hg [c [Hgc [Ha Hle]]]]. subst g0. split.
    + left. exists c. split; [exact Hgc|]. rewrite map_get_set_same.
      specialize (Hnn s c Hgc). f_equal. lia.
    + intros k Hne. now apply Hother.
  - destruct Hf as [_ [_ [Hkids [_ [_ Hhd]]]]].
    destruct (kept_head_least g s (a - 1) Hhd) as [_ [Hin _]].
    apply (map_in_get _ _ _ Hwf) in Hin. split.
    + left. exists (a - 1). split; [exact Hin|]. rewrite map_get_set_same.
      specialize (Hnn s _ Hin). f_equal. lia.
    + intros k Hne. rewrite Hkids. now apply Hother.
  - destruct Hf as [_ [_ [Hs [Ha [Hkids _]]]]]. subst a. split.
    + right. split; [exact Hs|]. now rewrite map_get_set_same.
    + intros k Hne. rewrite Hkids, Hother by exact Hne.
      apply map_get_set_other. congruence.
Qed.

End GatewaySelection.

(** *** Scenario A again *)

Lemma after_three_reachable :
  Gateway.reachable "G" Sample.two Sample.identify Sample.validate Sample.ROUTES
    Sample.header_value Sample.after_three.
Proof.
  change Sample.after_three with
    (snd (Gateway.fetch "G" Sample.two Sample.identify Sample.validate Sample.ROUTES
            Sample.header_value (Sample.client_request "c" "/") "S2"
            Sample.after_two)).
  apply Gateway.reach_fetch. apply after_two_reachable.
Defined.

Lemma after_three_wf : JSMap.wf (Gateway.kids Sample.after_three).
Proof. repeat constructor; simpl; intuition discriminate. Defined.

Lemma after_one_reachable :
  Gateway.reachable "G" Sample.two Sample.identify Sample.validate Sample.ROUTES
    Sample.header_value Sample.after_one.
Proof.
  change Sample.after_one with
    (snd (Gateway.fetch "G" Sample.two Sample.identify Sample.validate Sample.ROUTES
            Sample.header_value (Sample.client_request "a" "/") "S1" Gateway.init)).
  apply Gateway.reach_fetch. apply Gateway.reach_init.
Defined.

(** Client a is mapped to the full S1 and comes back: S2 is picked. *)
Lemma sorted_path_least_loaded_witness :
  Gateway.assign Sample.two "a" "S9" Sample.after_three
  = (Gateway.SortedPath, "S2"%string, 2,
     snd (Gateway.sort Sample.two Sample.after_three)) /\
  exists c,
    JSMap.get (Gateway.kids Sample.after_three) "S2" = Some c /\ 2 = c + 1 /\
    below c Sample.two = true /\
    forall k c', JSMap.get (Gateway.kids Sample.after_three) k = Some c' -> c <= c'.
Proof.
  split; [reflexivity|].
  exact (sorted_path_least_loaded Sample.two "a" "S9" Sample.after_three "S2" 2
           (snd (Gateway.sort Sample.two Sample.after_three)) after_three_wf eq_refl).
Defined.

(** After two clients S1 is full, and the third Route creates a shard. *)
Lemma creates_shard_iff_all_full_witness :
  fst (fst (fst (Gateway.assign Sample.two "c" "S2" Sample.after_two)))
  = Gateway.FreshPath /\
  forall k c, JSMap.get (Gateway.kids Sample.after_two) k = Some c ->
              below c Sample.two = false.
Proof.
  split; [reflexivity|].
  exact (proj1 (creates_shard_iff_all_full "G" Sample.two Sample.identify
                  Sample.validate Sample.ROUTES Sample.header_value
                  "c" "S2" Sample.after_two after_two_reachable)
               eq_refl).
Defined.

Lemma counts_never_negative_witness :
  JSMap.get (Gateway.kids Sample.after_three) "S2" = Some 1 /\ 0 <= 1.
Proof.
  split; [reflexivity|].
  exact (counts_never_negative "G" Sample.two Sample.identify Sample.validate
           Sample.ROUTES Sample.header_value
           Sample.after_three "S2" 1 after_three_reachable eq_refl).
Defined.


(** Client a returns while S1 has room; and returns when S1 is full. *)
Lemma sticky_route_witness :
  (exists out,
      Gateway.route "G" Sample.two Sample.identify Sample.header_value
        (Sample.client_request "a" "/") "S9" Sample.after_one
      = (out,
         {| Gateway.mapping := [("a", "S1")]%string;
            Gateway.kids := [("S1"%string, 2)];
            Gateway.sorted := ["S1"%string];
            Gateway.current := None;
            Gateway.calls := [] |}) /\
      exists req', out = Gateway.Forwarded "S1" req') /\
  (exists s' out g',
      Gateway.route "G" Sample.two Sample.identify Sample.header_value
        (Sample.client_request "a" "/") "S9" Sample.after_three
      = (out, g') /\
      (exists req', out = Gateway.Forwarded s' req') /\
      JSMap.get (Gateway.mapping g') "a" = Some s' /\
      ((s' = "S9"%string /\ JSMap.get (Gateway.kids g') s' = Some 1) \/
       (exists c', JSMap.get (Gateway.kids Sample.after_three) s' = Some c' /\
                   below c' Sample.two = true /\
                   JSMap.get (Gateway.kids g') s' = Some (c' + 1) /\
                   forall k c'', JSMap.get (Gateway.kids Sample.after_three) k = Some c''
                                 -> c' <= c''))).
Proof.
  assert (Hwf1 : JSMap.wf (Gateway.kids Sample.after_one))
    by (repeat constructor; simpl; intuition discriminate).
  split.
  - exact (proj1 (sticky_route "G" Sample.two Sample.identify Sample.header_value
                    (Sample.client_request "a" "/")
                    "S9" Sample.after_one "S1" 1 Hwf1 eq_refl eq_refl eq_refl)
                 eq_refl).
  - exact (proj2 (sticky_route "G" Sample.two Sample.identify Sample.header_value
                    (Sample.client_request "a" "/")
                    "S9" Sample.after_three "S1" 2 after_three_wf
                    eq_refl eq_refl eq_refl) eq_refl).
Defined.

Lemma introductions_paired_witness :
  In (Gateway.Introduce "S2" "S1") (Gateway.calls Sample.after_three) /\
  In (Gateway.Introduce "S1" "S2") (Gateway.calls Sample.after_three) /\
  In "S2"%string (JSMap.keys (Gateway.kids Sample.after_three)) /\
  In "S1"%string (JSMap.keys (Gateway.kids Sample.after_three)).
Proof.
  assert (Hin : In (Gateway.Introduce "S2" "S1") (Gateway.calls Sample.after_three))
    by (left; reflexivity).
  split; [exact Hin|].
  exact (proj1 (introductions_paired "G" Sample.two Sample.identify Sample.validate
                  Sample.ROUTES Sample.header_value Sample.after_three
                  after_three_reachable)
               "S2"%string "S1"%string Hin).
Defined.

(** S1 closes one of its two clients: S1 and S2 both hold one, S1 leads. *)
Lemma close_points_to_least_loaded_witness :
  Gateway.current
    (snd (Gateway.close "G" Sample.two Sample.validate
            (Sample.close_notice "G" "S1" "b" None) Sample.after_three))
  = Some "S1"%string /\
  Gateway.current
    (snd (Gateway.close "G" Sample.two Sample.validate
            (Sample.close_notice "G" "S1" "b" None) Sample.after_three))
  = hd_error
      (Gateway.sorted
         (snd (Gateway.close "G" Sample.two Sample.validate
                 (Sample.close_notice "G" "S1" "b" None) Sample.after_three))).
Proof.
  split; [reflexivity|].
  exact (proj1 (close_points_to_least_loaded "G" Sample.two Sample.validate
                  (Sample.close_notice "G" "S1" "b" None) (response_text "OK")
                  Sample.after_three _ after_three_wf eq_refl)).
Defined.

Lemma fetch_close_replies_witness :
  JSMap.keys
    (Gateway.kids
       (snd (Gateway.fetch "G" Sample.two Sample.identify Sample.validate
               Sample.ROUTES Sample.header_value
               (Sample.close_notice "G" "S1" "b" None) "S9" Sample.after_three)))
  = ["S1"; "S2"]%string /\
  Gateway.calls
    (snd (Gateway.fetch "G" Sample.two Sample.identify Sample.validate
            Sample.ROUTES Sample.header_value
            (Sample.close_notice "G" "S1" "b" None) "S9" Sample.after_three))
  = Gateway.calls Sample.after_three.
Proof.
  exact (proj2 (fetch_close_replies "G" Sample.two Sample.identify Sample.validate
                  Sample.ROUTES Sample.header_value
                  (Sample.close_notice "G" "S1" "b" None) "S9"
                  Sample.after_three eq_refl)).
Defined.

(** Client b is routed to S1, which held one client; S1 then reports a close. *)
Lemma route_then_close_restores_witness :
  JSMap.get (Gateway.kids Sample.after_one) "S1" = Some 1 /\
  exists g2,
    Gateway.close "G" Sample.two Sample.validate
      (Sample.close_notice "G" "S1" "b" None) Sample.after_two
    = (Ok (response_text "OK"), g2) /\
    ((exists c, JSMap.get (Gateway.kids Sample.after_one) "S1" = Some c /\
                JSMap.get (Gateway.kids g2) "S1" = Some c) \/
     ("S1"%string = "S2"%string /\ JSMap.get (Gateway.kids g2) "S1" = Some 0)) /\
    forall k, k <> "S1"%string ->
              JSMap.get (Gateway.kids g2) k = JSMap.get (Gateway.kids Sample.after_one) k.
Proof.
  split; [reflexivity|].
  exact (route_then_close_restores "G" Sample.two Sample.identify Sample.validate
           Sample.ROUTES Sample.header_value (Sample.client_request "b" "/") "S2"
           (Sample.close_notice "G" "S1" "b" None) (mkIds "b" "S1" "G" None)
           Sample.after_one after_one_reachable eq_refl eq_refl
           "S1"%string _ Sample.after_two eq_refl eq_refl).
Defined.

(** Client a stays mapped across a close without the flag, and is forgotten
    by one with it. *)
Lemma tables_only_grow_witness :
  In "S1"%string
     (JSMap.keys
        (Gateway.kids
           (snd (Gateway.fetch "G" Sample.two Sample.identify Sample.validate
                   Sample.ROUTES Sample.header_value
                   (Sample.close_notice "G" "S1" "a" (Some "1"%string)) "S9"
                   Sample.after_three)))) /\
  ((exists s',
       JSMap.get
         (Gateway.mapping
            (snd (Gateway.fetch "G" Sample.two Sample.identify Sample.validate
                    Sample.ROUTES Sample.header_value
                    (Sample.close_notice "G" "S1" "a" None) "S9" Sample.after_three)))
         "a" = Some s') \/
   (pathname (Sample.close_notice "G" "S1" "a" None) = CLOSE Sample.ROUTES /\
    Gateway.is_empty_flag (Sample.close_notice "G" "S1" "a" None) = true /\
    exists ids,
      Sample.validate (Sample.close_notice "G" "S1" "a" None) None = Ok ids /\
      rid ids = "a"%string)).
Proof.
  split.
  - refine (proj1 (tables_only_grow "G" Sample.two Sample.identify Sample.validate
                     Sample.ROUTES Sample.header_value _ "S9" Sample.after_three)
                  "S1"%string _).
    left. reflexivity.
  - exact (proj2 (tables_only_grow "G" Sample.two Sample.identify Sample.validate
                    Sample.ROUTES Sample.header_value
                    (Sample.close_notice "G" "S1" "a" None) "S9"
                    Sample.after_three) "a"%string "S1"%string eq_refl).
Defined.

(** ** The Shard: delivery *)
Section ShardDelivery.
Import Shard.
Variable uid : string.
Variable validate : Request -> option string -> result Error Ids.
Variable ROUTES : Routes.
Variable app : App.
Variable settle : list Effect -> list Effect -> option Error.
Variable header_value : string -> result Error string.

Local Abbreviation settled := (Shard.settled settle).
Local Abbreviation effect := (Shard.effect settle).
Local Abbreviation text := (Shard.text settle).
Local Abbreviation emit := (Shard.emit settle).
Local Abbreviation dispatch := (Shard.dispatch uid settle header_value).
Local Abbreviation broadcast := (Shard.broadcast uid ROUTES settle header_value).
Local Abbreviation whisper := (Shard.whisper uid ROUTES settle header_value).
Local Abbreviation fetch := (Shard.fetch uid validate ROUTES app settle header_value).

Lemma effect_run e st : effect e st = (settled (trace st) [e], record [e] st).
Proof. reflexivity. Qed.

(** A loop of guarded sends stops at the first send that throws. *)
Lemma for_each_sends {A} (l : list A) (c : A -> bool) (server : A -> SocketId)
    (data : string) st :
  exists made,
    snd (for_each l (fun x => if c x then effect (Sent (server x) data) else ret tt) st)
    = record made st /\
    (exists rest, map (fun x => Sent (server x) data) (filter c l) = made ++ rest) /\
    (fst (for_each l (fun x => if c x then effect (Sent (server x) data) else ret tt) st)
     = Ok tt ->
     made = map (fun x => Sent (server x) data) (filter c l)) /\
    (forall v,
       fst (for_each l (fun x => if c x then effect (Sent (server x) data) else ret tt) st)
       = Throw v ->
       exists before to failure,
         made = before ++ [Sent to data] /\
         settle (trace st ++ before) [Sent to data] = Some failure /\
         v = Raised failure) /\
    ((forall done to, settle done [Sent to data] = None) ->
     fst (for_each l (fun x => if c x then effect (Sent (server x) data) else ret tt) st)
     = Ok tt).
Proof.
  revert st. induction l as [|x l IH]; intros st; simpl.
  - exists []. rewrite record_nil. repeat split; auto.
    + now exists [].
    + discriminate.
  - unfold bind. destruct (c x) eqn:Ec; simpl.
    + rewrite settled_sent.
      destruct (settle (trace st) [Sent (server x) data]) as [failure|] eqn:Es;
        cbv beta iota.
      * exists [Sent (server x) data]. simpl. repeat split; auto.
        -- now eexists.
        -- discriminate.
        -- intros v Hv. inversion Hv. exists [], (server x), failure.
           rewrite app_nil_r. auto.
        -- intros Hall. rewrite Hall in Es. discriminate.
      * destruct (IH (record [Sent (server x) data] st))
          as [made [Hsnd [[rest Hrest] [Hok [Hthrow Hall]]]]].
        exists (Sent (server x) data :: made). rewrite Hsnd, record_app.
        split; [reflexivity|]. split; [|split; [|split]].
        -- exists rest. simpl. now rewrite Hrest.
        -- intros H. now rewrite (Hok H).
        -- intros v Hv. destruct (Hthrow v Hv) as [before [to [failure [H1 [H2 H3]]]]].
           exists (Sent (server x) data :: before), to, failure.
           split; [simpl; now rewrite H1|]. split; [|exact H3].
           simpl in H2. now rewrite <- app_assoc in H2.
        -- exact Hall.
    + unfold ret. apply IH.
Qed.

(** The sends [#emit] makes are an initial part of the sends to its
    audience. *)
Lemma emit_made sender msg self st :
  exists made,
    snd (emit sender msg self st) = record made st /\
    exists rest, sends sender (stringify msg) self st = made ++ rest.
Proof.
  unfold Shard.emit, sends, audience.
  destruct (for_each_sends (pool st)
              (fun entry => self || negb (fst entry =? sender)%string)
              (fun entry => socket (snd entry)) (stringify msg) st)
    as [made [Hsnd [Hrest _]]].
  exists made. split; [exact Hsnd|exact Hrest].
Qed.

(** When no send of the text throws, [#emit] reaches its whole audience. *)
Lemma emit_all_sent sender msg self st :
  (forall done to, settle done [Sent to (stringify msg)] = None) ->
  emit sender msg self st = (Ok tt, record (sends sender (stringify msg) self st) st).
Proof.
  intros Hnone. unfold Shard.emit, sends, audience.
  destruct (for_each_sends (pool st)
              (fun entry => self || negb (fst entry =? sender)%string)
              (fun entry => socket (snd entry)) (stringify msg) st)
    as [made [Hsnd [_ [Hok [_ Hall]]]]].
  specialize (Hall Hnone).
  rewrite (surjective_pairing (for_each _ _ _)), Hall, Hsnd.
  now rewrite (Hok Hall).
Qed.

(** [await request.text()] records the read and completes as it does. *)
Lemma text_run req st :
  text req st
  = (match settle (trace st) [BodyRead req] with
     | Some failure => Throw (Raised failure)
     | None => Ok (body req)
     end, record [BodyRead req] st).
Proof.
  unfold Shard.text, bind, Shard.effect.
  rewrite settled_call by reflexivity. now destruct (settle _ _).
Qed.

(** A broadcast whose local emit completed, with neighbours. *)
Lemma broadcast_relays gateway sender msg self st st1 :
  emit sender msg self st = (Ok tt, st1) -> neighbors st <> [] ->
  broadcast gateway sender msg self st
  = (settled (trace st1)
       (map (fun sid =>
               ToShard sid
                 (relay_request uid
                    {| d_gateway := gateway; d_sender := sender; d_target := None;
                       d_route := BROADCAST ROUTES; d_body := stringify msg |}
                    None sid))
            (neighbors st)),
     record
       (map (fun sid =>
               ToShard sid
                 (relay_request uid
                    {| d_gateway := gateway; d_sender := sender; d_target := None;
                       d_route := BROADCAST ROUTES; d_body := stringify msg |}
                    None sid))
            (neighbors st))
       st1).
Proof.
  intros He Hsome. unfold Shard.broadcast, bind.
  change (emit sender (Text (stringify msg)) self st) with (emit sender msg self st).
  rewrite He.
  assert (Hn : neighbors st1 = neighbors st).
  { pose proof (appends_keeps _ (appends_emit settle sender msg self) st) as H.
    now rewrite He in H. }
  rewrite <- Hn in Hsome |- *.
  now apply dispatch_relays.
Qed.

(** A relayed broadcast whose body arrives and whose emit completes is
    acknowledged. *)
Lemma fetch_relayed_broadcast req ids st st1 :
  validate req (Some uid) = Ok ids ->
  pathname req <> NEIGHBOR ROUTES -> pathname req = BROADCAST ROUTES ->
  settle (trace st) [BodyRead req] = None ->
  emit (rid ids) (Text (body req)) false (record [BodyRead req] st) = (Ok tt, st1) ->
  fetch req st = (Ok response_empty, st1).
Proof.
  intros Hv Hn Hb Hs He.
  apply String.eqb_neq in Hn. apply String.eqb_eq in Hb.
  unfold Shard.fetch. rewrite Hv, Hn, Hb. unfold try_catch, bind.
  now rewrite text_run, Hs, He.
Qed.

(** A relayed whisper for a client in the pool. *)
Lemma fetch_relayed_whisper req ids st t state :
  validate req (Some uid) = Ok ids ->
  pathname req <> NEIGHBOR ROUTES -> pathname req <> BROADCAST ROUTES ->
  pathname req = WHISPER ROUTES ->
  js_or (tid ids) None = Some t -> JSMap.get (pool st) t = Some state ->
  fetch req st
  = match settle (trace st) [BodyRead req] with
    | Some failure =>
        (Ok (abort 400 (Some (or_default (stack failure)
                                "Error parsing whisper message"))),
         record [BodyRead req] st)
    | None =>
        (match settle (trace st ++ [BodyRead req])
                 [Sent (socket state) (body req)] with
         | Some failure =>
             Ok (abort 400 (Some (or_default (stack failure)
                                    "Error parsing whisper message")))
         | None => Ok response_empty
         end,
         record [BodyRead req; Sent (socket state) (body req)] st)
    end.
Proof.
  intros Hv Hn Hb Hw Ht Hget.
  apply String.eqb_neq in Hn. apply String.eqb_neq in Hb. apply String.eqb_eq in Hw.
  unfold Shard.fetch. rewrite Hv, Hn, Hb, Hw. unfold try_catch.
  rewrite Ht, Hget. unfold bind. rewrite text_run.
  destruct (settle (trace st) [BodyRead req]) as [failure|]; [reflexivity|].
  rewrite effect_run, settled_sent. simpl.
  destruct (settle _ _); unfold ret; simpl; now rewrite record_app.
Qed.

(** X11.  [#emit] changes nothing but the trace.  It sends the message text
    to the pool entries in the order of the pool, leaving out the sender's
    own entry unless [self] is set, and stops at the first send that throws.
    So the sends it makes are an initial part of that list; they are all of
    it exactly when [#emit] completes normally, which it does if no send
    throws; and otherwise [#emit] throws the error of the last send it
    made. *)
Theorem emit_delivery sender msg self st :
  let sends :=
    map (fun entry => Sent (socket (snd entry)) (stringify msg))
        (filter (fun entry => self || negb (fst entry =? sender)%string) (pool st)) in
  exists made,
    snd (emit sender msg self st) = record made st /\
    (exists rest, sends = made ++ rest) /\
    (fst (emit sender msg self st) = Ok tt -> made = sends) /\
    (forall v,
       fst (emit sender msg self st) = Throw v ->
       exists before to failure,
         made = before ++ [Sent to (stringify msg)] /\
         settle (trace st ++ before) [Sent to (stringify msg)] = Some failure /\
         v = Raised failure) /\
    ((forall done to, settle done [Sent to (stringify msg)] = None) ->
     emit sender msg self st = (Ok tt, record sends st)).
Proof.
  intros sends. unfold Shard.emit.
  destruct (for_each_sends (pool st)
              (fun entry => self || negb (fst entry =? sender)%string)
              (fun entry => socket (snd entry)) (stringify msg) st)
    as [made [Hsnd [Hrest [Hok [Hthrow Hall]]]]].
  exists made. split; [exact Hsnd|]. split; [exact Hrest|].
  split; [exact Hok|]. split; [exact Hthrow|].
  intros Hnone. specialize (Hall Hnone).
  rewrite (surjective_pairing (for_each _ _ _)), Hall, Hsnd.
  now rewrite (Hok Hall).
Qed.

(** X12.  [#broadcast] emits locally and then relays.  If the local emit
    throws, so does [#broadcast], and nothing is relayed.  Otherwise, with
    no neighbours it is done; with neighbours it issues one POST on the
    BROADCAST route to each of them, in order, carrying the shard's own id as
    neighbour id, the gateway id, the sender as client id, no target id, the
    neighbour's id as shard id and the message text as body, and completes as
    these calls together do. *)
Theorem broadcast_delivery gateway sender msg self st :
  (forall v st1,
     emit sender msg self st = (Throw v, st1) ->
     broadcast gateway sender msg self st = (Throw v, st1)) /\
  (forall st1,
     emit sender msg self st = (Ok tt, st1) ->
     (neighbors st = [] -> broadcast gateway sender msg self st = (Ok tt, st1)) /\
     (neighbors st <> [] ->
      broadcast gateway sender msg self st
      = (match settle (trace st1)
                 (map (fun sid =>
                         ToShard sid
                           {| method := "POST"; pathname := BROADCAST ROUTES;
                              hdr_upgrade := None; hdr_ws_key := None;
                              hdr_ws_version := None;
                              hdr_gatewayid := Some gateway;
                              hdr_clientid := Some sender;
                              hdr_shardid := Some sid; hdr_neighborid := Some uid;
                              hdr_targetid := None; hdr_isempty := None;
                              body := stringify msg |})
                      (neighbors st)) with
         | Some failure => Throw (Raised failure)
         | None => Ok tt
         end,
         record
           (map (fun sid =>
                   ToShard sid
                     {| method := "POST"; pathname := BROADCAST ROUTES;
                        hdr_upgrade := None; hdr_ws_key := None;
                        hdr_ws_version := None;
                        hdr_gatewayid := Some gateway; hdr_clientid := Some sender;
                        hdr_shardid := Some sid; hdr_neighborid := Some uid;
                        hdr_targetid := None; hdr_isempty := None;
                        body := stringify msg |})
                (neighbors st))
           st1))).
Proof.
  unfold Shard.broadcast, bind.
  change (emit sender (Text (stringify msg)) self st) with (emit sender msg self st).
  split.
  - intros v st1 He. now rewrite He.
  - intros st1 He. rewrite He.
    assert (Hn : neighbors st1 = neighbors st).
    { pose proof (appends_keeps _ (appends_emit settle sender msg self) st) as H.
      now rewrite He in H. }
    split.
    + intros Hnil. apply dispatch_alone. now rewrite Hn.
    + intros Hsome. rewrite <- Hn in Hsome |- *.
      match goal with
      | |- dispatch ?p st1 = _ =>
          rewrite (dispatch_relays uid settle header_value p None st1 Hsome eq_refl)
      end.
      now rewrite settled_relays by exact Hsome.
Qed.

(** X13.  The relay handlers of [fetch].  Both read the body of the request
    and send it on, and answer 400 with the error's stack text (or a fixed
    fallback) when the read or a send fails.  A relayed broadcast is emitted
    to every pool entry but the carried sender's and acknowledged.  A relayed
    whisper without a target id is answered 400; with a target that is not in
    the pool it is acknowledged and nothing is done; with a target in the
    pool its body is sent to that one socket.  In no case is anything relayed
    on, a table changed or the gateway called. *)
Theorem relay_handlers req ids st :
  validate req (Some uid) = Ok ids ->
  pathname req <> NEIGHBOR ROUTES ->
  (pathname req = BROADCAST ROUTES ->
   (forall failure,
      settle (trace st) [BodyRead req] = Some failure ->
      fetch req st
      = (Ok (abort 400 (Some (or_default (stack failure)
                                "Error parsing broadcast message"))),
         record [BodyRead req] st)) /\
   (settle (trace st) [BodyRead req] = None ->
    (forall st1,
       emit (rid ids) (Text (body req)) false (record [BodyRead req] st) = (Ok tt, st1) ->
       fetch req st = (Ok response_empty, st1)) /\
    (forall failure st1,
       emit (rid ids) (Text (body req)) false (record [BodyRead req] st)
       = (Throw (Raised failure), st1) ->
       fetch req st
       = (Ok (abort 400 (Some (or_default (stack failure)
                                 "Error parsing broadcast message"))),
          st1)))) /\
  (pathname req <> BROADCAST ROUTES -> pathname req = WHISPER ROUTES ->
   (js_or (tid ids) None = None ->
    exists res, fetch req st = (Ok res, st) /\ status res = 400) /\
   (forall t,
       js_or (tid ids) None = Some t -> JSMap.get (pool st) t = None ->
       fetch req st = (Ok response_empty, st)) /\
   (forall t state,
       js_or (tid ids) None = Some t -> JSMap.get (pool st) t = Some state ->
       fetch req st
       = match settle (trace st) [BodyRead req] with
         | Some failure =>
             (Ok (abort 400 (Some (or_default (stack failure)
                                     "Error parsing whisper message"))),
              record [BodyRead req] st)
         | None =>
             (match settle (trace st ++ [BodyRead req])
                      [Sent (socket state) (body req)] with
              | Some failure =>
                  Ok (abort 400 (Some (or_default (stack failure)
                                         "Error parsing whisper message")))
              | None => Ok response_empty
              end,
              record [BodyRead req; Sent (socket state) (body req)] st)
         end)) /\
  (pathname req = BROADCAST ROUTES \/ pathname req = WHISPER ROUTES ->
   pool (snd (fetch req st)) = pool st /\
   neighbors (snd (fetch req st)) = neighbors st /\
   notices (snd (fetch req st)) = notices st /\
   forall target r, ~ In (ToShard target r) (skipn (List.length (trace st))
                                               (trace (snd (fetch req st))))).
Proof.
  intros Hv Hn. apply String.eqb_neq in Hn.
  pose proof (text_run req) as Htext.
  split; [|split].
  - intros Hb. apply String.eqb_eq in Hb.
    unfold Shard.fetch. rewrite Hv, Hn, Hb. unfold try_catch, bind.
    rewrite Htext. split.
    + intros failure Hs. now rewrite Hs.
    + intros Hs. rewrite Hs. split.
      * intros st1 He. now rewrite He.
      * intros failure st1 He. now rewrite He.
  - intros Hb Hw. apply String.eqb_neq in Hb. apply String.eqb_eq in Hw.
    unfold Shard.fetch. rewrite Hv, Hn, Hb, Hw. unfold try_catch.
    split; [|split].
    + intros Ht. rewrite Ht. simpl. eexists. split; reflexivity.
    + intros t Ht Hget. now rewrite Ht, Hget.
    + intros t state Ht Hget. rewrite Ht, Hget.
      unfold bind. rewrite Htext.
      destruct (settle (trace st) [BodyRead req]) as [failure|]; [reflexivity|].
      rewrite effect_run, settled_sent. simpl.
      destruct (settle _ _); unfold ret; simpl; now rewrite record_app.
  - intros Hpath.
    assert (Hc : is_control ROUTES req = true).
    { unfold is_control. destruct Hpath as [H|H]; apply String.eqb_eq in H;
        rewrite H; now rewrite ?orb_true_r. }
    destruct (fetch_control uid validate ROUTES app settle header_value req ids st
                Hv Hc) as [_ [Hp Hno]].
    split; [exact Hp|]. split; [|split; [exact Hno|]].
    + destruct (fetch_neighbors uid validate ROUTES app settle header_value req st)
        as [H|[ids' [_ [Hp' _]]]]; [exact H|].
      apply String.eqb_eq in Hp'. congruence.
    + assert (Ha : exists es,
                snd (fetch req st) = record es st /\
                Forall (fun e => match e with ToShard _ _ => False | _ => True end) es).
      { unfold Shard.fetch. rewrite Hv, Hn.
        destruct (pathname req =? BROADCAST ROUTES)%string eqn:Hb.
        - unfold try_catch, bind. rewrite Htext.
          destruct (settle (trace st) [BodyRead req]) as [failure|].
          + exists [BodyRead req]. simpl. split; [reflexivity|]. repeat constructor.
          + destruct (emit_made (rid ids) (Text (body req)) false
                        (record [BodyRead req] st))
              as [made [Hsnd [rest Hrest]]].
            unfold sends, audience in Hrest.
            exists (BodyRead req :: made). split.
            * destruct (emit _ _ _ _) as [[[]|[|err]] st1]; simpl in *; subst st1;
                now rewrite record_app.
            * constructor; [exact I|].
              assert (Hall : Forall
                        (fun e => match e with ToShard _ _ => False | _ => True end)
                        (made ++ rest)).
              { rewrite <- Hrest. apply Forall_forall. intros e He.
                apply in_map_iff in He. destruct He as [x [<- _]]. exact I. }
              apply Forall_app in Hall. tauto.
        - destruct Hpath as [H|H]; apply String.eqb_eq in H; [congruence|].
          rewrite H. unfold try_catch.
          destruct (js_or (tid ids) None) as [t|].
          + destruct (JSMap.get (pool st) t) as [state|].
            * unfold bind. rewrite Htext.
              destruct (settle (trace st) [BodyRead req]) as [failure|].
              -- exists [BodyRead req]. split; [reflexivity|]. repeat constructor.
              -- exists [BodyRead req; Sent (socket state) (body req)].
                 rewrite effect_run.
                 split; [|repeat constructor].
                 destruct (settled _ _) as [[]|[|err]]; simpl; now rewrite record_app.
            * exists []. simpl. split; [now rewrite record_nil|constructor].
          + exists []. simpl. split; [now rewrite record_nil|constructor]. }
      destruct Ha as [es [Hsnd Hes]]. rewrite Hsnd. intros target r.
      unfold record. simpl. rewrite skipn_app, skipn_all, Nat.sub_diag. simpl.
      intros Hin. rewrite Forall_forall in Hes. exact (Hes _ Hin).
Qed.

End ShardDelivery.

(** ** The Shard: connections and their lifecycle *)
Section ShardLifecycle.
Import Shard.
Variable uid : string.
Variable validate : Request -> option string -> result Error Ids.
Variable ROUTES : Routes.
Variable app : App.
Variable settle : list Effect -> list Effect -> option Error.
Variable header_value : string -> result Error string.

Local Abbreviation settled := (Shard.settled settle).
Local Abbreviation effect := (Shard.effect settle).
Local Abbreviation emit := (Shard.emit settle).
Local Abbreviation close_request := (Shard.close_request uid ROUTES).
Local Abbreviation decrement := (Shard.decrement uid ROUTES settle).
Local Abbreviation decremented := (Shard.decremented uid ROUTES).
Local Abbreviation sock_call := (Shard.sock_call uid ROUTES settle header_value).
Local Abbreviation run_script := (Shard.run_script uid ROUTES settle header_value).
Local Abbreviation hook := (Shard.hook uid ROUTES settle header_value).
Local Abbreviation closer := (Shard.closer uid ROUTES app settle header_value).
Local Abbreviation connect :=
  (Shard.connect uid validate ROUTES app settle header_value).
Local Abbreviation run_handler :=
  (Shard.run_handler uid validate ROUTES app settle header_value).
Local Abbreviation answer := (Shard.answer uid ROUTES settle).
Local Abbreviation fetch := (Shard.fetch uid validate ROUTES app settle header_value).
Local Abbreviation on_event := (Shard.on_event uid ROUTES app settle header_value).
Local Abbreviation on_message := (Shard.on_message uid ROUTES app settle header_value).
Local Abbreviation step := (Shard.step uid validate ROUTES app settle header_value).
Local Abbreviation run := (Shard.run uid validate ROUTES app settle header_value).
Local Abbreviation is_close_notice := (Shard.is_close_notice uid ROUTES).

(** *** [connect], outcome by outcome *)

Lemma differs_false_inv h lit : differs h lit = false -> h = Some lit.
Proof.
  destruct h as [v|]; simpl; [|discriminate].
  intros H. apply negb_false_iff, String.eqb_eq in H. now subst.
Qed.

Lemma attached_record s es st : record es (attached s [] st) = attached s es st.
Proof. unfold record, attached. simpl. now rewrite <- app_assoc. Qed.

(** What a hook does to the state: it is entered, and then only appends
    effects that are no calls to the gateway. *)
Lemma hook_trace hn s sc st :
  exists es,
    Forall quiet es /\
    hook hn s sc st
    = (fst (run_script sc (record [Entered hn s] st)),
       record (Entered hn s :: es) st).
Proof.
  unfold Shard.hook, bind. rewrite effect_run, settled_sure by reflexivity.
  destruct (appends_run_script uid ROUTES settle header_value sc
              (record [Entered hn s] st)) as [es [Hes Hq]].
  exists es. split; [exact Hq|].
  rewrite (surjective_pairing (run_script sc _)), Hes. now rewrite record_app.
Qed.

(** [connect] refuses and changes nothing, or sets the socket up and then
    either registers it and upgrades, or throws what [onopen] threw. *)
Lemma connect_shape req st :
  snd (connect req st) = st \/
  exists ids es,
    validate req (Some uid) = Ok ids /\ Forall quiet es /\
    (connect req st
     = (Ok {| status := 101; payload := None; webSocket := Some (next_socket st) |},
        registered (new_socket ids st) (attached (new_socket ids st) es st)) \/
     exists v, connect req st = (Throw v, attached (new_socket ids st) es st)).
Proof.
  destruct (String.eqb_spec (method req) "GET") as [Hm|Hm];
    [|left; unfold Shard.connect; apply String.eqb_neq in Hm; now rewrite Hm].
  destruct (differs (hdr_upgrade req) "websocket") eqn:Hu;
    [left; unfold Shard.connect; now rewrite Hm, Hu|].
  destruct (key_ok (trim (or_default (hdr_ws_key req) ""))) eqn:Hk;
    [|left; unfold Shard.connect; now rewrite Hm, Hu, Hk].
  destruct (differs (hdr_ws_version req) "13") eqn:Hver;
    [left; unfold Shard.connect; now rewrite Hm, Hu, Hk, Hver|].
  destruct (validate req (Some uid)) as [ids|err] eqn:Hval;
    [|left; unfold Shard.connect; now rewrite Hm, Hu, Hk, Hver, Hval].
  apply differs_false_inv in Hu, Hver.
  right. rewrite (connect_accepts uid validate ROUTES app settle header_value
                    req ids st Hm Hu Hk Hver Hval).
  cbv zeta. exists ids. destruct (onopen app) as [h|].
  - destruct (hook_trace OnOpen (new_socket ids st) (h (new_socket ids st))
                (attached (new_socket ids st) [] st)) as [es [Hq Hh]].
    rewrite Hh. exists (Entered OnOpen (new_socket ids st) :: es).
    split; [reflexivity|]. split; [constructor; [exact I|exact Hq]|].
    rewrite !attached_record. clear Hh.
    destruct (fst _) as [[]|v]; [now left|right; now exists v].
  - exists []. split; [reflexivity|]. split; [constructor|]. now left.
Qed.

(** X14.  A request that passes the handshake checks and validation, with no
    [onopen] or one that returns normally, is upgraded: the response is 101
    with the client end of a new socket pair; the listeners are attached to
    the server end, the pool maps the client id to the gateway id and the
    server end, and apart from the effects of [onopen], which call no
    gateway, the trace gains only the accept. *)
Theorem connect_upgrades req ids st :
  method req = "GET"%string -> hdr_upgrade req = Some "websocket"%string ->
  key_ok (trim (or_default (hdr_ws_key req) "")) = true ->
  hdr_ws_version req = Some "13"%string ->
  validate req (Some uid) = Ok ids ->
  (forall h, onopen app = Some h ->
     fst (hook OnOpen (new_socket ids st) (h (new_socket ids st))
            (attached (new_socket ids st) [] st)) = Ok tt) ->
  exists es,
    Forall quiet es /\ (onopen app = None -> es = []) /\
    connect req st
    = (Ok {| status := 101; payload := None; webSocket := Some (next_socket st) |},
       {| pool := JSMap.set (pool st) (rid ids)
                    {| gateway := gid ids; socket := S (next_socket st) |};
          neighbors := neighbors st;
          sockets := sockets st ++ [new_socket ids st];
          next_socket := S (S (next_socket st));
          trace := trace st ++ Accepted (S (next_socket st)) :: es |}).
Proof.
  intros Hm Hu Hk Hver Hval Hopen.
  rewrite (connect_accepts uid validate ROUTES app settle header_value
             req ids st Hm Hu Hk Hver Hval).
  cbv zeta. destruct (onopen app) as [h|].
  - specialize (Hopen h eq_refl).
    destruct (hook_trace OnOpen (new_socket ids st) (h (new_socket ids st))
                (attached (new_socket ids st) [] st)) as [es [Hq Hh]].
    rewrite Hh in Hopen |- *. simpl in Hopen. rewrite Hopen.
    exists (Entered OnOpen (new_socket ids st) :: es).
    split; [constructor; [exact I|exact Hq]|]. split; [discriminate|].
    now rewrite !attached_record.
  - exists []. split; [constructor|]. split; reflexivity.
Qed.

(** *** Sockets, listeners and pool entries *)















(** *** What a shard sends to its gateway *)

Lemma notices_attached s es st :
  Forall quiet es -> notices (attached s es st) = notices st.
Proof.
  intros Hq.
  change (notices (attached s es st))
    with (notices (record (Accepted (sock_server s) :: es) st)).
  apply notices_record. constructor; [exact I|exact Hq].
Qed.

Lemma connect_notices req st : notices (snd (connect req st)) = notices st.
Proof.
  destruct (connect_shape req st) as [Hsame|[ids [es [_ [Hq [Hc|[e Hc]]]]]]].
  - now rewrite Hsame.
  - rewrite Hc. simpl.
    change (notices (registered (new_socket ids st)
                       (attached (new_socket ids st) es st)))
      with (notices (attached (new_socket ids st) es st)).
    now apply notices_attached.
  - rewrite Hc. now apply notices_attached.
Qed.

Lemma run_handler_notices h st : notices (snd (run_handler h st)) = notices st.
Proof.
  revert st. induction h as [r|e|req k IH|c k IH]; intros st; simpl; auto.
  - pose proof (connect_notices req st) as Hc.
    destruct (connect req st) as [r st']. simpl in Hc. now rewrite IH.
  - pose proof (appends_notices (sock_call c) st
                  (appends_sock_call uid ROUTES settle header_value c)) as Hc.
    destruct (sock_call c st) as [r st']. simpl in Hc. now rewrite IH.
Qed.

Lemma answer_notices ids r st :
  exists l, notices (snd (answer ids r st)) = notices st ++ l /\
            Forall is_close_notice l.
Proof.
  assert (Hsame : exists l, notices st = notices st ++ l /\ Forall is_close_notice l).
  { exists []. rewrite app_nil_r. split; [reflexivity|constructor]. }
  assert (Hone : exists l,
            notices (decremented (rid ids) (gid ids) st) = notices st ++ l /\
            Forall is_close_notice l).
  { exists [close_request (rid ids) (gid ids)]. split.
    - apply decremented_notices.
    - constructor; [|constructor]. now exists (rid ids), (gid ids). }
  destruct r as [res|[|err]].
  - destruct (Z.eq_dec (status res) 101) as [Hs|Hs].
    + now rewrite answer_upgrade.
    + now rewrite answer_decrements.
  - now rewrite answer_nullish.
  - now rewrite answer_raised.
Qed.

Lemma step_notices op st :
  exists l, notices (step op st) = notices st ++ l /\ Forall is_close_notice l.
Proof.
  assert (Hsame : forall st', notices st' = notices st ->
            exists l, notices st' = notices st ++ l /\ Forall is_close_notice l).
  { intros st' H. exists []. rewrite app_nil_r. split; [exact H|constructor]. }
  destruct op as [req|server evt|server data]; simpl.
  - destruct (validate req (Some uid)) as [ids|err] eqn:Hv.
    + destruct (is_control ROUTES req) eqn:Hc.
      * apply Hsame.
        now destruct (fetch_control uid validate ROUTES app settle header_value
                        req ids st Hv Hc) as [_ [_ Hn]].
      * rewrite (fetch_delegates uid validate ROUTES app settle header_value
                   req ids st Hv Hc).
        pose proof (run_handler_notices (receive app req) st) as Hr.
        destruct (run_handler (receive app req) st) as [r st'].
        simpl in Hr. rewrite <- Hr. apply answer_notices.
    + apply Hsame. unfold Shard.fetch. now rewrite Hv.
  - unfold Shard.on_event. destruct (listener server st) as [s|]; [|now apply Hsame].
    destruct (closer_effect uid ROUTES app settle header_value s evt st) as [Hn _].
    exists [close_request (sock_uid s) (sock_gid s)]. split; [exact Hn|].
    constructor; [|constructor]. now exists (sock_uid s), (sock_gid s).
  - apply Hsame. unfold Shard.on_message.
    destruct (onmessage app); [|reflexivity].
    destruct (listener server st); [|reflexivity].
    apply appends_notices, appends_hook.
Qed.

Lemma run_notices ops st :
  exists l, notices (run ops st) = notices st ++ l /\ Forall is_close_notice l.
Proof.
  revert st. induction ops as [|op ops IH]; intros st; simpl.
  - exists []. rewrite app_nil_r. split; [reflexivity|constructor].
  - destruct (step_notices op st) as [l1 [H1 Hq1]].
    destruct (IH (step op st)) as [l2 [H2 Hq2]].
    exists (l1 ++ l2). rewrite H2, H1, app_assoc. split; [reflexivity|].
    now apply Forall_app.
Qed.

(** X16.  All a shard ever sends to a gateway are its close notices: a GET on
    the CLOSE route carrying the gateway id, the shard's own id and the
    client id, and never the is-empty header.  So a gateway handling such a
    notice never deletes a sticky mapping. *)
Theorem notices_never_flag_empty :
  (forall ops st,
      exists l, notices (run ops st) = notices st ++ l /\
                Forall
                  (fun req =>
                     exists rid0 gid0,
                       req = close_request rid0 gid0 /\
                       pathname req = CLOSE ROUTES /\
                       hdr_gatewayid req = Some gid0 /\
                       hdr_shardid req = Some uid /\
                       hdr_clientid req = Some rid0 /\
                       hdr_isempty req = None)
                  l) /\
  (forall guid limit gvalidate g rid0 gid0,
      Gateway.mapping
        (snd (Gateway.close guid limit gvalidate (close_request rid0 gid0) g))
      = Gateway.mapping g).
Proof.
  split.
  - intros ops st. destruct (run_notices ops st) as [l [Hl Hq]].
    exists l. split; [exact Hl|].
    eapply Forall_impl; [|exact Hq].
    intros req [rid0 [gid0 Hreq]]. exists rid0, gid0. subst req.
    repeat split.
  - intros guid limit gvalidate g rid0 gid0.
    destruct (close_cases guid limit gvalidate (close_request rid0 gid0) g)
      as [[e He]|[ids [alive [Hv [Heq Hget]]]]].
    + now rewrite He.
    + destruct (close_ok guid limit gvalidate _ ids alive g Hv Heq Hget)
        as [g' [Hc [_ [Hm _]]]].
      rewrite Hc. simpl. exact Hm.
Qed.

(** *** Relays between shards *)

(** X17.  A relay sent by a neighbouring shard [peer] arrives.  When [peer]
    whispers to a target it does not hold and whose id the platform stores
    as [carried], or broadcasts and its local emit completes, and this shard
    is among its neighbours, the request addressed to this shard is in
    [peer]'s trace.  When this shard's [fetch] is given that request (the
    routes being distinct, and validation returning the carried ids), and
    reading its body and sending complete here, a whisper is sent to the
    target's socket, and a broadcast to every pool entry but the sender's,
    and the relay is acknowledged. *)
Theorem relay_round_trip peer peer_settle gateway sender target carried msg self stA st :
  In uid (neighbors stA) ->
  (sender <> target -> JSMap.get (pool stA) target = None ->
   truthy target = true -> header_value target = Ok carried ->
   In (ToShard uid
         {| method := "POST"; pathname := WHISPER ROUTES;
            hdr_upgrade := None; hdr_ws_key := None; hdr_ws_version := None;
            hdr_gatewayid := Some gateway; hdr_clientid := Some sender;
            hdr_shardid := Some uid; hdr_neighborid := Some peer;
            hdr_targetid := Some carried; hdr_isempty := None;
            body := stringify msg |})
      (trace (snd (Shard.whisper peer ROUTES peer_settle header_value
                     gateway sender target msg stA))) /\
   forall relay ids state,
     relay = {| method := "POST"; pathname := WHISPER ROUTES;
                hdr_upgrade := None; hdr_ws_key := None; hdr_ws_version := None;
                hdr_gatewayid := Some gateway; hdr_clientid := Some sender;
                hdr_shardid := Some uid; hdr_neighborid := Some peer;
                hdr_targetid := Some carried; hdr_isempty := None;
                body := stringify msg |} ->
     validate relay (Some uid) = Ok ids ->
     tid ids = Some carried -> truthy carried = true ->
     WHISPER ROUTES <> NEIGHBOR ROUTES -> WHISPER ROUTES <> BROADCAST ROUTES ->
     JSMap.get (pool st) carried = Some state ->
     settle (trace st) [BodyRead relay] = None ->
     settle (trace st ++ [BodyRead relay]) [Sent (socket state) (stringify msg)]
     = None ->
     fetch relay st
     = (Ok response_empty,
        record [BodyRead relay; Sent (socket state) (stringify msg)] st)) /\
  (fst (Shard.emit peer_settle sender msg self stA) = Ok tt ->
   In (ToShard uid
         {| method := "POST"; pathname := BROADCAST ROUTES;
            hdr_upgrade := None; hdr_ws_key := None; hdr_ws_version := None;
            hdr_gatewayid := Some gateway; hdr_clientid := Some sender;
            hdr_shardid := Some uid; hdr_neighborid := Some peer;
            hdr_targetid := None; hdr_isempty := None;
            body := stringify msg |})
      (trace (snd (Shard.broadcast peer ROUTES peer_settle header_value
                     gateway sender msg self stA))) /\
   forall relay ids,
     relay = {| method := "POST"; pathname := BROADCAST ROUTES;
                hdr_upgrade := None; hdr_ws_key := None; hdr_ws_version := None;
                hdr_gatewayid := Some gateway; hdr_clientid := Some sender;
                hdr_shardid := Some uid; hdr_neighborid := Some peer;
                hdr_targetid := None; hdr_isempty := None;
                body := stringify msg |} ->
     validate relay (Some uid) = Ok ids ->
     rid ids = sender -> BROADCAST ROUTES <> NEIGHBOR ROUTES ->
     settle (trace st) [BodyRead relay] = None ->
     (forall done to, settle done [Sent to (stringify msg)] = None) ->
     fetch relay st
     = (Ok response_empty,
        record
          (BodyRead relay
           :: map (fun entry => Sent (socket (snd entry)) (stringify msg))
                (filter (fun entry => negb (fst entry =? sender)%string) (pool st)))
          st)).
Proof.
  intros Hin.
  assert (Hsome : neighbors stA <> []) by (intros H; rewrite H in Hin; destruct Hin).
  split.
  - intros Hne Hget Ht Hc. split.
    + rewrite (whisper_relays peer ROUTES peer_settle header_value
                 gateway sender target msg (Some carried) stA Hne Hget Hsome)
        by (unfold Shard.relay_target; simpl; now rewrite Ht, Hc).
      simpl. apply in_or_app. right. apply in_map_iff. exists uid. auto.
    + intros relay ids state Hrelay Hvw Htid Htc Hwn Hwb Hst Hread Hsend.
      assert (Hpn : pathname relay <> NEIGHBOR ROUTES) by (now subst relay).
      assert (Hpb : pathname relay <> BROADCAST ROUTES) by (now subst relay).
      assert (Hpw : pathname relay = WHISPER ROUTES) by (now subst relay).
      assert (Hjs : js_or (tid ids) None = Some carried).
      { rewrite Htid. simpl. now rewrite Htc. }
      rewrite (fetch_relayed_whisper uid validate ROUTES app settle header_value
                 relay ids st carried state Hvw Hpn Hpb Hpw Hjs Hst).
      assert (Hbody : body relay = stringify msg) by (now subst relay).
      rewrite Hread, Hbody, Hsend. reflexivity.
  - intros Hemit. split.
    + destruct (Shard.emit peer_settle sender msg self stA) as [r st1] eqn:He.
      simpl in Hemit. subst r.
      rewrite (broadcast_relays peer ROUTES peer_settle header_value
                 gateway sender msg self stA st1 He Hsome).
      simpl. apply in_or_app. right. apply in_map_iff. exists uid. auto.
    + intros relay ids Hrelay Hvb Hrid Hbn Hread Hsends.
      assert (Hpn : pathname relay <> NEIGHBOR ROUTES) by (now subst relay).
      assert (Hpb : pathname relay = BROADCAST ROUTES) by (now subst relay).
      assert (Hbody : body relay = stringify msg) by (now subst relay).
      rewrite <- Hbody in Hsends.
      rewrite (fetch_relayed_broadcast uid validate ROUTES app settle header_value
                 relay ids st _ Hvb Hpn Hpb Hread
                 (emit_all_sent settle (rid ids) (Text (body relay)) false
                    (record [BodyRead relay] st) Hsends)).
      unfold sends, audience. simpl. rewrite record_app, Hrid, Hbody. reflexivity.
Qed.

(** *** The listeners *)


(** X20.  A socket message never touches the tables or the gateway: with no
    [onmessage], or for a socket [connect] did not set up, nothing happens at
    all; otherwise the hook is entered on that socket, the listener
    completes as the hook's body does, so that what the body throws is thrown
    on, and the pool, the neighbour set, the sockets and the notices sent
    stay as they were. *)
Theorem message_listener_frames server data st :
  (onmessage app = None \/ listener server st = None ->
   on_message server data st = (Ok tt, st)) /\
  (forall h s, onmessage app = Some h -> listener server st = Some s ->
     (exists es, Forall quiet es /\
        on_message server data st
        = (fst (run_script (h s data) (record [Entered OnMessage s] st)),
           record (Entered OnMessage s :: es) st)) /\
     (forall v, h s data = Fail v ->
        on_message server data st = (Throw v, record [Entered OnMessage s] st))) /\
  pool (snd (on_message server data st)) = pool st /\
  neighbors (snd (on_message server data st)) = neighbors st /\
  sockets (snd (on_message server data st)) = sockets st /\
  notices (snd (on_message server data st)) = notices st.
Proof.
  unfold Shard.on_message. split; [|split].
  - intros [Hn|Hn]; rewrite Hn; [reflexivity|]. now destruct (onmessage app).
  - intros h s Hh Hl. rewrite Hh, Hl. split; [apply hook_trace|].
    intros v Hv. unfold Shard.hook, bind.
    rewrite effect_run, settled_sure by reflexivity. now rewrite Hv.
  - destruct (onmessage app) as [h|]; [|now repeat split].
    destruct (listener server st) as [s|]; [|now repeat split].
    destruct (hook_trace OnMessage s (h s data) st) as [es [Hq Hes]].
    rewrite Hes. simpl. repeat split.
    apply notices_record. constructor; [exact I|exact Hq].
Qed.

End ShardLifecycle.

(** *** Shard "S1" with client a, and its neighbour "S2" *)

(** Client b's message reaches client a's socket; when the socket is gone
    the send throws after it was tried. *)
Lemma emit_delivery_witness :
  Shard.emit Sample.reliable "b" (Shard.Text "hi") false (Sample.connected Sample.app)
  = (Ok tt, Shard.record [Shard.Sent 1%nat "hi"] (Sample.connected Sample.app)) /\
  exists made,
    snd (Shard.emit Sample.sockets_gone "b" (Shard.Text "hi") false
           (Sample.connected Sample.app))
    = Shard.record made (Sample.connected Sample.app) /\
    exists rest, [Shard.Sent 1%nat "hi"] = made ++ rest.
Proof.
  split.
  - destruct (emit_delivery Sample.reliable "b" (Shard.Text "hi") false
                (Sample.connected Sample.app)) as [made [_ [_ [_ [_ Hall]]]]].
    apply Hall. reflexivity.
  - destruct (emit_delivery Sample.sockets_gone "b" (Shard.Text "hi") false
                (Sample.connected Sample.app)) as [made [Hsnd [Hrest _]]].
    exists made. split; [exact Hsnd|exact Hrest].
Defined.

(** Client a on "S1" broadcasts: nothing is sent locally, and "S2" gets the
    relay. *)
Lemma broadcast_delivery_witness :
  Shard.broadcast "S1" Sample.ROUTES Sample.reliable Sample.header_value
    "G" "a" (Shard.Text "hi") false Sample.introduced
  = (Ok tt,
     Shard.record
       [Shard.ToShard "S2"
          {| method := "POST"; pathname := "/~/broadcast";
             hdr_upgrade := None; hdr_ws_key := None; hdr_ws_version := None;
             hdr_gatewayid := Some "G"; hdr_clientid := Some "a";
             hdr_shardid := Some "S2"; hdr_neighborid := Some "S1";
             hdr_targetid := None; hdr_isempty := None; body := "hi" |}]
       Sample.introduced).
Proof.
  assert (Hsome : Shard.neighbors Sample.introduced <> []) by discriminate.
  exact (proj2 (proj2 (broadcast_delivery "S1" Sample.ROUTES Sample.reliable
                         Sample.header_value "G" "a" (Shard.Text "hi") false
                         Sample.introduced)
                      Sample.introduced eq_refl) Hsome).
Defined.

(** A relayed broadcast and a relayed whisper for client a; and the
    broadcast again when client a's socket is gone. *)
Lemma relay_handlers_witness :
  Shard.fetch "S1" Sample.validate Sample.ROUTES Sample.app Sample.reliable
    Sample.header_value Sample.relayed_broadcast (Sample.connected Sample.app)
  = (Ok response_empty,
     Shard.record [Shard.BodyRead Sample.relayed_broadcast; Shard.Sent 1%nat "hi"]
       (Sample.connected Sample.app)) /\
  Shard.fetch "S1" Sample.validate Sample.ROUTES Sample.app Sample.reliable
    Sample.header_value Sample.relayed_whisper (Sample.connected Sample.app)
  = (Ok response_empty,
     Shard.record [Shard.BodyRead Sample.relayed_whisper; Shard.Sent 1%nat "psst"]
       (Sample.connected Sample.app)) /\
  Shard.fetch "S1" Sample.validate Sample.ROUTES Sample.app Sample.sockets_gone
    Sample.header_value Sample.relayed_broadcast (Sample.connected Sample.app)
  = (Ok (abort 400 (Some "Error: WebSocket is closed."%string)),
     Shard.record [Shard.BodyRead Sample.relayed_broadcast; Shard.Sent 1%nat "hi"]
       (Sample.connected Sample.app)).
Proof.
  assert (Hb : pathname Sample.relayed_broadcast <> NEIGHBOR Sample.ROUTES)
    by discriminate.
  assert (Hw : pathname Sample.relayed_whisper <> NEIGHBOR Sample.ROUTES)
    by discriminate.
  assert (Hwb : pathname Sample.relayed_whisper <> BROADCAST Sample.ROUTES)
    by discriminate.
  split; [|split].
  - exact (proj1 (proj2 (proj1 (relay_handlers "S1" Sample.validate Sample.ROUTES
                    Sample.app Sample.reliable Sample.header_value
                    Sample.relayed_broadcast (mkIds "b" "S1" "G" None)
                    (Sample.connected Sample.app) eq_refl Hb) eq_refl) eq_refl)
                 _ eq_refl).
  - exact (proj2 (proj2 (proj1 (proj2 (relay_handlers "S1" Sample.validate
                    Sample.ROUTES Sample.app Sample.reliable Sample.header_value
                    Sample.relayed_whisper
                    (mkIds "b" "S1" "G" (Some "a"%string))
                    (Sample.connected Sample.app) eq_refl Hw)) Hwb eq_refl))
                 "a"%string {| Shard.gateway := "G"; Shard.socket := 1%nat |}
                 eq_refl eq_refl).
  - exact (proj2 (proj2 (proj1 (relay_handlers "S1" Sample.validate Sample.ROUTES
                    Sample.app Sample.sockets_gone Sample.header_value
                    Sample.relayed_broadcast (mkIds "b" "S1" "G" None)
                    (Sample.connected Sample.app) eq_refl Hb) eq_refl) eq_refl)
                 (new_Error "WebSocket is closed.") _ eq_refl).
Defined.

Lemma connect_upgrades_witness :
  exists es,
    Forall Shard.quiet es /\ (Shard.onopen Sample.app = None -> es = []) /\
    Shard.connect "S1" Sample.validate Sample.ROUTES Sample.app Sample.reliable
      Sample.header_value (Sample.upgrade_request "a") Shard.init
    = (Ok {| status := 101; payload := None; webSocket := Some 0%nat |},
       {| Shard.pool := [("a"%string, {| Shard.gateway := "G"; Shard.socket := 1%nat |})];
          Shard.neighbors := [];
          Shard.sockets :=
            [{| Shard.sock_uid := "a"; Shard.sock_gid := "G";
                Shard.sock_server := 1%nat |}];
          Shard.next_socket := 2%nat;
          Shard.trace := Shard.Accepted 1%nat :: es |}).
Proof.
  refine (connect_upgrades "S1" Sample.validate Sample.ROUTES Sample.app
            Sample.reliable Sample.header_value
            (Sample.upgrade_request "a") (mkIds "a" "S1" "G" None) Shard.init
            eq_refl eq_refl eq_refl eq_refl eq_refl _).
  intros h Hh. discriminate.
Defined.


(** Client b on "S2" whispers to client a, who is connected to "S1". *)
Lemma relay_round_trip_witness :
  In (Shard.ToShard "S1" Sample.relayed_whisper)
     (Shard.trace
        (snd (Shard.whisper "S2" Sample.ROUTES Sample.reliable Sample.header_value
                "G" "b" "a" (Shard.Text "psst") Sample.peer_state))) /\
  Shard.fetch "S1" Sample.validate Sample.ROUTES Sample.app Sample.reliable
    Sample.header_value Sample.relayed_whisper (Sample.connected Sample.app)
  = (Ok response_empty,
     Shard.record [Shard.BodyRead Sample.relayed_whisper; Shard.Sent 1%nat "psst"]
       (Sample.connected Sample.app)).
Proof.
  assert (Hin : In "S1"%string (Shard.neighbors Sample.peer_state))
    by (left; reflexivity).
  assert (Hne : "b"%string <> "a"%string) by discriminate.
  assert (Hwn : WHISPER Sample.ROUTES <> NEIGHBOR Sample.ROUTES) by discriminate.
  assert (Hwb : WHISPER Sample.ROUTES <> BROADCAST Sample.ROUTES) by discriminate.
  destruct (proj1 (relay_round_trip "S1" Sample.validate Sample.ROUTES Sample.app
                     Sample.reliable Sample.header_value
                     "S2" Sample.reliable "G" "b" "a" "a" (Shard.Text "psst") false
                     Sample.peer_state (Sample.connected Sample.app) Hin)
                  Hne eq_refl eq_refl eq_refl) as [Hsent Hdelivered].
  split; [exact Hsent|].
  exact (Hdelivered Sample.relayed_whisper (mkIds "b" "S1" "G" (Some "a"%string))
           {| Shard.gateway := "G"; Shard.socket := 1%nat |}
           eq_refl eq_refl eq_refl eq_refl Hwn Hwb eq_refl eq_refl eq_refl).
Defined.


(** A message for client a under an [onmessage] that throws. *)
Lemma message_listener_frames_witness :
  Shard.on_message "S1" Sample.ROUTES Sample.app_onmessage_throws Sample.reliable
    Sample.header_value 1%nat "hi" (Sample.connected Sample.app_onmessage_throws)
  = (Throw (Raised (new_Error "boom")),
     Shard.record [Shard.Entered Shard.OnMessage Sample.socket_a]
       (Sample.connected Sample.app_onmessage_throws)) /\
  Shard.on_message "S1" Sample.ROUTES Sample.app Sample.reliable Sample.header_value
    1%nat "hi" (Sample.connected Sample.app)
  = (Ok tt, Sample.connected Sample.app).
Proof.
  split.
  - exact (proj2 (proj1 (proj2 (message_listener_frames "S1" Sample.ROUTES
                    Sample.app_onmessage_throws Sample.reliable Sample.header_value
                    1%nat "hi" (Sample.connected Sample.app_onmessage_throws)))
                 _ Sample.socket_a eq_refl eq_refl)
                 (Raised (new_Error "boom")) eq_refl).
  - exact (proj1 (message_listener_frames "S1" Sample.ROUTES Sample.app
                    Sample.reliable Sample.header_value 1%nat "hi"
                    (Sample.connected Sample.app))
                 (or_introl eq_refl)).
Defined.
